(** * permpy: permutations, pattern containment and decompositions

    A shallow embedding of [permpy/permutation.py] (class [Permutation]) and
    the verification of its containment search, its bound tables and its
    sum, skew and substitution decompositions.

    Conventions of the embedding:
    - a Python [int] is a [Z]; a [Permutation] (a tuple of ints) is a
      [list Z]; the class invariant (each of [0 .. n-1] exactly once) is the
      predicate [is_perm], never assumed silently;
    - a Python exception is a value [Raise e] of the type [result]; a
      [while] loop runs on fuel and reports [NoFuel] when it is exhausted,
      so that every theorem saying that a call returns shows that the fuel
      supplied by the caller is enough;
    - list subscripts computed from data go through [py_get]/[py_set]
      (negative subscripts count from the end, anything else out of range
      raises [IndexError]); subscripts produced by a [range(len(..))] loop
      use the total accessor [L.[j]];
    - instance attributes live in an explicit object store (module
      [Store]), with attribute lookup falling back to the class
      attributes. *)

From stdpp Require Import base tactics option list list_numbers sorting gmap sets.
From Equations Require Import Equations.
From Stdlib Require Import ZArith Lia.

Open Scope Z_scope.

(** ** Results of Python calls *)

Inductive exn : Set :=
  | IndexError        (* sequence subscript out of range *)
  | AssertionError    (* a failed [assert] *)
  | ValueError_shape  (* [raise ValueError] of [inflate] *)
  | ValueError_index  (* [tuple.index(x)]: x not in tuple *)
  | DeleteNoArgs.     (* [raise Exception] of [delete()] *)

Inductive result (A : Type) : Type :=
  | Ok (a : A)
  | Raise (e : exn)
  | NoFuel.
Arguments Ok {A} a.
Arguments Raise {A} e.
Arguments NoFuel {A}.

#[global] Instance result_ret : MRet result := fun A a => Ok a.
#[global] Instance result_bind : MBind result := fun A B f m =>
  match m with
  | Ok a => f a
  | Raise e => Raise e
  | NoFuel => NoFuel
  end.

Definition assert (b : bool) : result unit :=
  if b then Ok tt else Raise AssertionError.

(** ** Python sequences *)

Definition len {A} (l : list A) : Z := Z.of_nat (length l).

(** [range(a, b)] *)
Definition range (a b : Z) : list Z := seqZ a (b - a).

(** [L[j]] for a subscript known to lie in [0 .. len(L)-1]. *)
Definition znth (L : list Z) (j : Z) : Z := nth (Z.to_nat j) L 0.
Notation "L .[ j ]" := (znth L j) (at level 1, format "L .[ j ]").

(** [L[j]] in general: Python subscripting with negative subscripts. *)
Definition py_get {A} (L : list A) (j : Z) : result A :=
  let j' := if j <? 0 then j + len L else j in
  if j' <? 0 then Raise IndexError
  else match L !! Z.to_nat j' with
       | Some x => Ok x
       | None => Raise IndexError
       end.

(** [L[j] = v] *)
Definition py_set {A} (L : list A) (j : Z) (v : A) : result (list A) :=
  let j' := if j <? 0 then j + len L else j in
  if (j' <? 0) || (len L <=? j') then Raise IndexError
  else Ok (<[Z.to_nat j' := v]> L).

(** [L[a:b]] for [0 <= a]. *)
Definition slice {A} (L : list A) (a b : Z) : list A :=
  take (Z.to_nat (b - a)) (drop (Z.to_nat a) L).

(** [L[:-1]] *)
Definition but_last {A} (L : list A) : list A := take (length L - 1)%nat L.

(** [max(L)] and [min(L)]. On an empty sequence Python raises; every call
    in this file passes a slice [self[j:j+i]] with [2 <= i] and
    [j + i <= len(self)] (lemma [slice_length]), so the empty case is
    given a value and is never reached. *)
Definition seq_max (L : list Z) : Z :=
  match L with
  | [] => 0
  | x :: L' => foldl Z.max x L'
  end.
Definition seq_min (L : list Z) : Z :=
  match L with
  | [] => 0
  | x :: L' => foldl Z.min x L'
  end.

(** A loop body that may raise, run over a list. *)
Fixpoint foldM {A B} (f : A → B → result A) (a : A) (l : list B) : result A :=
  match l with
  | [] => Ok a
  | x :: l' => a' ← f a x; foldM f a' l'
  end.

(** The first hit of a loop that returns from inside. *)
Fixpoint find_first {A B} (f : A → option B) (l : list A) : option B :=
  match l with
  | [] => None
  | x :: l' => match f x with Some r => Some r | None => find_first f l' end
  end.

(** [L.index(x)] *)
Fixpoint index_from (x : Z) (L : list Z) (k : Z) : result Z :=
  match L with
  | [] => Raise ValueError_index
  | y :: L' => if y =? x then Ok k else index_from x L' (k + 1)
  end.
Definition py_index (L : list Z) (x : Z) : result Z := index_from x L 0.

(** ** The class invariant *)

(** The entries are exactly [0 .. n-1], each once. *)
Definition is_perm (L : list Z) : Prop :=
  NoDup L ∧ ∀ x, x ∈ L ↔ 0 ≤ x < len L.

(** The same, as a test that runs. *)
Definition is_permb (L : list Z) : bool :=
  bool_decide (NoDup L)
  && forallb (fun x => bool_decide (x ∈ L)) (range 0 (len L))
  && forallb (fun x => (0 <=? x) && (x <? len L)) L.

(** ** Construction *)

(** [Permutation.standardize(L)] *)
Definition standardize (L : list Z) : result (list Z) :=
  _ ← assert (bool_decide (length (remove_dups L) = length L));
  let ordered := merge_sort Z.le L in
  mapM (fun x => py_index ordered x) L.

(** ** The bound tables *)

Definition bounds_state : Type := Z * Z * list Z * list Z.

(** One turn of the inner loop of [set_up_bounds]. *)
Definition bounds_step (L : list Z) (i : Z) (st : bounds_state) (j : Z)
  : bounds_state :=
  let '(min_above, max_below, lower_bound, upper_bound) := st in
  if L.[j] <? L.[i] then
    if L.[j] >? max_below
    then (min_above, L.[j], <[Z.to_nat i := j]> lower_bound, upper_bound)
    else st
  else
    if (L.[j] <? min_above) || (min_above =? -1)
    then (L.[j], max_below, lower_bound, <[Z.to_nat i := j]> upper_bound)
    else st.

(** The body of the outer loop: the scalars are reset, the tables kept. *)
Definition bounds_row (L : list Z) (tabs : list Z * list Z) (i : Z)
  : list Z * list Z :=
  let '(lower_bound, upper_bound) := tabs in
  let '(_, _, lower_bound', upper_bound') :=
    foldl (bounds_step L i) (-1, -1, lower_bound, upper_bound)
          (range (i + 1) (len L)) in
  (lower_bound', upper_bound').

(** [Permutation.set_up_bounds]; returns [(lower_bound, upper_bound)]. *)
Definition set_up_bounds (self : list Z) : list Z * list Z :=
  let L := self in
  let n := length L in
  let upper_bound := replicate n (-1) in
  let lower_bound := replicate n (-1) in
  foldl (bounds_row L) (lower_bound, upper_bound) (range 0 (len L)).

(** ** The containment search *)

(** One conjunct of [involvement_fits]:
    [bound[next] == -1 or cmp(q[indices[next]], q[indices[bound[next]]])]. *)
Definition fits_side (cmp : Z → Z → bool) (bound indices q : list Z) (next : Z)
  : result bool :=
  b ← py_get bound next;
  if b =? -1 then Ok true
  else
    i ← py_get indices next;
    x ← py_get q i;
    b' ← py_get bound next;
    ib ← py_get indices b';
    y ← py_get q ib;
    Ok (cmp x y).

(** [Permutation.involvement_fits] *)
Definition involvement_fits (upper_bound lower_bound indices q : list Z) (next : Z)
  : result bool :=
  lo ← fits_side Z.gtb lower_bound indices q next;
  if lo : bool then fits_side Z.ltb upper_bound indices q next else Ok false.

(** The [while indices[next] >= 0] loop of [involvement_check]; [rec] is the
    recursive call at [next-1]. The list [indices] is shared by all the
    calls, so it is threaded through and returned. *)
Fixpoint check_loop (rec : list Z → result (bool * list Z)) (w : nat)
    (upper_bound lower_bound indices q : list Z) (next : Z)
  : result (bool * list Z) :=
  match w with
  | O => NoFuel
  | S w' =>
    i ← py_get indices next;
    if i >=? 0 then
      f ← involvement_fits upper_bound lower_bound indices q next;
      '(found, indices) ← (if f : bool then rec indices else Ok (false, indices));
      if found : bool then Ok (true, indices)
      else
        i ← py_get indices next;
        indices ← py_set indices next (i - 1);
        check_loop rec w' upper_bound lower_bound indices q next
    else Ok (false, indices)
  end.

(** [Permutation.involvement_check] *)
Fixpoint involvement_check (fuel : nat)
    (upper_bound lower_bound indices q : list Z) (next : Z)
  : result (bool * list Z) :=
  match fuel with
  | O => NoFuel
  | S fuel' =>
    if next <? 0 then Ok (true, indices)
    else
      i1 ← py_get indices (next + 1);
      indices ← py_set indices next (i1 - 1);
      check_loop
        (fun indices =>
           involvement_check fuel' upper_bound lower_bound indices q (next - 1))
        (S (Z.to_nat i1)) upper_bound lower_bound indices q next
  end.

(** [Permutation.involvement_check_final]; [js] is what is left of
    [range(1, last_require)]. *)
Fixpoint involvement_check_final_loop
    (upper_bound lower_bound indices q : list Z) (n : Z) (js : list Z)
  : result bool :=
  match js with
  | [] => Ok true
  | i :: js' =>
    f ← involvement_fits upper_bound lower_bound indices q (n - i - 1);
    if f : bool
    then involvement_check_final_loop upper_bound lower_bound indices q n js'
    else Ok false
  end.

Definition involvement_check_final
    (n : Z) (upper_bound lower_bound indices q : list Z) (last_require : Z)
  : result bool :=
  involvement_check_final_loop upper_bound lower_bound indices q n
    (range 1 last_require).

(** The [while indices[len(self)-1] >= 0] loop of [involved_in]. *)
Fixpoint involved_in_loop (w : nat) (fuel : nat)
    (upper_bound lower_bound indices P : list Z) (n : Z)
  : result bool :=
  match w with
  | O => NoFuel
  | S w' =>
    i ← py_get indices (n - 1);
    if i >=? 0 then
      '(found, indices) ←
        involvement_check fuel upper_bound lower_bound indices P (n - 2);
      if found : bool then Ok true
      else
        i ← py_get indices (n - 1);
        indices ← py_set indices (n - 1) (i - 1);
        involved_in_loop w' fuel upper_bound lower_bound indices P n
    else Ok false
  end.

(** The body of [Permutation.involved_in] once the bound tables of [self]
    are at hand (computed, or read from the cache of the instance). *)
Definition involved_in_with (bounds : list Z * list Z)
    (self P : list Z) (last_require : Z) : result bool :=
  let '(lower_bound, upper_bound) := bounds in
  let L := self in
  let n := len L in
  let p := len P in
  if (n <=? 1) && (n <=? p) then Ok true
  else
    let indices := replicate (length L) 0 in
    if last_require =? 0 then
      indices ← py_set indices (len self - 1) (p - 1);
      involved_in_loop (S (length P)) (S (length self))
        upper_bound lower_bound indices P (len self)
    else
      indices ← foldM (fun indices i => py_set indices (n - i) (p - i))
                      indices (range 1 (last_require + 1));
      ok ← involvement_check_final (len self) upper_bound lower_bound indices P
             last_require;
      if negb ok : bool then Ok false
      else
        '(found, _) ← involvement_check (S (length self))
                        upper_bound lower_bound indices P
                        (len self - last_require - 1);
        Ok found.

(** [Permutation.involved_in] on an instance whose cache is not yet set. *)
Definition involved_in (self P : list Z) (last_require : Z) : result bool :=
  involved_in_with (set_up_bounds self) self P last_require.

(** [Permutation.involves] *)
Definition involves (self P : list Z) (lr : Z) : result bool :=
  involved_in P self lr.

(** The generator handed to [all(..)] in [avoids]. *)
Fixpoint avoids_all (self : list Z) (lr : Z) (B : list (list Z)) : result bool :=
  match B with
  | [] => Ok true
  | b :: B' =>
    r ← involved_in b self lr;
    if negb r : bool then avoids_all self lr B' else Ok false
  end.

(** [Permutation.avoids]; [None] is Python's [None]. *)
Definition avoids (self : list Z) (p : option (list Z)) (lr : Z)
    (B : option (list (list Z))) : result bool :=
  match p, B with
  | Some p, _ => r ← involved_in p self lr; Ok (negb r)
  | None, Some B => avoids_all self lr B
  | None, None => Ok true
  end.

(** ** Sum and skew sum *)

(** [Permutation.__add__] *)
Definition add (self other : list Z) : list Z :=
  let n := len self in
  self ++ map (fun i => i + n) other.

(** [Permutation.__sub__] *)
Definition sub (self other : list Z) : list Z :=
  let m := len other in
  map (fun i => i + m) self ++ other.

(** [sum(L, Permutation([]))]: Python's [sum] folds [+] from the left. *)
Definition py_sum (L : list (list Z)) : list Z := foldl add [] L.

(** The same fold with [-]. *)
Definition py_skew_sum (L : list (list Z)) : list Z := foldl sub [] L.

(** ** Deletion *)

(** An argument that is either an [int] or an iterable of ints. *)
Inductive int_or_iter : Type :=
  | AnInt (i : Z)
  | AnIter (l : list Z).

(** The [except TypeError] branch shared by both halves of [delete]. *)
Definition delete_value (self : list Z) (val : Z) : list Z :=
  map (fun old_val => if old_val <? val then old_val else old_val - 1)
      (filter (fun old_val => old_val ≠ val) self).

(** [Permutation.delete] *)
Definition delete (self : list Z) (indices values : option int_or_iter)
  : result (list Z) :=
  match indices, values with
  | Some (AnIter indices), _ =>
    standardize
      (map snd (filter (fun iv => Z.of_nat (fst iv) ∉ indices)
                       (imap (fun idx val => (idx, val)) self)))
  | Some (AnInt indices), _ =>
    val ← py_get self indices;
    Ok (delete_value self val)
  | None, Some (AnIter values) =>
    standardize (filter (fun val => val ∉ values) self)
  | None, Some (AnInt values) =>
    Ok (delete_value self values)
  | None, None => Raise DeleteNoArgs
  end.

(** ** Sum and skew decomposition *)

(** The scan shared by [sum_decomposable], [sum_decomposition],
    [skew_decomposable] and [skew_decomposition]: the two sets grow with
    every entry of [self[:-1]] and the scan stops at the first [idx] where
    they are equal. [f] is what is added to [vals]: [val] itself for the
    sum, [n-val-1] for the skew sum. *)
Fixpoint cut_scan (f : Z → Z) (indices vals : gset Z) (idx : nat) (l : list Z)
  : option nat :=
  match l with
  | [] => None
  | val :: l' =>
    let indices := indices ∪ {[ Z.of_nat idx ]} in
    let vals := vals ∪ {[ f val ]} in
    if decide (indices = vals) then Some idx
    else cut_scan f indices vals (S idx) l'
  end.

(** [Permutation.sum_decomposable] *)
Definition sum_decomposable (self : list Z) : bool :=
  bool_decide (is_Some (cut_scan id ∅ ∅ 0 (but_last self))).

(** [Permutation.skew_decomposable] *)
Definition skew_decomposable (self : list Z) : bool :=
  let n := len self in
  bool_decide (is_Some (cut_scan (fun val => n - val - 1) ∅ ∅ 0 (but_last self))).

(** [Permutation.sum_decomposition] *)
Equations? sum_decomposition (self : list Z) : list (list Z)
  by wf (length self) lt :=
  sum_decomposition [] := [];
  sum_decomposition (x :: xs)
    with cut_scan id ∅ ∅ 0 (but_last (x :: xs)) := {
    | Some idx =>
      let component := take (S idx) (x :: xs) in
      let rest := map (fun val => val - Z.of_nat idx - 1) (drop (S idx) (x :: xs)) in
      component :: sum_decomposition rest
    | None => [x :: xs] }.
Proof.
  subst rest. cbn. rewrite ?length_map, ?length_drop. lia.
Qed.

(** [Permutation.skew_decomposition] *)
Equations? skew_decomposition (self : list Z) : list (list Z)
  by wf (length self) lt :=
  skew_decomposition [] := [];
  skew_decomposition (x :: xs)
    with cut_scan (fun val => len (x :: xs) - val - 1) ∅ ∅ 0
                  (but_last (x :: xs)) := {
    | Some idx =>
      let n := len (x :: xs) in
      let component :=
        map (fun value => value - (n - Z.of_nat idx) + 1) (take (S idx) (x :: xs)) in
      let rest := drop (S idx) (x :: xs) in
      component :: skew_decomposition rest
    | None => [x :: xs] }.
Proof.
  subst rest. cbn. rewrite ?length_map, ?length_drop. lia.
Qed.

(** ** Intervals *)

(** The test [max(self[j:j+i]) - min(self[j:j+i]) == i-1] of
    [all_intervals] and [maximal_interval]. *)
Definition interval_test (self : list Z) (i j : Z) : bool :=
  seq_max (slice self j (j + i)) - seq_min (slice self j (j + i)) =? i - 1.

(** [Permutation.maximal_interval] *)
Definition maximal_interval (self : list Z) : Z * Z :=
  match
    find_first
      (fun i =>
         find_first
           (fun j => if interval_test self i j then Some (i, j) else None)
           (range 0 (len self - i + 1)))
      (reverse (range 2 (len self)))
  with
  | Some ij => ij
  | None => (0, 0)
  end.

(** The inner loop of [simple_location]: either it returns [(i,j)] from
    inside, or it falls through with the updated tables. *)
Fixpoint simple_location_inner (self : list Z) (i : Z) (mins maxs : list Z)
    (js : list Z) : (Z * Z) + (list Z * list Z) :=
  match js with
  | [] => inr (mins, maxs)
  | j :: js' =>
    let mins := <[Z.to_nat j := Z.min mins.[j - 1] self.[j]]> mins in
    let maxs := <[Z.to_nat j := Z.max maxs.[j - 1] self.[j]]> maxs in
    if maxs.[j] - mins.[j] =? i then inl (i, j)
    else simple_location_inner self i mins maxs js'
  end.

Fixpoint simple_location_outer (self : list Z) (mins maxs : list Z)
    (lens : list Z) : Z * Z :=
  match lens with
  | [] => (0, 0)
  | i :: lens' =>
    match simple_location_inner self i mins maxs
            (reverse (range i (len self))) with
    | inl ij => ij
    | inr (mins, maxs) => simple_location_outer self mins maxs lens'
    end
  end.

(** [Permutation.simple_location] *)
Definition simple_location (self : list Z) : Z * Z :=
  let mins := self in
  let maxs := self in
  simple_location_outer self mins maxs (range 1 (len self - 1)).

(** Modelled from the spec: [is_simple], which [decomposition] calls and
    which is defined in the statistics mixin ([permstats]), outside
    [permutation.py]. The spec: "a sub-range of positions
    [start, start+length) (length >= 2 ...) is an interval iff
    max(values in range) - min(values in range) == length - 1", and "a
    permutation with no nontrivial interval anywhere is termed simple",
    the nontrivial ones being those that are neither a single position nor
    the whole permutation. *)
Definition is_simple (self : list Z) : bool :=
  forallb
    (fun length =>
       forallb (fun start => negb (interval_test self length start))
               (range 0 (len self - length + 1)))
    (range 2 (len self)).

(** ** Substitution decomposition and inflation *)

(** The [while not base.is_simple()] loop of [decomposition]. *)
Fixpoint decomposition_loop (fuel : nat) (base : list Z)
    (components : list (list Z)) : result (list Z * list (list Z)) :=
  match fuel with
  | O => NoFuel
  | S fuel' =>
    if is_simple base then Ok (base, components)
    else
      _ ← assert (len base =? len components);
      let '(i, j) := maximal_interval base in
      _ ← assert (negb (i =? 0));
      let interval := slice base j (i + j) in
      let new_base := slice base 0 j in
      bj ← py_get base j;
      let new_base := new_base ++ [bj] in
      let new_base := new_base ++ slice base (i + j) (len base) in
      let new_components := slice components 0 j in
      c ← standardize interval;
      let new_components := new_components ++ [c] in
      let new_components :=
        new_components ++ slice components (i + j) (len base) in
      base ← standardize new_base;
      decomposition_loop fuel' base new_components
  end.

(** [Permutation.decomposition]. Every turn of the loop shortens [base],
    so [len(self)] turns and the final test are all the loop can take. *)
Definition decomposition (self : list Z) : result (list Z * list (list Z)) :=
  let base := self in
  components ← mapM (fun _ => standardize [1]) (range 0 (len base));
  decomposition_loop (S (length self)) base components.

(** The body of the [for value in range(n)] loop of [inflate]. *)
Definition inflate_step (self : list Z) (components : list (list Z))
    (st : list (list Z) * Z) (value : Z) : result (list (list Z) * Z) :=
  let '(inflated, vertical_shift) := st in
  index ← py_index self value;
  component ← py_get components index;
  inflated ← py_set inflated index
             (map (fun component_value => component_value + vertical_shift)
                  component);
  Ok (inflated, vertical_shift + len component).

(** [Permutation.inflate] *)
Definition inflate (self : list Z) (components : list (list Z))
  : result (list Z) :=
  let n := len self in
  if negb (n =? len components) then Raise ValueError_shape
  else
    '(inflated, _) ← foldM (inflate_step self components)
                       (replicate (length self) [], 0) (range 0 n);
    let inflated_flat := concat inflated in
    standardize inflated_flat.

(** ** Instances and their attributes *)

Module Store.

(** A [Permutation] object: the tuple it is, and its instance dictionary.
    An attribute that was never assigned on the instance is [None]; it is
    then looked up in the class. *)
Record instance : Type := Instance {
  entries : list Z;
  dict_lower_bound : option (list Z);
  dict_upper_bound : option (list Z);
  dict_bounds_set : option bool;
  dict_insertion_values : option (list Z)
}.

(** The class attributes of [Permutation]. *)
Definition class_lower_bound : list Z := [].
Definition class_upper_bound : list Z := [].
Definition class_bounds_set : bool := false.
Definition class_insertion_values : list Z := [].

(** Attribute lookup: the instance dictionary first, then the class. *)
Definition lower_bound (o : instance) : list Z :=
  default class_lower_bound (dict_lower_bound o).
Definition upper_bound (o : instance) : list Z :=
  default class_upper_bound (dict_upper_bound o).
Definition bounds_set (o : instance) : bool :=
  default class_bounds_set (dict_bounds_set o).
Definition insertion_values (o : instance) : list Z :=
  default class_insertion_values (dict_insertion_values o).

(** The bound cache of an instance, as stored on it. *)
Definition cache (o : instance)
  : option (list Z) * option (list Z) * option bool :=
  (dict_lower_bound o, dict_upper_bound o, dict_bounds_set o).


(** Objects are identified by their address. *)
Abbreviation addr := nat (only parsing).
Abbreviation store := (gmap nat instance) (only parsing).

(** [Permutation.__init__] *)
Definition init (o : instance) : instance :=
  Instance (entries o) (dict_lower_bound o) (dict_upper_bound o)
           (dict_bounds_set o)
           (Some (range 0 (len (entries o) + 1))).

(** [Permutation(p)] for [p] already a [Permutation]: [__new__] returns
    [p] itself, and Python then runs [__init__] on what [__new__]
    returned, as it is an instance of the class. *)
Definition construct (h : store) (p : addr) : option store :=
  o ← h !! p;
  Some (<[p := init o]> h).

(** The first three statements of [involved_in]:
    [if not self.bounds_set: (self.lower_bound, self.upper_bound) =
     self.set_up_bounds(); self.bounds_set = True]. *)
Definition ensure_bounds (h : store) (self : addr) : option store :=
  o ← h !! self;
  if negb (bounds_set o) then
    let '(lb, ub) := set_up_bounds (entries o) in
    Some (<[self := Instance (entries o) (Some lb) (Some ub) (Some true)
                             (dict_insertion_values o)]> h)
  else Some h.

(** [Permutation.involved_in] on objects. [None] only when an address is
    not allocated; a Python exception leaves the store as it was when
    raised. *)
Definition involved_in (h : store) (self P : addr) (last_require : Z)
  : option (result bool * store) :=
  h ← construct h P;
  h ← ensure_bounds h self;
  oself ← h !! self;
  oP ← h !! P;
  Some (involved_in_with (lower_bound oself, upper_bound oself)
          (entries oself) (entries oP) last_require, h).

(** [Permutation.involves] on objects. *)
Definition involves (h : store) (self P : addr) (lr : Z)
  : option (result bool * store) :=
  h ← construct h P;
  involved_in h P self lr.

(** [Permutation.avoids] on objects, called with a pattern [p]. *)
Definition avoids (h : store) (self p : addr) (lr : Z)
  : option (result bool * store) :=
  h ← construct h p;
  '(r, h) ← involved_in h p self lr;
  Some (b ← r; Ok (negb b), h).


End Store.

(** * More of the class *)

(** [enumerate(L)] *)
Definition enumerate {A} (L : list A) : list (Z * A) :=
  imap (fun idx val => (Z.of_nat idx, val)) L.

(** [range(start, stop, -1)] *)
Definition range_down (start stop : Z) : list Z :=
  map (fun k => start - k) (range 0 (start - stop)).

(** ** Constructors *)

(** [Permutation.monotone_increasing]: [cls(range(n), clean=True)] *)
Definition monotone_increasing (n : Z) : list Z := range 0 n.

(** [Permutation.monotone_decreasing]: [cls(range(n-1,-1,-1), clean=True)] *)
Definition monotone_decreasing (n : Z) : list Z := range_down (n - 1) (-1).

(** [Permutation.identity] *)
Definition identity (n : Z) : list Z := monotone_increasing n.

(** ** Composition *)

(** [Permutation.__mul__]. The generator [(self[val] for val in other)] is
    run by the constructor; a subscript out of range raises there. *)
Definition mul (self other : list Z) : result (list Z) :=
  _ ← assert (len other =? len self);
  mapM (fun val => py_get self val) other.

(** ** Insertion *)

(** [list.insert(idx, x)]: a negative [idx] counts from the end, and an
    [idx] beyond either end is moved to that end. *)
Definition list_insert {A} (L : list A) (idx : Z) (x : A) : list A :=
  let i := if idx <? 0 then Z.max 0 (idx + len L) else Z.min idx (len L) in
  take (Z.to_nat i) L ++ x :: drop (Z.to_nat i) L.

(** ** Statistics read off the one-line notation *)

(** [Permutation.fixed_points] *)
Definition fixed_points (self : list Z) : list Z :=
  map fst (filter (fun iv => fst iv = snd iv) (enumerate self)).

(** [Permutation.descents] *)
Definition descents (self : list Z) : list Z :=
  filter (fun i => self.[i + 1] ≤ self.[i]) (range 0 (len self - 1)).

(** [Permutation.ascents] *)
Definition ascents (self : list Z) : list Z :=
  filter (fun i => self.[i] ≤ self.[i + 1]) (range 0 (len self - 1)).

(** [Permutation.peaks] *)
Definition peaks (self : list Z) : list Z :=
  filter (fun i => self.[i - 1] < self.[i] ∧ self.[i + 1] < self.[i])
         (range 1 (len self - 1)).

(** [Permutation.valleys] *)
Definition valleys (self : list Z) : list Z :=
  filter (fun i => self.[i] < self.[i - 1] ∧ self.[i] < self.[i + 1])
         (range 1 (len self - 1)).

(** The loop shared by [ltr_min], [rtl_min], [ltr_max] and [rtl_max]:
    [better val best] is the test of the loop, [pos] what is appended. *)
Definition record_step (better : Z → Z → bool) (pos : Z → Z)
    (st : list Z * Z) (iv : Z * Z) : list Z * Z :=
  let '(L, best) := st in
  let '(idx, val) := iv in
  if better val best then (L ++ [pos idx], val) else (L, best).

(** [Permutation.ltr_min] *)
Definition ltr_min (self : list Z) : list Z :=
  fst (foldl (record_step Z.ltb (fun idx => idx)) ([], len self)
             (enumerate self)).

(** [Permutation.rtl_min] *)
Definition rtl_min (self : list Z) : list Z :=
  let n := len self in
  fst (foldl (record_step Z.ltb (fun idx => n - idx - 1)) ([], n)
             (enumerate (reverse self))).

(** [Permutation.ltr_max] *)
Definition ltr_max (self : list Z) : list Z :=
  fst (foldl (record_step Z.gtb (fun idx => idx)) ([], -1)
             (enumerate self)).

(** [Permutation.rtl_max] *)
Definition rtl_max (self : list Z) : list Z :=
  let n := len self in
  fst (foldl (record_step Z.gtb (fun idx => n - idx - 1)) ([], -1)
             (enumerate (reverse self))).

(** The comprehension shared by [inversions] and [noninversions]:
    [keep val_i val_j] is its condition. *)
Definition pairs_where (keep : Z → Z → bool) (self : list Z) : list (Z * Z) :=
  concat
    (map (fun '(i, val_i) =>
            map (fun '(j, _) => (i, j + i + 1))
                (filter (fun '(_, val_j) => keep val_i val_j = true)
                        (enumerate (slice self (i + 1) (len self)))))
         (enumerate self)).

(** [Permutation.inversions] *)
Definition inversions (self : list Z) : list (Z * Z) :=
  pairs_where Z.geb self.

(** [Permutation.noninversions] *)
Definition noninversions (self : list Z) : list (Z * Z) :=
  pairs_where Z.leb self.

(** [Permutation.bonds] *)
Definition bonds (self : list Z) : list Z :=
  map fst
      (filter (fun '(idx, val) => val - self.[idx + 1] ∈ [-1; 1])
              (enumerate (but_last self))).

(** [Permutation.all_intervals] with [return_patterns=False] *)
Definition all_intervals (self : list Z) : list (list Z) :=
  [[]; []]
  ++ map (fun i =>
            filter (fun j => interval_test self i j = true)
                   (range 0 (len self - i + 1)))
         (range 2 (len self)).

(** ** Indexing the permutations of a length *)

(** [result[a], result[b] = result[b], result[a]]: both reads, then the
    write to [a], then the write to [b]. *)
Definition swap (L : list Z) (a b : Z) : result (list Z) :=
  x ← py_get L b;
  y ← py_get L a;
  L ← py_set L a x;
  py_set L b y.

(** The body of the loop of [ind_to_perm]. *)
Definition ind_to_perm_step (st : list Z * Z) (i : Z) : result (list Z * Z) :=
  let '(result, k) := st in
  let j := k `mod` i in
  result ← swap result (i - 1) j;
  Ok (result, k `div` i).

(** [Permutation.ind_to_perm], for an [int] [k]. *)
Definition ind_to_perm (k n : Z) : result (list Z) :=
  '(result, _) ← foldM ind_to_perm_step (range 0 n, k) (range_down n 0);
  Ok result.

(** The body of the loop of [perm_to_ind]. *)
Definition perm_to_ind_step (st : list Z * Z * Z) (i : Z)
  : result (list Z * Z * Z) :=
  let '(q, result, multiplier) := st in
  qi ← py_get q i;
  let result := result + qi * multiplier in
  let multiplier := multiplier * (i + 1) in
  j ← py_index q i;
  q ← swap q i j;
  Ok (q, result, multiplier).

(** [Permutation.perm_to_ind] *)
Definition perm_to_ind (self : list Z) : result Z :=
  let n := len self in
  '(_, result, _) ← foldM perm_to_ind_step (self, 0, 1) (reverse (range 0 n));
  Ok result.

(** ** Copies of a pattern *)

(** [itertools.combinations(L, r)]: the subsequences of [r] entries, in
    the order of their positions. *)
Fixpoint combinations {A} (L : list A) (r : nat) : list (list A) :=
  match r, L with
  | O, _ => [[]]
  | S _, [] => []
  | S r', x :: L' => map (cons x) (combinations L' r') ++ combinations L' r
  end.

(** A comprehension whose condition may raise. *)
Fixpoint filterM {A} (f : A → result bool) (l : list A) : result (list A) :=
  match l with
  | [] => Ok []
  | x :: l' =>
    b ← f x;
    k ← filterM f l';
    Ok (if b : bool then x :: k else k)
  end.

(** [Permutation(subseq) == other] *)
Definition same_pattern (subseq other : list Z) : result bool :=
  p ← standardize subseq;
  Ok (bool_decide (p = other)).

(** [Permutation.copies] *)
Definition copies (self other : list Z) : result (list (list Z)) :=
  filterM (fun subseq => same_pattern subseq other)
          (combinations self (length other)).

(** [Permutation.contiguous_copies] *)
Definition contiguous_copies (self other : list Z) : result (list Z) :=
  let m := len other in
  filterM (fun initial_idx =>
             same_pattern (slice self initial_idx (initial_idx + m)) other)
          (range 0 (len self - m)).

(** ** The symmetries, and what uses them *)

Module Perm.

(** [Permutation.complement] *)
Definition complement (self : list Z) : list Z :=
  let n := len self - 1 in
  map (fun i => n - i) self.

(** [Permutation.reverse]: [self[::-1]] *)
Definition reverse (self : list Z) : list Z := reverse self.

(** [Permutation.inverse] *)
Definition inverse (self : list Z) : result (list Z) :=
  foldM (fun q '(idx, val) => py_set q val idx)
        (replicate (length self) 0) (enumerate self).

(** [Permutation.insert], for an [int] [val] (so that
    [int(math.ceil(val))] is [val]). *)
Definition insert (self : list Z) (idx val : Z) : list Z :=
  let p := map (fun old_val => if old_val <? val then old_val else old_val + 1)
               self in
  list_insert p idx val.

(** [Permutation.__pow__]. The call [p.__pow__(-power)] of the first
    branch has a positive argument, so it is one of the other two
    branches, [pow_nonneg]. *)
Definition pow_nonneg (self : list Z) (power : Z) : result (list Z) :=
  if power =? 0 then Ok (identity (len self))
  else foldM (fun ans _ => mul ans self) self (range 0 (power - 1)).

Definition pow (self : list Z) (power : Z) : result (list Z) :=
  if power <? 0 then p ← inverse self; pow_nonneg p (- power)
  else pow_nonneg self power.

(** [Permutation.covers], the set as the list of its elements. *)
Definition covers (self : list Z) : list (list Z) :=
  map (fun val => delete_value self val) self.

End Perm.

(** * Verification *)

(** ** The docstring examples, run *)

Example involved_in_doc1 : involved_in [0;1;2] [2;0;4;3;1] 0 = Ok false.
Proof. vm_compute. reflexivity. Qed.
Example involved_in_doc2 : involved_in [1;0;2] [4;3;1;0;2] 0 = Ok true.
Proof. vm_compute. reflexivity. Qed.
Example avoids_doc1 : avoids [0;1;2;3;4;5] (Some [1;2;0]) 0 None = Ok true.
Proof. vm_compute. reflexivity. Qed.
Example avoids_doc2 : avoids [0;1;2;3;4;5] (Some [0;1;2]) 0 None = Ok false.
Proof. vm_compute. reflexivity. Qed.
Example bounds_ex : set_up_bounds [2;0;4;3;1] = ([4;-1;3;4;-1], [3;4;-1;-1;-1]).
Proof. vm_compute. reflexivity. Qed.
Example delete_doc1 : delete [2;4;1;0;3] (Some (AnInt 2)) None = Ok [1;3;0;2].
Proof. vm_compute. reflexivity. Qed.
Example delete_doc2 :
  delete [2;4;1;0;3] (Some (AnIter [2;4])) None = Ok [1;2;0].
Proof. vm_compute. reflexivity. Qed.
Example delete_doc3 :
  delete [2;4;1;0;3] None (Some (AnIter [4])) = Ok [2;1;0;3].
Proof. vm_compute. reflexivity. Qed.
Example sum_decomposition_doc :
  sum_decomposition (add (add [0] [2;0;1]) [1;0]) = [[0]; [2;0;1]; [1;0]].
Proof. vm_compute. reflexivity. Qed.
Example skew_decomposition_ex :
  skew_decomposition [3;4;2;0;1] = [[0;1]; [0]; [0;1]].
Proof. vm_compute. reflexivity. Qed.
Example maximal_interval_ex : maximal_interval [1;3;0;2] = (0, 0).
Proof. vm_compute. reflexivity. Qed.
Example maximal_interval_ex2 : maximal_interval [2;0;1;3;5;4] = (4, 0).
Proof. vm_compute. reflexivity. Qed.
Example simple_location_ex : simple_location [1;3;0;2] = (0, 0).
Proof. vm_compute. reflexivity. Qed.
Example simple_location_ex2 : simple_location [2;0;1;3;5;4] = (1, 5).
Proof. vm_compute. reflexivity. Qed.
Example decomposition_ex :
  decomposition [2;0;1;3;5;4] = Ok ([0;1], [[2;0;1;3]; [1;0]]).
Proof. vm_compute. reflexivity. Qed.
Example inflate_ex : inflate [0;1] [[2;0;1;3]; [1;0]] = Ok [2;0;1;3;5;4].
Proof. vm_compute. reflexivity. Qed.
Example inflate_ex2 : inflate [1;0] [[0;1]; [1;0]] = Ok [2;3;1;0].
Proof. vm_compute. reflexivity. Qed.
Example inflate_shape : inflate [1;0] [[0;1]] = Raise ValueError_shape.
Proof. vm_compute. reflexivity. Qed.

(** ** More docstring examples, run *)

Example call_doc : py_get [3;0;2;1] 2 = Ok 2.
Proof. reflexivity. Qed.
Example insert_doc : Perm.insert [1;3;0;2] 2 1 = [2;4;1;0;3].
Proof. reflexivity. Qed.
Example complement_doc : Perm.complement [1;2;0;3] = [2;1;3;0].
Proof. reflexivity. Qed.
Example reverse_doc : Perm.reverse [1;2;0;3] = [3;0;2;1].
Proof. reflexivity. Qed.
Example fixed_points_doc : fixed_points [4;1;0;3;2;5] = [1;3;5].
Proof. reflexivity. Qed.
Example descents_doc : descents [3;1;4;5;0;7;6;2] = [0;3;5;6].
Proof. vm_compute. reflexivity. Qed.
Example ascents_doc : ascents [3;1;4;5;0;7;6;2] = [1;2;4].
Proof. vm_compute. reflexivity. Qed.
Example peaks_doc : peaks [1;2;3;0;6;5;4] = [2;4].
Proof. vm_compute. reflexivity. Qed.
Example valleys_doc : valleys [2;1;3;0;6;4;5] = [1;3;5].
Proof. vm_compute. reflexivity. Qed.
Example ltr_min_doc : ltr_min [2;4;3;0;1] = [0;3].
Proof. vm_compute. reflexivity. Qed.
Example rtl_min_doc : rtl_min [2;0;4;1;5;3] = [5;3;1].
Proof. vm_compute. reflexivity. Qed.
Example ltr_max_doc : ltr_max [2;4;3;0;1] = [0;1].
Proof. vm_compute. reflexivity. Qed.
Example rtl_max_doc : rtl_max [2;4;3;0;1] = [4;2;1].
Proof. vm_compute. reflexivity. Qed.
Example inversions_doc : inversions [3;0;2;1] = [(0,1); (0,2); (0,3); (2,3)].
Proof. vm_compute. reflexivity. Qed.
Example ind_to_perm_doc :
  ind_to_perm 12 8 ≫= perm_to_ind = Ok 12.
Proof. vm_compute. reflexivity. Qed.
Example perm_to_ind_doc :
  perm_to_ind [3;0;4;1;2] ≫= (fun k => ind_to_perm k 5) = Ok [3;0;4;1;2].
Proof. vm_compute. reflexivity. Qed.
Example copies_ex : copies [0;2;1;3] [0;1;2] = Ok [[0;2;3]; [0;1;3]].
Proof. vm_compute. reflexivity. Qed.
Example pow_ex : Perm.pow [1;2;0] (-2) = Ok [1;2;0].
Proof. vm_compute. reflexivity. Qed.

(** ** Direct sums and skew sums *)

Lemma len_app {A} (l k : list A) : len (l ++ k) = len l + len k.
Proof. unfold len. rewrite length_app. lia. Qed.

Lemma len_map {A B} (f : A → B) (l : list A) : len (f <$> l) = len l.
Proof. unfold len. by rewrite length_fmap. Qed.

Lemma add_nil_l (c : list Z) : add [] c = c.
Proof.
  unfold add. simpl. rewrite <- (list_fmap_id c) at 2.
  apply list_fmap_ext. intros _ x _. unfold len. simpl. lia.
Qed.

Lemma add_assoc (a b c : list Z) : add (add a b) c = add a (add b c).
Proof.
  unfold add. rewrite <- app_assoc. f_equal.
  change map with (@fmap list _) in *.
  rewrite fmap_app. f_equal. rewrite <- list_fmap_compose.
  apply list_fmap_ext. intros _ x _. simpl.
  rewrite len_app, len_map. lia.
Qed.

Lemma foldl_add (acc : list Z) (L : list (list Z)) :
  foldl add acc L = add acc (foldl add [] L).
Proof.
  revert acc. induction L as [|c L IH]; intros acc; simpl.
  - unfold add. simpl. by rewrite app_nil_r.
  - rewrite IH, (IH (add [] c)), add_nil_l. apply add_assoc.
Qed.

Lemma sub_nil_l (c : list Z) : sub [] c = c.
Proof. reflexivity. Qed.

Lemma sub_assoc (a b c : list Z) : sub (sub a b) c = sub a (sub b c).
Proof.
  unfold sub. change map with (@fmap list _) in *.
  rewrite fmap_app, <- app_assoc. f_equal.
  rewrite <- list_fmap_compose.
  apply list_fmap_ext. intros _ x _. simpl.
  rewrite len_app, len_map. lia.
Qed.

Lemma foldl_sub (acc : list Z) (L : list (list Z)) :
  foldl sub acc L = sub acc (foldl sub [] L).
Proof.
  revert acc. induction L as [|c L IH]; intros acc; simpl.
  - unfold sub. simpl. rewrite <- (list_fmap_id acc) at 1.
    rewrite app_nil_r. apply list_fmap_ext. intros _ x _. unfold len. simpl. lia.
  - rewrite IH, (IH (sub [] c)), sub_nil_l. apply sub_assoc.
Qed.

(** The scan answers with a position of the list it was given. *)
Lemma cut_scan_range f indices vals k l idx :
  cut_scan f indices vals k l = Some idx → (k ≤ idx < k + length l)%nat.
Proof.
  revert indices vals k. induction l as [|v l IH]; intros I V k; simpl.
  - discriminate.
  - case_decide.
    + intros [= <-]. lia.
    + intros H'. apply IH in H'. lia.
Qed.

Lemma but_last_length {A} (l : list A) : length (but_last l) = (length l - 1)%nat.
Proof. unfold but_last. rewrite length_take. lia. Qed.

(** C3. Folding the direct sum [+] over [sum_decomposition P], in order,
    gives back [P], and folding the skew sum [-] over
    [skew_decomposition P], in order, gives back [P]; the empty
    permutation decomposes to the empty list both ways. It holds for every
    sequence of integers, so for every permutation. *)
Theorem sum_skew_decomposition_round_trip (P : list Z) :
  py_sum (sum_decomposition P) = P
  ∧ py_skew_sum (skew_decomposition P) = P
  ∧ sum_decomposition [] = []
  ∧ skew_decomposition [] = [].
Proof.
  split; [|split; [|split; reflexivity]].
  - funelim (sum_decomposition P).
    + reflexivity.
    + clear Heqcall. unfold py_sum in *. cbn [foldl].
      rewrite add_nil_l, foldl_add, H.
      apply cut_scan_range in Heq. rewrite but_last_length in Heq.
      simpl in Heq.
      unfold add. change map with (@fmap list _).
      rewrite <- list_fmap_compose.
      etransitivity; [|apply (take_drop (S idx) (x :: xs))]. f_equal.
      rewrite <- (list_fmap_id (drop _ _)) at 2.
      apply list_fmap_ext. intros _ v _. simpl.
      unfold len. simpl. rewrite ?length_take. lia.
    + unfold py_sum. simpl. apply add_nil_l.
  - funelim (skew_decomposition P).
    + reflexivity.
    + clear Heqcall. unfold py_skew_sum in *. cbn [foldl].
      rewrite sub_nil_l, foldl_sub, H.
      apply cut_scan_range in Heq. rewrite but_last_length in Heq.
      simpl in Heq.
      unfold sub. change map with (@fmap list _).
      rewrite <- list_fmap_compose.
      etransitivity; [|apply (take_drop (S idx) (x :: xs))]. f_equal.
      rewrite <- (list_fmap_id (take _ _)) at 2.
      apply list_fmap_ext. intros _ v _. simpl.
      unfold len. simpl. rewrite ?length_drop. lia.
    + reflexivity.
Qed.

(** ** Python sequences *)

Lemma len_nonneg {A} (l : list A) : 0 ≤ len l.
Proof. unfold len. lia. Qed.

Lemma len_replicate {A} (n : nat) (x : A) : len (replicate n x) = Z.of_nat n.
Proof. unfold len. by rewrite length_replicate. Qed.

Lemma len_insert {A} (l : list A) (i : nat) (x : A) : len (<[i := x]> l) = len l.
Proof. unfold len. by rewrite length_insert. Qed.

Lemma znth_lookup (L : list Z) (j : Z) (x : Z) :
  0 ≤ j → L !! Z.to_nat j = Some x → L.[j] = x.
Proof. intros _ H. unfold znth. by apply nth_lookup_Some. Qed.

Lemma lookup_znth (L : list Z) (j : Z) :
  0 ≤ j < len L → L !! Z.to_nat j = Some L.[j].
Proof.
  intros H. unfold znth, len in *.
  destruct (lookup_lt_is_Some_2 L (Z.to_nat j)) as [x Hx]; [lia|].
  rewrite Hx. f_equal. symmetry. by apply nth_lookup_Some.
Qed.

Lemma py_get_ok (L : list Z) (j : Z) :
  0 ≤ j < len L → py_get L j = Ok L.[j].
Proof.
  intros H. unfold py_get.
  destruct (Z.ltb_spec j 0); [lia|].
  destruct (Z.ltb_spec j 0); [lia|].
  by rewrite lookup_znth.
Qed.

Lemma py_set_ok {A} (L : list A) (j : Z) (v : A) :
  0 ≤ j < len L → py_set L j v = Ok (<[Z.to_nat j := v]> L).
Proof.
  intros H. unfold py_set.
  destruct (Z.ltb_spec j 0); [lia|].
  destruct (Z.ltb_spec j 0); [lia|].
  destruct (Z.leb_spec (len L) j); [lia|]. reflexivity.
Qed.

Lemma znth_insert_eq (L : list Z) (j : Z) (v : Z) :
  0 ≤ j < len L → (<[Z.to_nat j := v]> L).[j] = v.
Proof.
  intros H. apply znth_lookup; [lia|].
  apply list_lookup_insert_eq. unfold len in H. lia.
Qed.

Lemma znth_insert_ne (L : list Z) (i j : Z) (v : Z) :
  0 ≤ i → 0 ≤ j → i ≠ j → (<[Z.to_nat i := v]> L).[j] = L.[j].
Proof.
  intros Hi Hj Hne. unfold znth.
  destruct (decide (Z.to_nat j < length L)%nat) as [Hlt|Hge].
  - apply nth_lookup_Some. rewrite list_lookup_insert_ne by lia.
    destruct (lookup_lt_is_Some_2 L (Z.to_nat j) Hlt) as [x Hx].
    rewrite Hx. f_equal. symmetry. by apply nth_lookup_Some.
  - rewrite !nth_overflow; [done|lia|rewrite length_insert; lia].
Qed.

Lemma elem_of_range (a b x : Z) : x ∈ range a b ↔ a ≤ x < b.
Proof. unfold range. rewrite elem_of_seqZ. lia. Qed.

Lemma range_snoc (a b : Z) : a ≤ b → range a (b + 1) = range a b ++ [b].
Proof.
  intros H. unfold range.
  replace (b + 1 - a) with ((b - a) + 1) by lia.
  rewrite seqZ_app by lia. f_equal.
  rewrite seqZ_cons by lia. rewrite seqZ_nil by lia. f_equal. lia.
Qed.

Lemma range_nil (a b : Z) : b ≤ a → range a b = [].
Proof. intros H. unfold range. apply seqZ_nil. lia. Qed.

Lemma range_cons (a b : Z) : a < b → range a b = a :: range (a + 1) b.
Proof.
  intros H. unfold range. rewrite seqZ_cons by lia.
  f_equal. f_equal; lia.
Qed.

(** ** The class invariant *)

Lemma is_perm_nonneg (L : list Z) (j : Z) :
  is_perm L → 0 ≤ j < len L → 0 ≤ L.[j] < len L.
Proof.
  intros [_ H] Hj. apply H. apply list_elem_of_lookup.
  exists (Z.to_nat j). by apply lookup_znth.
Qed.

Lemma is_perm_inj (L : list Z) (i j : Z) :
  is_perm L → 0 ≤ i < len L → 0 ≤ j < len L → L.[i] = L.[j] → i = j.
Proof.
  intros [Hnd _] Hi Hj Heq.
  assert (Z.to_nat i = Z.to_nat j); [|lia].
  eapply NoDup_lookup; [done|by apply lookup_znth|].
  rewrite Heq. by apply lookup_znth.
Qed.

(** ** The bound tables *)

(** What [lower_bound[i]] and [upper_bound[i]] are, when only the positions
    before [k] have been looked at. *)
Definition lower_spec (L : list Z) (i k b : Z) : Prop :=
  (b = -1 ∧ ∀ j, i < j < k → ¬ L.[j] < L.[i])
  ∨ (i < b < k ∧ L.[b] < L.[i]
     ∧ ∀ j, i < j < k → L.[j] < L.[i] → L.[j] ≤ L.[b]).

Definition upper_spec (L : list Z) (i k b : Z) : Prop :=
  (b = -1 ∧ ∀ j, i < j < k → L.[j] < L.[i])
  ∨ (i < b < k ∧ L.[i] ≤ L.[b]
     ∧ ∀ j, i < j < k → L.[i] ≤ L.[j] → L.[b] ≤ L.[j]).

Section bounds.
Variable L : list Z.
Hypothesis L_nonneg : ∀ j, 0 ≤ j < len L → 0 ≤ L.[j].

Section row.
Variable i : Z.
Variables lb0 ub0 : list Z.
Hypothesis Hi : 0 ≤ i < len L.
Hypothesis Hlb0 : len lb0 = len L.
Hypothesis Hub0 : len ub0 = len L.

(** The invariant of the inner loop, before position [k] is read. *)
Definition row_inv (k : Z) (st : bounds_state) : Prop :=
  let '(min_above, max_below, lb, ub) := st in
  len lb = len L ∧ len ub = len L
  ∧ (∀ m, 0 ≤ m → m ≠ i → lb.[m] = lb0.[m] ∧ ub.[m] = ub0.[m])
  ∧ lower_spec L i k lb.[i] ∧ upper_spec L i k ub.[i]
  ∧ max_below = (if lb.[i] =? -1 then -1 else L.[lb.[i]])
  ∧ min_above = (if ub.[i] =? -1 then -1 else L.[ub.[i]]).

Lemma row_inv_step (k : Z) (st : bounds_state) :
  i < k < len L → row_inv k st → row_inv (k + 1) (bounds_step L i st k).
Proof.
  intros Hk. destruct st as [[[ma mb] lb] ub].
  intros (Hl1 & Hl2 & Hfr & Hlo & Hup & Hmb & Hma).
  pose proof (L_nonneg k ltac:(lia)) as Hk0.
  unfold bounds_step.
  destruct (Z.ltb_spec L.[k] L.[i]) as [Hlt|Hge].
  - destruct (Z.gtb_spec L.[k] mb) as [Hgt|Hle].
    + (* a new largest value below *)
      cbn [row_inv]. rewrite len_insert, znth_insert_eq by lia.
      split_and!; try done.
      * intros m Hm Hne. rewrite (znth_insert_ne _ i m) by lia. by apply Hfr.
      * right. split; [lia|]; split; [done|]. intros j Hj Hjlt.
        destruct (decide (j = k)) as [->|Hne]; [lia|].
        destruct Hlo as [[Hb Hno]|(Hb & Hbl & Hmax)].
        -- exfalso. apply (Hno j); [lia|done].
        -- transitivity L.[lb.[i]]; [apply Hmax; [lia|done]|].
           destruct (Z.eqb_spec lb.[i] (-1)); lia.
      * destruct Hup as [[Hb Hno]|(Hb & Hbl & Hmin)].
        -- left. split; [done|]. intros j Hj.
           destruct (decide (j = k)) as [->|Hne]; [done|]. apply Hno. lia.
        -- right. split; [lia|]; split; [done|]. intros j Hj Hjge.
           destruct (decide (j = k)) as [->|Hne]; [lia|]. apply Hmin; [lia|done].
      * destruct (Z.eqb_spec k (-1)); [lia|done].
    + (* not larger than the one held *)
      cbn [row_inv]. split_and!; try done.
      * destruct Hlo as [[Hb Hno]|(Hb & Hbl & Hmax)].
        -- rewrite Hb in Hmb. simpl in Hmb. lia.
        -- right. split; [lia|]; split; [done|]. intros j Hj Hjlt.
           destruct (decide (j = k)) as [->|Hne]; [|apply Hmax; [lia|done]].
           destruct (Z.eqb_spec lb.[i] (-1)); lia.
      * destruct Hup as [[Hb Hno]|(Hb & Hbl & Hmin)].
        -- left. split; [done|]. intros j Hj.
           destruct (decide (j = k)) as [->|Hne]; [done|]. apply Hno. lia.
        -- right. split; [lia|]; split; [done|]. intros j Hj Hjge.
           destruct (decide (j = k)) as [->|Hne]; [lia|]. apply Hmin; [lia|done].
  - destruct ((L.[k] <? ma) || (ma =? -1)) eqn:Htest.
    + (* a new smallest value above *)
      cbn [row_inv]. rewrite len_insert, znth_insert_eq by lia.
      split_and!; try done.
      * intros m Hm Hne. rewrite (znth_insert_ne _ i m) by lia. by apply Hfr.
      * destruct Hlo as [[Hb Hno]|(Hb & Hbl & Hmax)].
        -- left. split; [done|]. intros j Hj.
           destruct (decide (j = k)) as [->|Hne]; [lia|]. apply Hno. lia.
        -- right. split; [lia|]; split; [done|]. intros j Hj Hjlt.
           destruct (decide (j = k)) as [->|Hne]; [lia|]. apply Hmax; [lia|done].
      * right. split; [lia|]; split; [done|]. intros j Hj Hjge.
        destruct (decide (j = k)) as [->|Hne]; [lia|].
        destruct Hup as [[Hb Hno]|(Hb & Hbl & Hmin)].
        -- specialize (Hno j ltac:(lia)). lia.
        -- transitivity L.[ub.[i]]; [|apply Hmin; [lia|done]].
           apply orb_true_iff in Htest as [Ht|Ht].
           ++ apply Z.ltb_lt in Ht.
              destruct (Z.eqb_spec ub.[i] (-1)); lia.
           ++ apply Z.eqb_eq in Ht.
              destruct (Z.eqb_spec ub.[i] (-1)); [lia|].
              pose proof (L_nonneg ub.[i] ltac:(lia)). lia.
      * destruct (Z.eqb_spec k (-1)); [lia|done].
    + (* not smaller than the one held *)
      apply orb_false_iff in Htest as [Ht1 Ht2].
      apply Z.ltb_ge in Ht1. apply Z.eqb_neq in Ht2.
      cbn [row_inv]. split_and!; try done.
      * destruct Hlo as [[Hb Hno]|(Hb & Hbl & Hmax)].
        -- left. split; [done|]. intros j Hj.
           destruct (decide (j = k)) as [->|Hne]; [lia|]. apply Hno. lia.
        -- right. split; [lia|]; split; [done|]. intros j Hj Hjlt.
           destruct (decide (j = k)) as [->|Hne]; [lia|]. apply Hmax; [lia|done].
      * destruct Hup as [[Hb Hno]|(Hb & Hbl & Hmin)].
        -- rewrite Hb in Hma. simpl in Hma. lia.
        -- right. split; [lia|]; split; [done|]. intros j Hj Hjge.
           destruct (decide (j = k)) as [->|Hne]; [|apply Hmin; [lia|done]].
           destruct (Z.eqb_spec ub.[i] (-1)); lia.
Qed.

Lemma row_inv_fold (k : Z) (st : bounds_state) :
  i < k ≤ len L → row_inv (i + 1) st →
  row_inv k (foldl (bounds_step L i) st (range (i + 1) k)).
Proof.
  intros Hk Hst.
  assert (∀ d : nat, i + 1 + Z.of_nat d ≤ len L →
            row_inv (i + 1 + Z.of_nat d)
              (foldl (bounds_step L i) st (range (i + 1) (i + 1 + Z.of_nat d))))
    as Hind.
  { induction d as [|d IH]; intros Hd.
    - rewrite range_nil by lia. simpl. by rewrite Z.add_0_r.
    - replace (i + 1 + Z.of_nat (S d)) with (i + 1 + Z.of_nat d + 1) by lia.
      rewrite range_snoc by lia. rewrite foldl_app. simpl.
      apply row_inv_step; [lia|]. apply IH. lia. }
  specialize (Hind (Z.to_nat (k - (i + 1))) ltac:(lia)).
  by replace (i + 1 + Z.of_nat (Z.to_nat (k - (i + 1)))) with k in Hind by lia.
Qed.
End row.

(** One row of the tables. *)
Lemma bounds_row_spec (i : Z) (lb0 ub0 : list Z) :
  0 ≤ i < len L → len lb0 = len L → len ub0 = len L →
  lb0.[i] = -1 → ub0.[i] = -1 →
  ∃ lb ub, bounds_row L (lb0, ub0) i = (lb, ub)
    ∧ len lb = len L ∧ len ub = len L
    ∧ (∀ m, 0 ≤ m → m ≠ i → lb.[m] = lb0.[m] ∧ ub.[m] = ub0.[m])
    ∧ lower_spec L i (len L) lb.[i] ∧ upper_spec L i (len L) ub.[i].
Proof.
  intros Hi Hl1 Hl2 Hb1 Hb2. unfold bounds_row.
  pose proof (row_inv_fold i lb0 ub0 Hi (len L) (-1, -1, lb0, ub0)) as H.
  destruct (foldl _ _ _) as [[[ma mb] lb] ub].
  exists lb, ub. split; [done|].
  destruct H as (? & ? & ? & ? & ? & _); [lia| |done].
  cbn [row_inv]. rewrite Hb1, Hb2. simpl.
  split_and!; try done.
  - left. split; [done|]. intros j Hj. lia.
  - left. split; [done|]. intros j Hj. lia.
Qed.

(** The invariant of the outer loop, before row [k]. *)
Definition tabs_inv (k : Z) (tabs : list Z * list Z) : Prop :=
  let '(lb, ub) := tabs in
  len lb = len L ∧ len ub = len L
  ∧ (∀ m, 0 ≤ m < k →
       lower_spec L m (len L) lb.[m] ∧ upper_spec L m (len L) ub.[m])
  ∧ (∀ m, k ≤ m < len L → lb.[m] = -1 ∧ ub.[m] = -1).

Lemma tabs_inv_step (k : Z) (tabs : list Z * list Z) :
  0 ≤ k < len L → tabs_inv k tabs → tabs_inv (k + 1) (bounds_row L tabs k).
Proof.
  intros Hk. destruct tabs as [lb0 ub0]. intros (Hl1 & Hl2 & Hdone & Htodo).
  destruct (bounds_row_spec k lb0 ub0) as (lb & ub & -> & ? & ? & Hfr & Hlo & Hup);
    [done..|apply (proj1 (Htodo k ltac:(lia)))|apply (proj2 (Htodo k ltac:(lia)))|].
  cbn [tabs_inv]. split_and!; try done.
  - intros m Hm. destruct (decide (m = k)) as [->|Hne]; [done|].
    destruct (Hfr m) as [-> ->]; [lia|done|]. apply Hdone. lia.
  - intros m Hm. destruct (Hfr m) as [-> ->]; [lia|lia|]. apply Htodo. lia.
Qed.

Lemma set_up_bounds_inv : tabs_inv (len L) (set_up_bounds L).
Proof.
  unfold set_up_bounds.
  assert (∀ d : nat, Z.of_nat d ≤ len L →
            tabs_inv (Z.of_nat d)
              (foldl (bounds_row L)
                 (replicate (length L) (-1), replicate (length L) (-1))
                 (range 0 (Z.of_nat d)))) as Hind.
  { induction d as [|d IH]; intros Hd.
    - rewrite range_nil by lia. simpl.
      rewrite !len_replicate. split_and!; try done; [lia|].
      intros m Hm. unfold znth.
      rewrite !nth_lookup, !lookup_replicate_2 by (unfold len in Hm; lia).
      done.
    - replace (Z.of_nat (S d)) with (Z.of_nat d + 1) by lia.
      rewrite range_snoc by lia. rewrite foldl_app. simpl.
      apply tabs_inv_step; [lia|]. apply IH. lia. }
  specialize (Hind (length L) ltac:(unfold len; lia)). apply Hind.
Qed.
End bounds.

(** ** The class invariant, tested *)

Lemma is_permb_spec (L : list Z) : is_permb L = true → is_perm L.
Proof.
  unfold is_permb, is_perm. rewrite !andb_true_iff, !forallb_forall.
  intros [[Hnd Hsur] Hin]. apply bool_decide_eq_true in Hnd.
  split; [done|]. intros x. split.
  - intros Hx. apply list_elem_of_In, Hin in Hx.
    apply andb_true_iff in Hx as [H1 H2].
    apply Z.leb_le in H1. apply Z.ltb_lt in H2. lia.
  - intros Hx. specialize (Hsur x).
    eapply bool_decide_eq_true, Hsur, list_elem_of_In, elem_of_range. lia.
Qed.

(** C5. For a permutation [self] and a position [i], [lower_bound[i]] is
    [-1] when no later value is smaller than [self[i]], and otherwise the
    later position that holds the largest of the smaller later values;
    [upper_bound[i]] is [-1] when no later value is greater, and otherwise
    the later position that holds the smallest of the greater later
    values. *)
Theorem set_up_bounds_spec (self : list Z) (i : Z) :
  is_perm self → 0 ≤ i < len self →
  let '(lower_bound, upper_bound) := set_up_bounds self in
  let n := len self in
  ((lower_bound.[i] = -1 ∧ ∀ j, i < j < n → ¬ self.[j] < self.[i])
   ∨ (i < lower_bound.[i] < n
      ∧ self.[lower_bound.[i]] < self.[i]
      ∧ ∀ j, i < j < n → self.[j] < self.[i] →
             self.[j] ≤ self.[lower_bound.[i]]))
  ∧ ((upper_bound.[i] = -1 ∧ ∀ j, i < j < n → ¬ self.[i] < self.[j])
     ∨ (i < upper_bound.[i] < n
        ∧ self.[i] < self.[upper_bound.[i]]
        ∧ ∀ j, i < j < n → self.[i] < self.[j] →
               self.[upper_bound.[i]] ≤ self.[j])).
Proof.
  intros Hperm Hi.
  pose proof (set_up_bounds_inv self
                (fun j Hj => proj1 (is_perm_nonneg self j Hperm Hj))) as Hinv.
  destruct (set_up_bounds self) as [lb ub].
  destruct Hinv as (Hl1 & Hl2 & Hdone & _).
  destruct (Hdone i Hi) as [Hlo Hup]. cbn zeta. split; [exact Hlo|].
  destruct Hup as [[Hb Hno]|(Hb & Hbl & Hmin)].
  - left. split; [done|]. intros j Hj. specialize (Hno j Hj). lia.
  - right. split; [done|]. split.
    + destruct (decide (self.[i] = self.[ub.[i]])) as [Heq|]; [|lia].
      apply is_perm_inj in Heq; [lia|done|done|lia].
    + intros j Hj Hlt. apply Hmin; [done|lia].
Qed.

Lemma set_up_bounds_spec_witness :
  let '(lower_bound, upper_bound) := set_up_bounds [2;0;4;3;1] in
  ((lower_bound.[0] = -1 ∧ ∀ j, 0 < j < 5 → ¬ [2;0;4;3;1].[j] < 2)
   ∨ (0 < lower_bound.[0] < 5
      ∧ [2;0;4;3;1].[lower_bound.[0]] < 2
      ∧ ∀ j, 0 < j < 5 → [2;0;4;3;1].[j] < 2 →
             [2;0;4;3;1].[j] ≤ [2;0;4;3;1].[lower_bound.[0]]))
  ∧ ((upper_bound.[0] = -1 ∧ ∀ j, 0 < j < 5 → ¬ 2 < [2;0;4;3;1].[j])
     ∨ (0 < upper_bound.[0] < 5
        ∧ 2 < [2;0;4;3;1].[upper_bound.[0]]
        ∧ ∀ j, 0 < j < 5 → 2 < [2;0;4;3;1].[j] →
               [2;0;4;3;1].[upper_bound.[0]] ≤ [2;0;4;3;1].[j])).
Proof.
  apply (set_up_bounds_spec [2;0;4;3;1] 0).
  - apply is_permb_spec. vm_compute. reflexivity.
  - unfold len. simpl. lia.
Defined.

(** ** Degenerate queries *)

(** C8. A pattern of length at most one is contained in every target at
    least as long, whatever [last_require] is: the test comes before the
    search. *)
Theorem involved_in_degenerate (P Q : list Z) (last_require : Z) :
  len P ≤ 1 → len P ≤ len Q → involved_in P Q last_require = Ok true.
Proof.
  intros H1 H2. unfold involved_in, involved_in_with.
  destruct (set_up_bounds P) as [lb ub].
  destruct (Z.leb_spec (len P) 1); [|lia].
  destruct (Z.leb_spec (len P) (len Q)); [|lia].
  reflexivity.
Qed.

Lemma involved_in_degenerate_witness :
  involved_in [0] [1;0;2] 0 = Ok true ∧ involved_in [] [] 0 = Ok true.
Proof.
  split.
  - apply (involved_in_degenerate [0] [1;0;2] 0); unfold len; simpl; lia.
  - apply (involved_in_degenerate [] [] 0); unfold len; simpl; lia.
Defined.

(** C10. [avoids()] with neither a pattern nor a collection answers [True]
    and raises nothing, for every [self] and every [lr]. *)
Theorem avoids_nothing (P : list Z) (lr : Z) : avoids P None lr None = Ok true.
Proof. reflexivity. Qed.

(** ** The containment search *)

Lemma bind_ok {A B} (m : result A) (f : A → result B) (a : A) :
  m = Ok a → m ≫= f = f a.
Proof. by intros ->. Qed.

Section search.
Variables q lower_bound upper_bound : list Z.
Variable n : Z.
Hypothesis Hlen_lb : len lower_bound = n.
Hypothesis Hlen_ub : len upper_bound = n.
Hypothesis Hlb :
  ∀ k, 0 ≤ k < n → lower_bound.[k] = -1 ∨ k < lower_bound.[k] < n.
Hypothesis Hub :
  ∀ k, 0 ≤ k < n → upper_bound.[k] = -1 ∨ k < upper_bound.[k] < n.

(** What [involvement_fits] computes at position [k] of the assignment
    [s], when nothing is out of range. *)
Definition fitsb (s : list Z) (k : Z) : bool :=
  ((lower_bound.[k] =? -1) || (q.[s.[k]] >? q.[s.[lower_bound.[k]]]))
  && ((upper_bound.[k] =? -1) || (q.[s.[k]] <? q.[s.[upper_bound.[k]]])).

Lemma fits_side_ok cmp bound (s : list Z) (k : Z) :
  len bound = n → (bound.[k] = -1 ∨ k < bound.[k] < n) →
  len s = n → 0 ≤ k < n → (∀ m, k ≤ m < n → 0 ≤ s.[m] < len q) →
  fits_side cmp bound s q k
  = Ok ((bound.[k] =? -1) || cmp q.[s.[k]] q.[s.[bound.[k]]]).
Proof.
  intros Hbl Hb Hs Hk Hval. unfold fits_side.
  rewrite (py_get_ok bound k) by lia. cbn [mbind result_bind].
  destruct (Z.eqb_spec bound.[k] (-1)) as [|Hne]; [done|].
  destruct Hb as [|Hb]; [done|].
  rewrite (py_get_ok s k) by lia. cbn [mbind result_bind].
  rewrite (py_get_ok q s.[k]) by (apply Hval; lia). cbn [mbind result_bind].
  rewrite (py_get_ok s bound.[k]) by lia. cbn [mbind result_bind].
  rewrite (py_get_ok q s.[bound.[k]]) by (apply Hval; lia).
  reflexivity.
Qed.

Lemma involvement_fits_ok (s : list Z) (k : Z) :
  len s = n → 0 ≤ k < n → (∀ m, k ≤ m < n → 0 ≤ s.[m] < len q) →
  involvement_fits upper_bound lower_bound s q k = Ok (fitsb s k).
Proof.
  intros Hs Hk Hval. unfold involvement_fits, fitsb.
  rewrite (fits_side_ok Z.gtb lower_bound) by auto.
  cbn [mbind result_bind].
  destruct (_ || _); [|done].
  by rewrite (fits_side_ok Z.ltb upper_bound) by auto.
Qed.

(** [fitsb] at [k] reads the assignment at [k] and after it only. *)
Lemma fitsb_agree (s s' : list Z) (k : Z) :
  0 ≤ k < n → (∀ m, k ≤ m < n → s.[m] = s'.[m]) → fitsb s k = fitsb s' k.
Proof.
  intros Hk Hag. unfold fitsb. rewrite (Hag k) by lia.
  f_equal.
  - destruct (Hlb k Hk) as [->|?]; [done|].
    by rewrite (Hag lower_bound.[k]) by lia.
  - destruct (Hub k Hk) as [->|?]; [done|].
    by rewrite (Hag upper_bound.[k]) by lia.
Qed.

(** [s] completes [indices] below [next]: it keeps what is assigned after
    [next], and from [next] down every position is a target position
    to the left of the following one that fits. *)
Definition ext (next : Z) (indices s : list Z) : Prop :=
  len s = n
  ∧ (∀ m, next < m < n → s.[m] = indices.[m])
  ∧ (∀ m, 0 ≤ m ≤ next → 0 ≤ s.[m] < s.[m + 1])
  ∧ (∀ m, 0 ≤ m ≤ next → fitsb s m = true).

Definition valid_above (next : Z) (indices : list Z) : Prop :=
  len indices = n ∧ ∀ m, next < m < n → 0 ≤ indices.[m] < len q.

Lemma ext_agree (next : Z) (indices indices' s : list Z) :
  (∀ m, next < m < n → indices'.[m] = indices.[m]) →
  ext next indices s → ext next indices' s.
Proof.
  intros Hag (H1 & H2 & H3 & H4). split_and!; try done.
  intros m Hm. rewrite Hag by done. by apply H2.
Qed.

(** What a call of [involvement_check] at [next] owes its caller. *)
Definition check_spec (next : Z) (indices : list Z)
    (r : result (bool * list Z)) : Prop :=
  ∃ b indices', r = Ok (b, indices')
    ∧ len indices' = n
    ∧ (∀ m, next < m < n → indices'.[m] = indices.[m])
    ∧ (b = true ↔ ∃ s, ext next indices s).

Lemma check_loop_spec (rec : list Z → result (bool * list Z)) (next : Z) :
  0 ≤ next < n - 1 →
  (∀ indices, valid_above (next - 1) indices →
              check_spec (next - 1) indices (rec indices)) →
  ∀ (w : nat) (indices : list Z) (t : Z),
    valid_above next indices → indices.[next] = t →
    -1 ≤ t < indices.[next + 1] → (Z.to_nat (t + 2) ≤ w)%nat →
    ∃ b indices',
      check_loop rec w upper_bound lower_bound indices q next = Ok (b, indices')
      ∧ len indices' = n
      ∧ (∀ m, next < m < n → indices'.[m] = indices.[m])
      ∧ (b = true ↔ ∃ s, ext next indices s ∧ s.[next] ≤ t).
Proof.
  intros Hnext Hrec. induction w as [|w IH]; intros indices t Hval Ht Hrange Hw.
  { lia. }
  destruct Hval as [Hlen Hval].
  assert (indices.[next + 1] < len q) as Hnext1 by (apply Hval; lia).
  cbn [check_loop]. rewrite (py_get_ok indices next) by lia.
  cbn [mbind result_bind]. rewrite Ht.
  destruct (Z.geb_spec t 0) as [Hge|Hlt].
  - (* a candidate position *)
    assert (∀ m, next ≤ m < n → 0 ≤ indices.[m] < len q) as Hval'.
    { intros m Hm. destruct (decide (m = next)) as [->|]; [lia|]. apply Hval. lia. }
    rewrite involvement_fits_ok by (done || lia). cbn [mbind result_bind].
    (* what the two tests of this turn say together *)
    assert (∃ found ind1,
              (if fitsb indices next then rec indices else Ok (false, indices))
              = Ok (found, ind1)
              ∧ len ind1 = n
              ∧ (∀ m, next ≤ m < n → ind1.[m] = indices.[m])
              ∧ (found = true ↔ ∃ s, ext next indices s ∧ s.[next] = t))
      as (found & ind1 & -> & Hl1 & Hag1 & Hfound).
    { destruct (fitsb indices next) eqn:Hfit.
      - destruct (Hrec indices) as (b & ind1 & -> & Hl1 & Hag1 & Hb).
        { split; [done|]. intros m Hm. apply Hval'. lia. }
        exists b, ind1. split_and!; try done.
        + intros m Hm. apply Hag1. lia.
        + rewrite Hb. split.
          * intros (s & Hs1 & Hs2 & Hs3 & Hs4). exists s.
            split; [|rewrite Hs2 by lia; done].
            split_and!; try done.
            -- intros m Hm. apply Hs2. lia.
            -- intros m Hm. destruct (decide (m = next)) as [->|]; [|apply Hs3; lia].
               rewrite !Hs2 by lia. lia.
            -- intros m Hm. destruct (decide (m = next)) as [->|]; [|apply Hs4; lia].
               rewrite <- Hfit. apply fitsb_agree; [lia|].
               intros m Hm'. apply Hs2. lia.
          * intros (s & (Hs1 & Hs2 & Hs3 & Hs4) & Hst). exists s.
            split_and!; try done.
            -- intros m Hm. destruct (decide (m = next)) as [->|]; [lia|].
               apply Hs2. lia.
            -- intros m Hm. apply Hs3. lia.
            -- intros m Hm. apply Hs4. lia.
      - exists false, indices. split_and!; try done.
        split; [done|]. intros (s & (Hs1 & Hs2 & Hs3 & Hs4) & Hst).
        rewrite <- Hfit, <- (Hs4 next) by lia. symmetry.
        apply fitsb_agree; [lia|]. intros m Hm.
        destruct (decide (m = next)) as [->|]; [lia|]. apply Hs2. lia. }
    cbn [mbind result_bind].
    destruct found.
    + (* found: the turn returns [True] *)
      exists true, ind1. split_and!; try done.
      * intros m Hm. apply Hag1. lia.
      * split; [|done]. intros _.
        destruct (proj1 Hfound eq_refl) as (s & Hs & Hst).
        exists s. split; [done|lia].
    + (* not found: one position to the left *)
      rewrite (py_get_ok ind1 next) by lia. cbn [mbind result_bind].
      rewrite (py_set_ok ind1 next) by lia. cbn [mbind result_bind].
      rewrite (Hag1 next), Ht by lia.
      destruct (IH (<[Z.to_nat next := t - 1]> ind1) (t - 1))
        as (b & ind2 & -> & Hl2 & Hag2 & Hb).
      * split; [by rewrite len_insert|]. intros m Hm.
        rewrite znth_insert_ne by lia. rewrite Hag1 by lia. apply Hval. lia.
      * apply znth_insert_eq. lia.
      * rewrite znth_insert_ne by lia. rewrite Hag1 by lia. lia.
      * lia.
      * exists b, ind2. split_and!; try done.
        -- intros m Hm. rewrite Hag2 by done.
           rewrite znth_insert_ne by lia. apply Hag1. lia.
        -- rewrite Hb. split.
           ++ intros (s & Hs & Hst). exists s. split; [|lia].
              eapply ext_agree; [|exact Hs]. intros m Hm.
              rewrite znth_insert_ne by lia. symmetry. apply Hag1. lia.
           ++ intros (s & Hs & Hst). exists s.
              assert (s.[next] ≠ t) as Hne.
              { intros Heq. destruct Hfound as [_ Hf].
                discriminate Hf. by exists s. }
              split; [|lia].
              eapply ext_agree; [|exact Hs]. intros m Hm.
              rewrite znth_insert_ne by lia. apply Hag1. lia.
  - (* the positions are exhausted *)
    exists false, indices. split_and!; try done.
    split; [done|]. intros (s & (Hs1 & Hs2 & Hs3 & Hs4) & Hst).
    specialize (Hs3 next ltac:(lia)). lia.
Qed.

Lemma involvement_check_spec (fuel : nat) :
  ∀ (next : Z) (indices : list Z),
    -1 ≤ next < n - 1 → (Z.to_nat (next + 2) ≤ fuel)%nat →
    valid_above next indices →
    check_spec next indices
      (involvement_check fuel upper_bound lower_bound indices q next).
Proof.
  induction fuel as [|fuel IH]; intros next indices Hnext Hfuel Hval; [lia|].
  cbn [involvement_check]. destruct (Z.ltb_spec next 0) as [Hneg|Hpos].
  - exists true, indices. destruct Hval as [Hlen _]. split_and!; try done.
    split; [|done]. intros _. exists indices. split_and!; try done; lia.
  - destruct Hval as [Hlen Hval].
    pose proof (Hval (next + 1) ltac:(lia)) as Hi1.
    rewrite (py_get_ok indices (next + 1)) by lia. cbn [mbind result_bind].
    rewrite (py_set_ok indices next) by lia. cbn [mbind result_bind].
    set (i1 := indices.[next + 1]) in *.
    destruct (check_loop_spec
                (fun indices =>
                   involvement_check fuel upper_bound lower_bound indices q
                     (next - 1))
                next ltac:(lia)
                ltac:(intros ind Hind; apply IH; [lia|lia|done])
                (S (Z.to_nat i1)) (<[Z.to_nat next := i1 - 1]> indices)
                (i1 - 1))
      as (b & ind' & -> & Hl' & Hag' & Hb).
    + split; [by rewrite len_insert|]. intros m Hm.
      rewrite znth_insert_ne by lia. apply Hval. lia.
    + apply znth_insert_eq. lia.
    + rewrite znth_insert_ne by lia. fold i1. lia.
    + lia.
    + exists b, ind'. split_and!; try done.
      * intros m Hm. rewrite Hag' by done. apply znth_insert_ne; lia.
      * rewrite Hb. split.
        -- intros (s & Hs & _). exists s.
           eapply ext_agree; [|exact Hs]. intros m Hm.
           symmetry. apply znth_insert_ne; lia.
        -- intros (s & Hs). exists s. split.
           ++ eapply ext_agree; [|exact Hs]. intros m Hm.
              apply znth_insert_ne; lia.
           ++ destruct Hs as (Hs1 & Hs2 & Hs3 & Hs4).
              specialize (Hs3 next ltac:(lia)).
              rewrite (Hs2 (next + 1)) in Hs3 by lia. fold i1 in Hs3. lia.
Qed.

(** A complete assignment: a strictly increasing choice of target
    positions that fits at every pattern position. *)
Definition full (s : list Z) : Prop :=
  len s = n
  ∧ (∀ m, 0 ≤ m < n → 0 ≤ s.[m] < len q)
  ∧ (∀ m, 0 ≤ m < n - 1 → s.[m] < s.[m + 1])
  ∧ (∀ m, 0 ≤ m < n → fitsb s m = true).

Lemma fitsb_last (s : list Z) : 0 < n → fitsb s (n - 1) = true.
Proof.
  intros Hn. unfold fitsb.
  destruct (Hlb (n - 1)) as [->|?]; [lia| |lia].
  destruct (Hub (n - 1)) as [->|?]; [lia| |lia]. done.
Qed.

Lemma full_ext (s : list Z) :
  0 < n → full s ↔ (0 ≤ s.[n - 1] < len q ∧ ext (n - 2) s s).
Proof.
  intros Hn. split.
  - intros (H1 & H2 & H3 & H4). split; [apply H2; lia|].
    split_and!; try done.
    + intros m Hm. split; [apply H2; lia|apply H3; lia].
    + intros m Hm. apply H4. lia.
  - intros (Hl & H1 & _ & H3 & H4).
    assert (∀ d : nat, Z.of_nat d < n → 0 ≤ s.[n - 1 - Z.of_nat d] < len q)
      as Hdown.
    { induction d as [|d IHd]; intros Hd.
      - by rewrite Z.sub_0_r.
      - specialize (IHd ltac:(lia)).
        specialize (H3 (n - 1 - Z.of_nat (S d)) ltac:(lia)).
        replace (n - 1 - Z.of_nat (S d) + 1) with (n - 1 - Z.of_nat d) in H3
          by lia.
        lia. }
    split_and!; try done.
    + intros m Hm. specialize (Hdown (Z.to_nat (n - 1 - m)) ltac:(lia)).
      by replace (n - 1 - Z.of_nat (Z.to_nat (n - 1 - m))) with m in Hdown by lia.
    + intros m Hm. apply H3. lia.
    + intros m Hm. destruct (decide (m = n - 1)) as [->|]; [by apply fitsb_last|].
      apply H4. lia.
Qed.

Lemma involved_in_loop_spec (fuel : nat) :
  0 < n → (Z.to_nat n ≤ fuel)%nat →
  ∀ (w : nat) (indices : list Z) (t : Z),
    len indices = n → indices.[n - 1] = t → -1 ≤ t < len q →
    (Z.to_nat (t + 2) ≤ w)%nat →
    ∃ b, involved_in_loop w fuel upper_bound lower_bound indices q n = Ok b
         ∧ (b = true ↔ ∃ s, full s ∧ s.[n - 1] ≤ t).
Proof.
  intros Hn Hfuel. induction w as [|w IH]; intros indices t Hlen Ht Hrange Hw.
  { lia. }
  cbn [involved_in_loop]. rewrite (py_get_ok indices (n - 1)) by lia.
  cbn [mbind result_bind]. rewrite Ht.
  destruct (Z.geb_spec t 0) as [Hge|Hlt].
  - destruct (involvement_check_spec fuel (n - 2) indices)
      as (found & ind1 & -> & Hl1 & Hag1 & Hfound); [lia|lia| |].
    { split; [done|]. intros m Hm. replace m with (n - 1) by lia. lia. }
    cbn [mbind result_bind]. destruct found.
    + exists true. split; [done|]. split; [|done]. intros _.
      destruct (proj1 Hfound eq_refl) as (s & Hs).
      pose proof Hs as (Hs1 & Hs2 & Hs3 & Hs4).
      exists s. rewrite (Hs2 (n - 1)), Ht by lia. split; [|lia].
      apply full_ext; [done|]. rewrite (Hs2 (n - 1)), Ht by lia.
      split; [lia|]. split_and!; try done.
    + rewrite (py_get_ok ind1 (n - 1)) by lia. cbn [mbind result_bind].
      rewrite (py_set_ok ind1 (n - 1)) by lia. cbn [mbind result_bind].
      rewrite (Hag1 (n - 1)), Ht by lia.
      destruct (IH (<[Z.to_nat (n - 1) := t - 1]> ind1) (t - 1))
        as (b & -> & Hb).
      * by rewrite len_insert.
      * apply znth_insert_eq. lia.
      * lia.
      * lia.
      * exists b. split; [done|]. rewrite Hb. split.
        -- intros (s & Hs & Hst). exists s. split; [done|lia].
        -- intros (s & Hs & Hst). exists s. split; [done|].
           assert (s.[n - 1] ≠ t) as Hne; [|lia].
           intros Heq. destruct Hfound as [_ Hf]. discriminate Hf.
           exists s. apply full_ext in Hs as [Hs0 (Hs1 & Hs2 & Hs3 & Hs4)]; [|done].
           split_and!; try done.
           intros m Hm. replace m with (n - 1) by lia. by rewrite Ht.
  - exists false. split; [done|]. split; [done|].
    intros (s & (Hs1 & Hs2 & _) & Hst). specialize (Hs2 (n - 1) ltac:(lia)). lia.
Qed.

(** The search, with sound tables at hand, finds a complete assignment
    exactly when there is one; it raises nothing and its fuel lasts. *)
Lemma involved_in_with_spec (self : list Z) :
  len self = n →
  ∃ b, involved_in_with (lower_bound, upper_bound) self q 0 = Ok b
       ∧ (b = true ↔ ∃ s, full s).
Proof.
  intros Hself. unfold involved_in_with. rewrite Hself.
  pose proof (len_nonneg self) as Hn0. rewrite Hself in Hn0.
  destruct ((n <=? 1) && (n <=? len q)) eqn:Hdeg.
  - apply andb_true_iff in Hdeg as [H1 H2].
    apply Z.leb_le in H1. apply Z.leb_le in H2.
    exists true. split; [done|]. split; [|done]. intros _.
    exists (replicate (Z.to_nat n) 0).
    assert (∀ m, 0 ≤ m < n → (replicate (Z.to_nat n) 0).[m] = 0) as Hz.
    { intros m Hm. unfold znth. rewrite nth_lookup, lookup_replicate_2 by lia. done. }
    split_and!.
    + rewrite len_replicate. lia.
    + intros m Hm. rewrite Hz by done. lia.
    + intros m Hm. lia.
    + intros m Hm. replace m with (n - 1) by lia. apply fitsb_last. lia.
  - assert (0 < n) as Hn.
    { destruct (Z.leb_spec n 1), (Z.leb_spec n (len q)); simpl in Hdeg;
        try discriminate; pose proof (len_nonneg q); lia. }
    cbn [Z.eqb]. rewrite py_set_ok by (rewrite len_replicate; unfold len in *; lia).
    cbn [mbind result_bind].
    destruct (involved_in_loop_spec (S (length self)) Hn
                ltac:(unfold len in *; lia) (S (length q))
                (<[Z.to_nat (n - 1) := len q - 1]> (replicate (length self) 0))
                (len q - 1))
      as (b & -> & Hb).
    + rewrite len_insert, len_replicate. done.
    + apply znth_insert_eq. rewrite len_replicate. unfold len in *. lia.
    + pose proof (len_nonneg q). lia.
    + unfold len. lia.
    + exists b. split; [done|]. rewrite Hb. split.
      * intros (s & Hs & _). by exists s.
      * intros (s & Hs). exists s. split; [done|].
        destruct Hs as (_ & Hs2 & _). specialize (Hs2 (n - 1) ltac:(lia)). lia.
Qed.
End search.

(** ** Containment *)

(** [s] lists, in order, the positions of an occurrence of the pattern [A]
    in the target [B]: as many positions as [A] is long, strictly
    increasing, and the values of [B] there are in the same relative order
    as the entries of [A]. *)
Definition occurrence (A B s : list Z) : Prop :=
  len s = len A
  ∧ (∀ a, 0 ≤ a < len A → 0 ≤ s.[a] < len B)
  ∧ (∀ a b, 0 ≤ a < b → b < len A → s.[a] < s.[b])
  ∧ (∀ a b, 0 ≤ a < len A → 0 ≤ b < len A →
            (A.[a] < A.[b] ↔ B.[s.[a]] < B.[s.[b]])).

(** [B] contains the pattern [A]. *)
Definition contains (A B : list Z) : Prop := ∃ s, occurrence A B s.

Section order.
Variables A B : list Z.
Hypothesis A_perm : is_perm A.
Let lb := (set_up_bounds A).1.
Let ub := (set_up_bounds A).2.
Let n := len A.

Lemma tables_sound :
  len lb = n ∧ len ub = n
  ∧ ∀ m, 0 ≤ m < n → lower_spec A m n lb.[m] ∧ upper_spec A m n ub.[m].
Proof.
  pose proof (set_up_bounds_inv A
                (fun j Hj => proj1 (is_perm_nonneg A j A_perm Hj))) as Hinv.
  subst lb ub n. destruct (set_up_bounds A) as [l u]. simpl.
  destruct Hinv as (? & ? & ? & _). done.
Qed.

Lemma lb_range k : 0 ≤ k < n → lb.[k] = -1 ∨ k < lb.[k] < n.
Proof.
  intros Hk. destruct tables_sound as (_ & _ & H).
  destruct (H k Hk) as [[[? _]|[? _]] _]; auto.
Qed.

Lemma ub_range k : 0 ≤ k < n → ub.[k] = -1 ∨ k < ub.[k] < n.
Proof.
  intros Hk. destruct tables_sound as (_ & _ & H).
  destruct (H k Hk) as [_ [[? _]|[? _]]]; auto.
Qed.

Lemma adjacent_increasing (s : list Z) :
  (∀ m, 0 ≤ m < n - 1 → s.[m] < s.[m + 1]) →
  ∀ a b, 0 ≤ a < b → b < n → s.[a] < s.[b].
Proof.
  intros Hadj a b Hab Hb.
  assert (∀ d : nat, a + 1 + Z.of_nat d < n → s.[a] < s.[a + 1 + Z.of_nat d])
    as Hind.
  { induction d as [|d IH]; intros Hd.
    - rewrite Z.add_0_r. apply Hadj. lia.
    - specialize (IH ltac:(lia)).
      pose proof (Hadj (a + 1 + Z.of_nat d) ltac:(lia)) as Hstep.
      replace (a + 1 + Z.of_nat (S d)) with (a + 1 + Z.of_nat d + 1) by lia.
      lia. }
  specialize (Hind (Z.to_nat (b - a - 1)) ltac:(lia)).
  by replace (a + 1 + Z.of_nat (Z.to_nat (b - a - 1))) with b in Hind by lia.
Qed.

(** The test against the two neighbours in value is enough: from right to
    left, each new position is ordered like the pattern against all the
    positions after it. *)
Lemma full_ordered (s : list Z) :
  full B lb ub n s →
  ∀ (d : nat) (a b : Z), n - 1 - Z.of_nat d ≤ a → 0 ≤ a < b → b < n →
    (A.[a] < A.[b] → B.[s.[a]] < B.[s.[b]])
    ∧ (A.[b] < A.[a] → B.[s.[b]] < B.[s.[a]]).
Proof.
  intros (Hs1 & Hs2 & Hs3 & Hs4).
  destruct tables_sound as (Hl1 & Hl2 & Hspec).
  induction d as [|d IH]; intros a b Hd Hab Hb; [lia|].
  destruct (decide (n - 1 - Z.of_nat d ≤ a)) as [|Ha]; [by apply IH|].
  assert (∀ x y, a < x < n → a < y < n → A.[x] < A.[y] →
                 B.[s.[x]] < B.[s.[y]]) as Hlater.
  { intros x y Hx Hy Hxy. destruct (Z.lt_trichotomy x y) as [?|[->|?]].
    - apply (IH x y); [lia..|done].
    - lia.
    - apply (IH y x); [lia..|done]. }
  destruct (Hspec a ltac:(lia)) as [Hlo Hup].
  pose proof (Hs4 a ltac:(lia)) as Hfit. unfold fitsb in Hfit.
  apply andb_true_iff in Hfit as [Hfl Hfu]. split.
  - intros Hlt. destruct Hup as [[_ Hno]|(Hj & Hjv & Hmin)].
    { specialize (Hno b ltac:(lia)). lia. }
    apply orb_true_iff in Hfu as [Hfu|Hfu]; [apply Z.eqb_eq in Hfu; lia|].
    apply Z.ltb_lt in Hfu.
    destruct (decide (b = ub.[a])) as [->|Hne]; [done|].
    pose proof (Hmin b ltac:(lia) ltac:(lia)) as Hle.
    assert (A.[ub.[a]] ≠ A.[b]) as Hdiff.
    { intros Heq. apply is_perm_inj in Heq; [lia|done|lia|lia]. }
    pose proof (Hlater ub.[a] b ltac:(lia) ltac:(lia) ltac:(lia)). lia.
  - intros Hlt. destruct Hlo as [[_ Hno]|(Hj & Hjv & Hmax)].
    { specialize (Hno b ltac:(lia)). lia. }
    apply orb_true_iff in Hfl as [Hfl|Hfl]; [apply Z.eqb_eq in Hfl; lia|].
    apply Z.gtb_lt in Hfl.
    destruct (decide (b = lb.[a])) as [->|Hne]; [done|].
    pose proof (Hmax b ltac:(lia) ltac:(lia)) as Hle.
    assert (A.[lb.[a]] ≠ A.[b]) as Hdiff.
    { intros Heq. apply is_perm_inj in Heq; [lia|done|lia|lia]. }
    pose proof (Hlater b lb.[a] ltac:(lia) ltac:(lia) ltac:(lia)). lia.
Qed.

Lemma full_occurrence (s : list Z) : full B lb ub n s ↔ occurrence A B s.
Proof.
  destruct tables_sound as (Hl1 & Hl2 & Hspec). split.
  - intros Hfull. pose proof Hfull as (Hs1 & Hs2 & Hs3 & Hs4).
    assert (∀ a b, 0 ≤ a < b → b < n →
              (A.[a] < A.[b] → B.[s.[a]] < B.[s.[b]])
              ∧ (A.[b] < A.[a] → B.[s.[b]] < B.[s.[a]])) as Hord.
    { intros a b Hab Hb.
      apply (full_ordered s Hfull (Z.to_nat n) a b); lia. }
    split_and!; try done.
    + by apply adjacent_increasing.
    + intros a b Ha Hb.
      destruct (Z.lt_trichotomy a b) as [Hlt|[->|Hgt]].
      * destruct (Hord a b ltac:(lia) ltac:(lia)) as [H1 H2].
        split; [done|]. intros Hq.
        destruct (Z.lt_trichotomy A.[a] A.[b]) as [?|[Heq|Hba]]; [done| |].
        -- apply is_perm_inj in Heq; [lia|done|done|done].
        -- specialize (H2 Hba). lia.
      * lia.
      * destruct (Hord b a ltac:(lia) ltac:(lia)) as [H1 H2].
        split; [done|]. intros Hq.
        destruct (Z.lt_trichotomy A.[a] A.[b]) as [?|[Heq|Hba]]; [done| |].
        -- apply is_perm_inj in Heq; [lia|done|done|done].
        -- specialize (H1 Hba). lia.
  - intros (Hs1 & Hs2 & Hs3 & Hs4). split_and!; try done.
    + intros m Hm. apply Hs3; lia.
    + intros m Hm. destruct (Hspec m Hm) as [Hlo Hup]. unfold fitsb.
      apply andb_true_iff. split; apply orb_true_iff.
      * destruct Hlo as [[-> _]|(Hj & Hjv & _)]; [by left|right].
        apply Z.gtb_lt. apply Hs4; [lia..|done].
      * destruct Hup as [[-> _]|(Hj & Hjv & _)]; [by left|right].
        apply Z.ltb_lt. apply Hs4; [lia..|].
        destruct (decide (A.[m] = A.[ub.[m]])) as [Heq|]; [|lia].
        apply is_perm_inj in Heq; [lia|done|done|lia].
Qed.

(** The search decides containment, for every target. *)
Lemma involved_in_contains :
  ∃ b, involved_in A B 0 = Ok b ∧ (b = true ↔ contains A B).
Proof.
  destruct tables_sound as (Hl1 & Hl2 & _).
  destruct (involved_in_with_spec B lb ub n Hl1 Hl2 lb_range ub_range A eq_refl)
    as (b & Hb & Hiff).
  exists b. split.
  - unfold involved_in. subst lb ub.
    by destruct (set_up_bounds A).
  - rewrite Hiff. unfold contains. by setoid_rewrite full_occurrence.
Qed.
End order.

(** C1. For permutations [A] and [B] with [len(A) <= len(B)], the three
    containment queries return, without raising, and agree: [A.involved_in(B)]
    and [B.involves(A)] answer [True] exactly when [B] has an occurrence
    of [A] (a strictly increasing sequence of [len(A)] positions whose
    values are order-isomorphic to [A]), and [B.avoids(A)] answers the
    negation. *)
Theorem containment_correct (A B : list Z) :
  is_perm A → is_perm B → len A ≤ len B →
  ∃ b : bool,
    involved_in A B 0 = Ok b
    ∧ involves B A 0 = Ok b
    ∧ avoids B (Some A) 0 None = Ok (negb b)
    ∧ (b = true ↔ contains A B).
Proof.
  intros HA _ _. destruct (involved_in_contains A B HA) as (b & Hb & Hiff).
  exists b. unfold involves, avoids. rewrite Hb. done.
Qed.

Lemma containment_correct_witness :
  ∃ b : bool,
    involved_in [1;0;2] [4;3;1;0;2] 0 = Ok b
    ∧ involves [4;3;1;0;2] [1;0;2] 0 = Ok b
    ∧ avoids [4;3;1;0;2] (Some [1;0;2]) 0 None = Ok (negb b)
    ∧ (b = true ↔ contains [1;0;2] [4;3;1;0;2]).
Proof.
  apply (containment_correct [1;0;2] [4;3;1;0;2]).
  - apply is_permb_spec. vm_compute. reflexivity.
  - apply is_permb_spec. vm_compute. reflexivity.
  - unfold len. simpl. lia.
Defined.

(** ** Deletion *)

Lemma filter_ne_absent (l : list Z) (v : Z) :
  v ∉ l → filter (fun x => x ≠ v) l = l.
Proof.
  induction l as [|x l IH]; intros Hv; [done|].
  apply not_elem_of_cons in Hv as [Hne Hv].
  rewrite filter_cons_True by done. f_equal. by apply IH.
Qed.

Lemma filter_ne_NoDup (l : list Z) (i : nat) (v : Z) :
  NoDup l → l !! i = Some v →
  filter (fun x => x ≠ v) l = take i l ++ drop (S i) l.
Proof.
  revert i. induction l as [|x l IH]; intros i Hnd Hi; [done|].
  apply NoDup_cons in Hnd as [Hx Hnd]. destruct i as [|i]; simpl in *.
  - injection Hi as ->. rewrite filter_cons_False by (intros ?; done).
    rewrite drop_0. by apply filter_ne_absent.
  - assert (x ≠ v) as Hne.
    { intros ->. apply Hx. by eapply list_elem_of_lookup_2. }
    rewrite filter_cons_True by done. f_equal. by apply IH.
Qed.

Section deletion.
Variable P : list Z.
Variable i : Z.
Hypothesis P_perm : is_perm P.
Hypothesis Hi : 0 ≤ i < len P.

(** Where position [k] of the shortened permutation comes from. *)
Definition undelete (k : Z) : Z := if k <? i then k else k + 1.

Lemma delete_value_len : len (delete_value P P.[i]) = len P - 1.
Proof.
  unfold delete_value. change map with (@fmap list _). rewrite len_map.
  rewrite (filter_ne_NoDup P (Z.to_nat i)); [|apply P_perm|by apply lookup_znth].
  unfold len in *. rewrite length_app, length_take, length_drop. lia.
Qed.

Lemma delete_value_znth (k : Z) :
  0 ≤ k < len P - 1 →
  (delete_value P P.[i]).[k]
  = (if P.[undelete k] <? P.[i] then P.[undelete k] else P.[undelete k] - 1).
Proof.
  intros Hk. apply znth_lookup; [lia|]. unfold delete_value.
  change map with (@fmap list _). rewrite list_lookup_fmap.
  rewrite (filter_ne_NoDup P (Z.to_nat i)); [|apply P_perm|by apply lookup_znth].
  unfold undelete, len in *. destruct (Z.ltb_spec k i).
  - rewrite lookup_app_l by (rewrite length_take; lia).
    rewrite lookup_take_lt by lia. rewrite lookup_znth by (unfold len; lia). done.
  - rewrite lookup_app_r by (rewrite length_take; lia).
    rewrite length_take, lookup_drop.
    replace (S (Z.to_nat i) + (Z.to_nat k - Z.to_nat i `min` length P))%nat
      with (Z.to_nat (k + 1)) by lia.
    rewrite lookup_znth by (unfold len; lia). done.
Qed.

(** An occurrence in the shortened permutation is one in the original. *)
Lemma contains_delete_value (Q : list Z) :
  contains Q (delete_value P P.[i]) → contains Q P.
Proof.
  intros (s & Hs1 & Hs2 & Hs3 & Hs4).
  rewrite delete_value_len in Hs2.
  exists (undelete <$> s).
  assert (∀ a, 0 ≤ a < len Q → (undelete <$> s).[a] = undelete s.[a]) as Hnth.
  { intros a Ha. apply znth_lookup; [lia|]. rewrite list_lookup_fmap.
    rewrite lookup_znth by lia. done. }
  assert (∀ x y, 0 ≤ x < len P - 1 → 0 ≤ y < len P - 1 →
            ((delete_value P P.[i]).[x] < (delete_value P P.[i]).[y]
             ↔ P.[undelete x] < P.[undelete y])) as Hval.
  { intros x y Hx Hy. rewrite !delete_value_znth by done.
    assert (∀ z, 0 ≤ z < len P - 1 → P.[undelete z] ≠ P.[i]) as Hne.
    { intros z Hz Heq. apply is_perm_inj in Heq; [|done| |done].
      - unfold undelete in Heq. destruct (Z.ltb_spec z i); lia.
      - unfold undelete. destruct (Z.ltb_spec z i); lia. }
    pose proof (Hne x Hx). pose proof (Hne y Hy).
    destruct (Z.ltb_spec P.[undelete x] P.[i]),
             (Z.ltb_spec P.[undelete y] P.[i]); lia. }
  split_and!.
  - by rewrite len_map.
  - intros a Ha. rewrite Hnth by done. specialize (Hs2 a Ha).
    unfold undelete. destruct (Z.ltb_spec s.[a] i); lia.
  - intros a b Hab Hb. rewrite !Hnth by lia.
    specialize (Hs3 a b Hab Hb). unfold undelete.
    destruct (Z.ltb_spec s.[a] i), (Z.ltb_spec s.[b] i); lia.
  - intros a b Ha Hb. rewrite !Hnth by done.
    rewrite (Hs4 a b Ha Hb). apply Hval; by apply Hs2.
Qed.
End deletion.

(** C6. If a permutation [P] avoids the pattern [Q], then for every
    position [i] of [P] the call [P.delete(indices=i)] returns a
    permutation that avoids [Q] too. *)
Theorem avoids_delete (P Q : list Z) (i : Z) :
  is_perm P → is_perm Q → 0 ≤ i < len P →
  avoids P (Some Q) 0 None = Ok true →
  ∃ P', delete P (Some (AnInt i)) None = Ok P'
        ∧ avoids P' (Some Q) 0 None = Ok true.
Proof.
  intros HP HQ Hi Hav. exists (delete_value P P.[i]). split.
  - unfold delete. by rewrite py_get_ok.
  - unfold avoids in *.
    destruct (involved_in_contains Q P HQ) as (b & Hb & Hiff).
    destruct (involved_in_contains Q (delete_value P P.[i]) HQ)
      as (b' & Hb' & Hiff').
    rewrite Hb in Hav. rewrite Hb'. cbn [mbind result_bind] in *.
    destruct b; [discriminate|]. destruct b'; [|done].
    exfalso. destruct Hiff as [_ Hiff]. discriminate Hiff.
    apply (contains_delete_value P i HP Hi). by apply Hiff'.
Qed.

Lemma avoids_delete_witness :
  ∃ P', delete [2;0;3;1] (Some (AnInt 1)) None = Ok P'
        ∧ avoids P' (Some [0;1;2]) 0 None = Ok true.
Proof.
  apply (avoids_delete [2;0;3;1] [0;1;2] 1).
  - apply is_permb_spec. vm_compute. reflexivity.
  - apply is_permb_spec. vm_compute. reflexivity.
  - unfold len. simpl. lia.
  - vm_compute. reflexivity.
Defined.

(** ** Instances: what a containment query writes *)

Section store.
Local Abbreviation search := involved_in (only parsing).
Import Store.
Opaque involved_in_with.
Implicit Types (h : store) (o : instance) (a self P : addr).

Lemma construct_Some h P o :
  h !! P = Some o → construct h P = Some (<[P := init o]> h).
Proof. intros H. unfold construct. by rewrite H. Qed.

Lemma construct_entries h h' P a :
  construct h P = Some h' → entries <$> h' !! a = entries <$> h !! a.
Proof.
  unfold construct. destruct (h !! P) as [o|] eqn:Ho; [|done].
  intros [= <-]. destruct (decide (a = P)) as [->|Hne].
  - by rewrite lookup_insert_eq, Ho.
  - by rewrite lookup_insert_ne.
Qed.

Lemma construct_cache h h' P a :
  construct h P = Some h' → cache <$> h' !! a = cache <$> h !! a.
Proof.
  unfold construct. destruct (h !! P) as [o|] eqn:Ho; [|done].
  intros [= <-]. destruct (decide (a = P)) as [->|Hne].
  - by rewrite lookup_insert_eq, Ho.
  - by rewrite lookup_insert_ne.
Qed.

Lemma ensure_bounds_entries h h' self a :
  ensure_bounds h self = Some h' → entries <$> h' !! a = entries <$> h !! a.
Proof.
  unfold ensure_bounds. destruct (h !! self) as [o|] eqn:Ho; [|done]. simpl.
  destruct (bounds_set o); simpl; [by intros [= <-]|].
  destruct (set_up_bounds (entries o)) as [lb ub]. intros [= <-].
  destruct (decide (a = self)) as [->|Hne].
  - by rewrite lookup_insert_eq, Ho.
  - by rewrite lookup_insert_ne.
Qed.

Lemma ensure_bounds_cache_other h h' self a :
  ensure_bounds h self = Some h' → a ≠ self →
  cache <$> h' !! a = cache <$> h !! a.
Proof.
  unfold ensure_bounds. destruct (h !! self) as [o|] eqn:Ho; [|done]. simpl.
  destruct (bounds_set o); simpl; [by intros [= <-]|].
  destruct (set_up_bounds (entries o)) as [lb ub]. intros [= <-] Hne.
  by rewrite lookup_insert_ne.
Qed.

Lemma ensure_bounds_cache_self h h' self o :
  ensure_bounds h self = Some h' → h !! self = Some o →
  cache <$> h' !! self
  = Some (if bounds_set o then cache o
          else let '(lb, ub) := set_up_bounds (entries o) in
               (Some lb, Some ub, Some true)).
Proof.
  unfold ensure_bounds. intros H Ho. rewrite Ho in H. simpl in H.
  destruct (bounds_set o); simpl in H.
  - injection H as <-. by rewrite Ho.
  - destruct (set_up_bounds (entries o)) as [lb ub]. injection H as <-.
    by rewrite lookup_insert_eq.
Qed.

Lemma ensure_bounds_Some h self o :
  h !! self = Some o → is_Some (ensure_bounds h self).
Proof.
  intros Ho. unfold ensure_bounds. rewrite Ho. simpl.
  destruct (bounds_set o); simpl; [done|].
  by destruct (set_up_bounds (entries o)).
Qed.

(** [involved_in] is [construct] on the target, [ensure_bounds] on
    [self], and a search that touches no object. *)
Lemma involved_in_steps h self P lr r h' :
  involved_in h self P lr = Some (r, h') →
  ∃ h1, construct h P = Some h1 ∧ ensure_bounds h1 self = Some h'.
Proof.
  unfold involved_in. destruct (construct h P) as [h1|]; [|done]. simpl.
  destruct (ensure_bounds h1 self) as [h2|] eqn:H2; [|done]. simpl.
  destruct (h2 !! self); [|done]. simpl. destruct (h2 !! P); [|done]. simpl.
  intros [= _ <-]. by exists h1.
Qed.

Lemma involved_in_Some h self P lr :
  is_Some (h !! self) → is_Some (h !! P) →
  is_Some (involved_in h self P lr).
Proof.
  intros [os Hs] [oP HP]. unfold involved_in.
  rewrite (construct_Some h P oP HP). simpl.
  assert (is_Some (<[P := init oP]> h !! self)) as [os1 Hs1].
  { destruct (decide (self = P)) as [->|Hne].
    - rewrite lookup_insert_eq. done.
    - rewrite lookup_insert_ne by done. done. }
  destruct (ensure_bounds_Some _ self os1 Hs1) as [h2 Hh2]. rewrite Hh2. simpl.
  pose proof (ensure_bounds_entries _ _ self self Hh2) as He1.
  pose proof (ensure_bounds_entries _ _ self P Hh2) as He2.
  rewrite Hs1 in He1. rewrite lookup_insert_eq in He2.
  destruct (h2 !! self); [|done]. destruct (h2 !! P); [|done]. done.
Qed.


Lemma involved_in_cache_other h self P lr r h' a :
  involved_in h self P lr = Some (r, h') → a ≠ self →
  cache <$> h' !! a = cache <$> h !! a.
Proof.
  intros H Hne. apply involved_in_steps in H as (h1 & H1 & H2).
  rewrite (ensure_bounds_cache_other _ _ _ _ H2 Hne).
  by eapply construct_cache.
Qed.

Lemma involved_in_cache_self h self P lr r h' o :
  involved_in h self P lr = Some (r, h') → h !! self = Some o →
  cache <$> h' !! self
  = Some (if bounds_set o then cache o
          else let '(lb, ub) := set_up_bounds (entries o) in
               (Some lb, Some ub, Some true)).
Proof.
  intros H Ho. apply involved_in_steps in H as (h1 & H1 & H2).
  pose proof (construct_entries _ _ _ self H1) as He.
  pose proof (construct_cache _ _ _ self H1) as Hc.
  rewrite Ho in He, Hc. destruct (h1 !! self) as [o1|] eqn:Ho1; [|done].
  rewrite (ensure_bounds_cache_self _ _ _ _ H2 Ho1). f_equal.
  destruct o, o1. unfold bounds_set, cache in *. simpl in *.
  injection He as ->. injection Hc as -> -> ->. done.
Qed.






(** *** The insertion values *)





(** *** What the other instances read *)


(** *** [involves] and [avoids]: the query is run on the argument *)

Lemma avoids_involves h self p lr :
  avoids h self p lr
  = '(r, h') ← involves h self p lr; Some (b ← r; Ok (negb b), h').
Proof.
  unfold avoids, involves. destruct (construct h p) as [h1|]; [|done].
  done.
Qed.

Lemma involves_steps h self p lr r h' :
  involves h self p lr = Some (r, h') →
  ∃ h1, construct h p = Some h1 ∧ involved_in h1 p self lr = Some (r, h').
Proof.
  unfold involves. destruct (construct h p) as [h1|]; [|done].
  cbn [mbind option_bind]. intros H. by exists h1.
Qed.

Lemma involves_Some h self p lr :
  is_Some (h !! self) → is_Some (h !! p) → is_Some (involves h self p lr).
Proof.
  intros [os Hs] [op Hp]. unfold involves.
  rewrite (construct_Some h p op Hp). cbn [mbind option_bind].
  apply involved_in_Some.
  - by rewrite lookup_insert_eq.
  - destruct (decide (self = p)) as [->|Hne].
    + by rewrite lookup_insert_eq.
    + by rewrite lookup_insert_ne.
Qed.

Lemma involves_cache_other h self p lr r h' a :
  involves h self p lr = Some (r, h') → a ≠ p →
  cache <$> h' !! a = cache <$> h !! a.
Proof.
  intros H Hne. apply involves_steps in H as (h1 & H1 & H2).
  rewrite (involved_in_cache_other _ _ _ _ _ _ a H2 Hne).
  by eapply construct_cache.
Qed.

Lemma involves_cache_pattern h self p lr r h' o :
  involves h self p lr = Some (r, h') → h !! p = Some o →
  cache <$> h' !! p
  = Some (if bounds_set o then cache o
          else let '(lb, ub) := set_up_bounds (entries o) in
               (Some lb, Some ub, Some true)).
Proof.
  intros H Ho. apply involves_steps in H as (h1 & H1 & H2).
  rewrite (construct_Some h p o Ho) in H1. injection H1 as <-.
  by rewrite (involved_in_cache_self _ _ _ _ _ _ (init o) H2)
    by apply lookup_insert_eq.
Qed.



Transparent involved_in_with.
End store.


(** Two instances as [right_extensions] leaves them: the pattern [1 2]
    with the insertion values of a fresh instance, and the target [2 1],
    extended from [1] under the basis [1 2], whose insertion values were
    narrowed to [[1; 0]]. *)
Definition two_instances : gmap nat Store.instance :=
  <[0%nat := Store.Instance [0; 1] None None None (Some [0; 1; 2])]>
    (<[1%nat := Store.Instance [1; 0] None None None (Some [1; 0])]> ∅).



(** The receiver of [avoids] is not the instance whose cache is written:
    [avoids] on the target [2 1] with the pattern [1 2] leaves the
    tables of the pattern on the pattern, whose cache was empty, and no
    cache on the receiver. *)
Lemma avoids_writes_pattern_cache :
  ∃ r h', Store.avoids two_instances 1 0 0 = Some (r, h')
          ∧ Store.cache <$> two_instances !! 0%nat = Some (None, None, None)
          ∧ Store.cache <$> h' !! 0%nat
            = Some (Some [-1; -1], Some [1; -1], Some true)
          ∧ Store.cache <$> h' !! 1%nat = Some (None, None, None).
Proof.
  destruct (involves_Some two_instances 1 0 0) as [[r h'] H]; [done..|].
  exists (b ← r; Ok (negb b)), h'. split_and!.
  - by rewrite avoids_involves, H.
  - done.
  - by rewrite (involves_cache_pattern _ _ _ _ _ _
                  (Store.Instance [0; 1] None None None (Some [0; 1; 2])) H).
  - by rewrite (involves_cache_other _ _ _ _ _ _ 1%nat H).
Qed.

(** ** Maxima, minima and slices *)

Lemma foldl_max_spec (l : list Z) (h : Z) :
  (foldl Z.max h l = h ∨ foldl Z.max h l ∈ l)
  ∧ h ≤ foldl Z.max h l ∧ ∀ x, x ∈ l → x ≤ foldl Z.max h l.
Proof.
  revert h. induction l as [|y l IH]; intros h; simpl.
  - split; [by left|]. split; [lia|]. intros x Hx. by apply elem_of_nil in Hx.
  - destruct (IH (Z.max h y)) as (Hin & Hle & Hall). split_and!.
    + destruct Hin as [Heq|Hin]; [|right; by right].
      destruct (Z.max_spec h y) as [[? Hm]|[? Hm]]; rewrite Hm in *.
      * right. rewrite Heq. by left.
      * by left.
    + lia.
    + intros x Hx. apply elem_of_cons in Hx as [->|Hx]; [lia|by apply Hall].
Qed.

Lemma foldl_min_spec (l : list Z) (h : Z) :
  (foldl Z.min h l = h ∨ foldl Z.min h l ∈ l)
  ∧ foldl Z.min h l ≤ h ∧ ∀ x, x ∈ l → foldl Z.min h l ≤ x.
Proof.
  revert h. induction l as [|y l IH]; intros h; simpl.
  - split; [by left|]. split; [lia|]. intros x Hx. by apply elem_of_nil in Hx.
  - destruct (IH (Z.min h y)) as (Hin & Hle & Hall). split_and!.
    + destruct Hin as [Heq|Hin]; [|right; by right].
      destruct (Z.min_spec h y) as [[? Hm]|[? Hm]]; rewrite Hm in *.
      * by left.
      * right. rewrite Heq. by left.
    + lia.
    + intros x Hx. apply elem_of_cons in Hx as [->|Hx]; [lia|by apply Hall].
Qed.

Lemma seq_max_spec (l : list Z) :
  l ≠ [] → seq_max l ∈ l ∧ ∀ x, x ∈ l → x ≤ seq_max l.
Proof.
  destruct l as [|h l]; [done|]. intros _. simpl.
  destruct (foldl_max_spec l h) as (Hin & Hle & Hall). split.
  - destruct Hin as [->|Hin]; [by left|by right].
  - intros x Hx. apply elem_of_cons in Hx as [->|Hx]; [done|by apply Hall].
Qed.

Lemma seq_min_spec (l : list Z) :
  l ≠ [] → seq_min l ∈ l ∧ ∀ x, x ∈ l → seq_min l ≤ x.
Proof.
  destruct l as [|h l]; [done|]. intros _. simpl.
  destruct (foldl_min_spec l h) as (Hin & Hle & Hall). split.
  - destruct Hin as [->|Hin]; [by left|by right].
  - intros x Hx. apply elem_of_cons in Hx as [->|Hx]; [done|by apply Hall].
Qed.

Lemma seq_max_snoc (l : list Z) (x : Z) :
  l ≠ [] → seq_max (l ++ [x]) = Z.max (seq_max l) x.
Proof. destruct l as [|h l]; [done|]. intros _. simpl. by rewrite foldl_app. Qed.

Lemma seq_min_snoc (l : list Z) (x : Z) :
  l ≠ [] → seq_min (l ++ [x]) = Z.min (seq_min l) x.
Proof. destruct l as [|h l]; [done|]. intros _. simpl. by rewrite foldl_app. Qed.

Lemma slice_length {A} (L : list A) (a b : Z) :
  0 ≤ a ≤ b → b ≤ len L → length (slice L a b) = Z.to_nat (b - a).
Proof.
  intros Hab Hb. unfold slice, len in *. rewrite length_take, length_drop. lia.
Qed.

Lemma slice_lookup (L : list Z) (a b k : Z) :
  0 ≤ a → 0 ≤ k < b - a → b ≤ len L → (slice L a b).[k] = L.[a + k].
Proof.
  intros Ha Hk Hb. apply znth_lookup; [lia|]. unfold slice.
  rewrite lookup_take_lt by lia. rewrite lookup_drop.
  replace (Z.to_nat a + Z.to_nat k)%nat with (Z.to_nat (a + k)) by lia.
  apply lookup_znth. lia.
Qed.

Lemma elem_of_znth (L : list Z) (x : Z) :
  x ∈ L ↔ ∃ k, 0 ≤ k < len L ∧ L.[k] = x.
Proof.
  rewrite list_elem_of_lookup. split.
  - intros [i Hi]. exists (Z.of_nat i). pose proof (lookup_lt_Some _ _ _ Hi).
    split; [unfold len; lia|]. apply znth_lookup; [lia|]. by rewrite Nat2Z.id.
  - intros (k & Hk & <-). exists (Z.to_nat k). by apply lookup_znth.
Qed.

Lemma elem_of_slice (L : list Z) (a b x : Z) :
  0 ≤ a ≤ b → b ≤ len L →
  x ∈ slice L a b ↔ ∃ k, a ≤ k < b ∧ L.[k] = x.
Proof.
  intros Hab Hb. rewrite elem_of_znth. unfold len.
  rewrite slice_length by done. split.
  - intros (k & Hk & <-). exists (a + k). split; [lia|].
    symmetry. apply slice_lookup; lia.
  - intros (k & Hk & <-). exists (k - a). split; [lia|].
    rewrite slice_lookup by lia. f_equal. lia.
Qed.

Lemma slice_snoc (L : list Z) (a b : Z) :
  0 ≤ a ≤ b → b < len L → slice L a (b + 1) = slice L a b ++ [L.[b]].
Proof.
  intros Hab Hb. unfold slice.
  replace (Z.to_nat (b + 1 - a)) with (S (Z.to_nat (b - a))) by lia.
  erewrite take_S_r; [done|]. rewrite lookup_drop.
  replace (Z.to_nat a + Z.to_nat (b - a))%nat with (Z.to_nat b) by lia.
  apply lookup_znth. lia.
Qed.

Lemma slice_nonempty {A} (L : list A) (a b : Z) :
  0 ≤ a < b → b ≤ len L → slice L a b ≠ [].
Proof.
  intros Hab Hb Hnil. apply (f_equal length) in Hnil.
  rewrite slice_length in Hnil by lia. simpl in Hnil. lia.
Qed.

(** ** Loops that return from inside *)

Lemma find_first_None {A B} (f : A → option B) (l : list A) :
  find_first f l = None ↔ ∀ x, x ∈ l → f x = None.
Proof.
  induction l as [|y l IH]; simpl.
  - split; [|done]. intros _ x Hx. by apply elem_of_nil in Hx.
  - destruct (f y) eqn:Hy.
    + split; [done|]. intros H. rewrite <- Hy. apply H. by left.
    + rewrite IH. split.
      * intros H x Hx. apply elem_of_cons in Hx as [->|Hx]; [done|by apply H].
      * intros H x Hx. apply H. by right.
Qed.

Lemma find_first_Some {A B} (f : A → option B) (l : list A) (r : B) :
  find_first f l = Some r →
  ∃ l1 x l2, l = l1 ++ x :: l2 ∧ f x = Some r ∧ ∀ y, y ∈ l1 → f y = None.
Proof.
  induction l as [|y l IH]; simpl; [done|].
  destruct (f y) eqn:Hy.
  - intros [= ->]. exists [], y, l. split_and!; [done|done|].
    intros z Hz. by apply elem_of_nil in Hz.
  - intros H. destruct (IH H) as (l1 & x & l2 & -> & Hx & Hl1).
    exists (y :: l1), x, l2. split_and!; [done|done|].
    intros z Hz. apply elem_of_cons in Hz as [->|Hz]; [done|by apply Hl1].
Qed.

Lemma range_lookup (a b : Z) (k : nat) (y : Z) :
  range a b !! k = Some y ↔ y = a + Z.of_nat k ∧ a + Z.of_nat k < b.
Proof.
  unfold range. rewrite lookup_seqZ. lia.
Qed.

(** Where a [range] is cut, what comes after is what is larger. *)
Lemma range_split_after (a b x : Z) (u v : list Z) :
  range a b = u ++ x :: v → ∀ y, y ∈ v ↔ x < y < b.
Proof.
  intros Hsplit.
  assert (x = a + Z.of_nat (length u) ∧ a + Z.of_nat (length u) < b) as [Hx Hxb].
  { apply range_lookup. rewrite Hsplit. by apply list_lookup_middle. }
  intros y. split.
  - intros Hy. apply list_elem_of_lookup in Hy as [k Hk].
    assert (range a b !! (length u + S k)%nat = Some y) as Hr.
    { rewrite Hsplit, lookup_app_r by lia.
      replace (length u + S k - length u)%nat with (S k) by lia. done. }
    apply range_lookup in Hr. lia.
  - intros Hy.
    assert (range a b !! Z.to_nat (y - a) = Some y) as Hr.
    { apply range_lookup. lia. }
    rewrite Hsplit, lookup_app_r in Hr by lia.
    destruct (Z.to_nat (y - a) - length u)%nat as [|k] eqn:Hk; [lia|].
    simpl in Hr. by eapply list_elem_of_lookup_2.
Qed.

(** ** The three tests of simplicity *)

(** No window of [2 .. len(P)-1] positions passes the interval test. *)
Definition no_interval (P : list Z) : Prop :=
  ∀ i j, 2 ≤ i < len P → 0 ≤ j ≤ len P - i → interval_test P i j = false.

Lemma is_simple_spec (P : list Z) : is_simple P = true ↔ no_interval P.
Proof.
  unfold is_simple, no_interval. rewrite forallb_forall. split.
  - intros H i j Hi Hj.
    specialize (H i ltac:(apply list_elem_of_In, elem_of_range; lia)).
    rewrite forallb_forall in H.
    specialize (H j ltac:(apply list_elem_of_In, elem_of_range; lia)).
    by apply negb_true_iff in H.
  - intros H i Hi. apply list_elem_of_In, elem_of_range in Hi.
    apply forallb_forall. intros j Hj.
    apply list_elem_of_In, elem_of_range in Hj.
    apply negb_true_iff, H; lia.
Qed.

Lemma maximal_interval_found (P : list Z) (i j : Z) :
  find_first
    (fun i =>
       find_first
         (fun j => if interval_test P i j then Some (i, j) else None)
         (range 0 (len P - i + 1)))
    (reverse (range 2 (len P))) = Some (i, j) →
  2 ≤ i < len P ∧ 0 ≤ j ≤ len P - i ∧ interval_test P i j = true
  ∧ ∀ i' j', i < i' < len P → 0 ≤ j' ≤ len P - i' →
             interval_test P i' j' = false.
Proof.
  intros H. apply find_first_Some in H as (l1 & x & l2 & Hsplit & Hx & Hl1).
  apply find_first_Some in Hx as (m1 & y & m2 & Hsplit' & Hy & _).
  destruct (interval_test P x y) eqn:Htest; [|done]. injection Hy as -> ->.
  assert (i ∈ range 2 (len P)) as Hi.
  { apply elem_of_reverse. rewrite Hsplit. apply elem_of_app. right. by left. }
  assert (j ∈ range 0 (len P - i + 1)) as Hj.
  { rewrite Hsplit'. apply elem_of_app. right. by left. }
  apply elem_of_range in Hi, Hj. split_and!; try lia; try done.
  intros i' j' Hi' Hj'.
  assert (i' ∈ l1) as Hin.
  { apply (f_equal reverse) in Hsplit.
    rewrite reverse_involutive, reverse_app, reverse_cons, <- app_assoc in Hsplit.
    simpl in Hsplit. apply elem_of_reverse.
    apply (range_split_after _ _ _ _ _ Hsplit). lia. }
  specialize (Hl1 i' Hin). rewrite find_first_None in Hl1.
  specialize (Hl1 j' ltac:(apply elem_of_range; lia)).
  by destruct (interval_test P i' j').
Qed.

Lemma maximal_interval_none (P : list Z) :
  maximal_interval P = (0, 0) ↔ no_interval P.
Proof.
  unfold maximal_interval, no_interval. split.
  - intros H. destruct (find_first _ _) as [[i j]|] eqn:Hf.
    + injection H as -> ->. apply maximal_interval_found in Hf. lia.
    + intros i j Hi Hj. rewrite find_first_None in Hf.
      specialize (Hf i ltac:(apply elem_of_reverse, elem_of_range; lia)).
      rewrite find_first_None in Hf.
      specialize (Hf j ltac:(apply elem_of_range; lia)).
      by destruct (interval_test P i j).
  - intros H. destruct (find_first _ _) as [[i j]|] eqn:Hf; [|done].
    apply maximal_interval_found in Hf as (Hi & Hj & Ht & _).
    rewrite H in Ht by done. done.
Qed.

Lemma maximal_interval_some (P : list Z) (i j : Z) :
  maximal_interval P = (i, j) → i ≠ 0 →
  2 ≤ i < len P ∧ 0 ≤ j ≤ len P - i ∧ interval_test P i j = true
  ∧ ∀ i' j', i < i' < len P → 0 ≤ j' ≤ len P - i' →
             interval_test P i' j' = false.
Proof.
  unfold maximal_interval. intros H Hne.
  destruct (find_first _ _) as [[i0 j0]|] eqn:Hf.
  - injection H as -> ->. by apply maximal_interval_found.
  - injection H as <- <-. done.
Qed.

Section sliding.
Variable P : list Z.
Let n := len P.

(** The window of [i+1] positions that ends at [j]. *)
Definition window (i j : Z) : list Z := slice P (j - i) (j + 1).

Lemma window_step (i j : Z) :
  1 ≤ i ≤ j → j < n →
  seq_min (window i j) = Z.min (seq_min (window (i - 1) (j - 1))) P.[j]
  ∧ seq_max (window i j) = Z.max (seq_max (window (i - 1) (j - 1))) P.[j].
Proof.
  intros Hi Hj. unfold window.
  rewrite slice_snoc by (fold n; lia).
  replace (j - 1 - (i - 1)) with (j - i) by lia.
  replace (j - 1 + 1) with j by lia.
  rewrite seq_min_snoc, seq_max_snoc by (apply slice_nonempty; fold n; lia).
  done.
Qed.

Lemma window_one (j : Z) :
  0 ≤ j < n → seq_min (window 0 j) = P.[j] ∧ seq_max (window 0 j) = P.[j].
Proof.
  intros Hj. unfold window. replace (j - 0) with j by lia.
  assert (slice P j (j + 1) = [P.[j]]) as ->; [|done].
  unfold slice. replace (Z.to_nat (j + 1 - j)) with 1%nat by lia.
  erewrite take_S_r; [by rewrite take_0|].
  rewrite lookup_drop, Nat.add_0_r. apply lookup_znth. fold n. lia.
Qed.

Lemma window_test (i j : Z) :
  interval_test P (i + 1) (j - i)
  = (seq_max (window i j) - seq_min (window i j) =? i).
Proof.
  unfold interval_test, window.
  replace (j - i + (i + 1)) with (j + 1) by lia.
  by replace (i + 1 - 1) with i by lia.
Qed.

(** The tables before the inner loop reaches position [k] in turn [i]:
    windows of [i] positions up to [k], of [i+1] positions after it. *)
Definition tables_at (i k : Z) (mins maxs : list Z) : Prop :=
  len mins = n ∧ len maxs = n
  ∧ (∀ j, i - 1 ≤ j ≤ k →
          mins.[j] = seq_min (window (i - 1) j)
          ∧ maxs.[j] = seq_max (window (i - 1) j))
  ∧ (∀ j, k < j < n →
          mins.[j] = seq_min (window i j) ∧ maxs.[j] = seq_max (window i j)).

Lemma simple_location_inner_spec (i : Z) :
  1 ≤ i →
  ∀ (d : nat) (mins maxs : list Z),
    i + Z.of_nat d ≤ n →
    tables_at i (i + Z.of_nat d - 1) mins maxs →
    match simple_location_inner P i mins maxs
            (reverse (range i (i + Z.of_nat d))) with
    | inl r => ∃ j, r = (i, j) ∧ i ≤ j < n
                    ∧ interval_test P (i + 1) (j - i) = true
    | inr (mins', maxs') =>
      tables_at (i + 1) (n - 1) mins' maxs'
      ∧ ∀ j, i ≤ j < i + Z.of_nat d →
             interval_test P (i + 1) (j - i) = false
    end.
Proof.
  intros Hi. induction d as [|d IH]; intros mins maxs Hd Htab.
  - rewrite range_nil by lia. simpl.
    destruct Htab as (Hl1 & Hl2 & Hlow & Hhigh). split; [|intros; lia].
    split_and!; try done; [|intros; lia].
    intros j Hj. replace (i + 1 - 1) with i by lia.
    apply Hhigh. lia.
  - replace (i + Z.of_nat (S d)) with (i + Z.of_nat d + 1) in * by lia.
    rewrite range_snoc by lia. rewrite reverse_app. simpl.
    set (k := i + Z.of_nat d) in *.
    destruct Htab as (Hl1 & Hl2 & Hlow & Hhigh).
    destruct (window_step i k ltac:(lia) ltac:(lia)) as [Hwmin Hwmax].
    destruct (Hlow (k - 1) ltac:(lia)) as [Hm1 HM1].
    rewrite !znth_insert_eq by lia.
    rewrite Hm1, HM1, <- Hwmin, <- Hwmax, <- window_test.
    destruct (interval_test P (i + 1) (k - i)) eqn:Htest.
    + exists k. split_and!; [done|lia|lia|done].
    + specialize (IH (<[Z.to_nat k := seq_min (window i k)]> mins)
                     (<[Z.to_nat k := seq_max (window i k)]> maxs)
                     ltac:(lia)).
      destruct (simple_location_inner _ _ _ _ _) as [r|[mins' maxs']].
      * apply IH. split_and!; rewrite ?len_insert; try done.
        -- intros j Hj. rewrite !znth_insert_ne by lia. apply Hlow. lia.
        -- intros j Hj. destruct (decide (j = k)) as [->|Hne].
           ++ by rewrite !znth_insert_eq by lia.
           ++ rewrite !znth_insert_ne by lia. apply Hhigh. lia.
      * destruct IH as [Htab' Hno].
        { split_and!; rewrite ?len_insert; try done.
          - intros j Hj. rewrite !znth_insert_ne by lia. apply Hlow. lia.
          - intros j Hj. destruct (decide (j = k)) as [->|Hne].
            + by rewrite !znth_insert_eq by lia.
            + rewrite !znth_insert_ne by lia. apply Hhigh. lia. }
        split; [done|]. intros j Hj.
        destruct (decide (j = k)) as [->|Hne]; [done|]. apply Hno. lia.
Qed.

Lemma simple_location_outer_spec :
  ∀ (d : nat) (i0 : Z) (mins maxs : list Z),
    1 ≤ i0 → i0 + Z.of_nat d = Z.max i0 (n - 1) →
    tables_at i0 (n - 1) mins maxs →
    (simple_location_outer P mins maxs (range i0 (n - 1)) = (0, 0)
     ↔ ∀ i j, i0 ≤ i < n - 1 → i ≤ j < n →
              interval_test P (i + 1) (j - i) = false).
Proof.
  induction d as [|d IH]; intros i0 mins maxs Hi0 Hd Htab.
  - rewrite range_nil by lia. simpl. split; [|done]. intros _ i j Hi Hj. lia.
  - rewrite range_cons by lia. simpl.
    pose proof (simple_location_inner_spec i0 Hi0 (Z.to_nat (n - i0)) mins maxs
                  ltac:(lia)) as Hinner.
    replace (i0 + Z.of_nat (Z.to_nat (n - i0))) with n in Hinner by lia.
    specialize (Hinner Htab).
    destruct (simple_location_inner _ _ _ _ _) as [r|[mins' maxs']].
    + destruct Hinner as (j & -> & Hj & Htest). split.
      * intros [= ? ?]. lia.
      * intros H. rewrite (H i0 j) in Htest by lia. done.
    + destruct Hinner as [Htab' Hno].
      rewrite (IH (i0 + 1) mins' maxs') by (done || lia). split.
      * intros H i j Hi Hj. destruct (decide (i = i0)) as [->|Hne].
        -- apply Hno. lia.
        -- apply H; lia.
      * intros H i j Hi Hj. apply H; lia.
Qed.

Lemma simple_location_none : simple_location P = (0, 0) ↔ no_interval P.
Proof.
  unfold simple_location. cbv zeta. fold n.
  destruct (decide (n - 1 ≤ 1)) as [Hsmall|Hbig].
  - rewrite range_nil by (fold n; lia). simpl. split; [|done].
    intros _ i j Hi Hj. fold n in Hi. lia.
  - rewrite (simple_location_outer_spec (Z.to_nat (n - 2)) 1 P P);
      [|lia|lia|].
    + unfold no_interval. fold n. split.
      * intros H i j Hi Hj. specialize (H (i - 1) (j + (i - 1)) ltac:(lia) ltac:(lia)).
        replace (i - 1 + 1) with i in H by lia.
        by replace (j + (i - 1) - (i - 1)) with j in H by lia.
      * intros H i j Hi Hj. apply H; lia.
    + split_and!; try done; [|intros; lia].
      intros j Hj. replace (1 - 1) with 0 by lia.
      destruct (window_one j ltac:(lia)) as [-> ->]. done.
Qed.
End sliding.

(** ** [mapM] in the [result] monad *)

Lemma mapM_Ok_inv {A B} (f : A → result B) (l : list A) (k : list B) :
  mapM f l = Ok k → Forall2 (λ x y, f x = Ok y) l k.
Proof.
  revert k. induction l as [|x l IH]; intros k; simpl.
  - intros [= <-]. constructor.
  - destruct (f x) as [y| |] eqn:Hx; cbn [mbind result_bind]; try done.
    destruct (mapM f l) as [k'| |]; cbn [mbind result_bind]; try done.
    intros [= <-]. constructor; [done|]. by apply IH.
Qed.

Lemma mapM_Ok_length {A B} (f : A → result B) (l : list A) (k : list B) :
  mapM f l = Ok k → length k = length l.
Proof. intros H. symmetry. eapply Forall2_length, mapM_Ok_inv, H. Qed.

Lemma mapM_Ok_map {A B} (f : A → result B) (g : A → B) (l : list A) :
  (∀ x, x ∈ l → f x = Ok (g x)) → mapM f l = Ok (map g l).
Proof.
  induction l as [|x l IH]; intros H; simpl; [done|].
  rewrite (H x) by left. cbn [mbind result_bind].
  rewrite IH by (intros; apply H; by right). done.
Qed.

Lemma standardize_length (L L' : list Z) :
  standardize L = Ok L' → length L' = length L.
Proof.
  unfold standardize. destruct (assert _); cbn [mbind result_bind]; try done.
  apply mapM_Ok_length.
Qed.

Lemma map_const_range {A} (c : A) (a b : Z) :
  map (λ _ : Z, c) (range a b) = replicate (Z.to_nat (b - a)) c.
Proof.
  unfold range, seqZ. generalize (Z.to_nat (b - a)) as k. intros k.
  generalize 0%nat as s. induction k as [|k IH]; intros s; simpl; [done|].
  f_equal. apply IH.
Qed.

Lemma singletons_Ok (m : Z) :
  mapM (λ _ : Z, standardize [1]) (range 0 m)
  = Ok (replicate (Z.to_nat m) [0]).
Proof.
  rewrite (mapM_Ok_map _ (λ _, [0])) by done.
  by rewrite map_const_range, Z.sub_0_r.
Qed.

(** A turn of the loop of [decomposition] replaces an interval of at least
    two positions by one, so the base it returns is never longer. *)
Lemma decomposition_loop_length (fuel : nat) :
  ∀ base components b c,
    decomposition_loop fuel base components = Ok (b, c) →
    (length b ≤ length base)%nat
    ∧ (is_simple base = false → (length b < length base)%nat).
Proof.
  induction fuel as [|fuel IH]; intros base components b c; simpl; [done|].
  destruct (is_simple base) eqn:Hs.
  - intros [= <- <-]. split; [lia|done].
  - destruct (assert (len base =? len components));
      cbn [mbind result_bind]; try done.
    destruct (maximal_interval base) as [i j] eqn:Hmax.
    destruct (i =? 0) eqn:Hi0; cbn [assert negb mbind result_bind]; try done.
    apply Z.eqb_neq in Hi0.
    destruct (maximal_interval_some base i j Hmax Hi0) as (Hi & Hj & _).
    destruct (py_get base j) as [bj| |]; cbn [mbind result_bind]; try done.
    destruct (standardize (slice base j (i + j))) as [cj| |];
      cbn [mbind result_bind]; try done.
    destruct (standardize _) as [base'| |] eqn:Hbase';
      cbn [mbind result_bind]; try done.
    intros Hrec. apply IH in Hrec as [Hle _].
    apply standardize_length in Hbase'.
    rewrite !length_app, !slice_length in Hbase' by (unfold len in *; lia).
    simpl in Hbase'. unfold len in *. lia.
Qed.

Lemma decomposition_simple (P : list Z) :
  is_simple P = true →
  decomposition P = Ok (P, replicate (length P) [0]).
Proof.
  intros Hs. unfold decomposition. cbv zeta.
  rewrite singletons_Ok. cbn [mbind result_bind]. unfold len.
  rewrite Nat2Z.id. simpl. by rewrite Hs.
Qed.

Lemma decomposition_fixed (P : list Z) (comps : list (list Z)) :
  decomposition P = Ok (P, comps) → is_simple P = true.
Proof.
  unfold decomposition. cbv zeta.
  rewrite singletons_Ok. cbn [mbind result_bind].
  intros H. apply decomposition_loop_length in H as [_ H].
  destruct (is_simple P); [done|]. specialize (H eq_refl). lia.
Qed.

(** C4. The three simplicity tests agree. For every sequence [P] (so for
    every permutation): [decomposition P] returns [P] itself with one
    singleton component per position if and only if [maximal_interval P]
    returns [(0,0)], if and only if [simple_location P] returns [(0,0)],
    if and only if no range of positions of a length between 2 and
    [len P - 1] holds a contiguous range of values. Moreover, whenever
    [decomposition P] returns [P] as the base, the components are the
    singletons. *)
Theorem simplicity_tests_agree (P : list Z) :
  (decomposition P = Ok (P, replicate (length P) [0])
   ↔ maximal_interval P = (0, 0))
  ∧ (maximal_interval P = (0, 0) ↔ simple_location P = (0, 0))
  ∧ (simple_location P = (0, 0) ↔ no_interval P)
  ∧ (∀ comps, decomposition P = Ok (P, comps) →
              comps = replicate (length P) [0]).
Proof.
  split_and!.
  - rewrite maximal_interval_none, <- is_simple_spec. split.
    + apply decomposition_fixed.
    + apply decomposition_simple.
  - by rewrite maximal_interval_none, simple_location_none.
  - apply simple_location_none.
  - intros comps H. pose proof (decomposition_fixed _ _ H) as Hs.
    rewrite (decomposition_simple P Hs) in H. by injection H as <-.
Qed.

(** ** [standardize] as ranking *)

(** The number of entries of [L] below [x]. *)
Definition rank (x : Z) (L : list Z) : Z := len (filter (λ y, y < x) L).

Lemma remove_dups_NoDup (L : list Z) : NoDup L → remove_dups L = L.
Proof.
  induction 1 as [|x L Hx _ IH]; simpl; [done|].
  destruct (decide_rel _ x L); [done|]. by rewrite IH.
Qed.

Lemma rank_nonneg (x : Z) (L : list Z) : 0 ≤ rank x L.
Proof. unfold rank, len. lia. Qed.

Lemma rank_Permutation (x : Z) (L L' : list Z) : L ≡ₚ L' → rank x L = rank x L'.
Proof. intros H. unfold rank, len. by rewrite H. Qed.

Lemma rank_cons (x y : Z) (L : list Z) :
  rank x (y :: L) = (if bool_decide (y < x) then 1 else 0) + rank x L.
Proof.
  unfold rank, len. rewrite filter_cons.
  case_bool_decide; destruct (decide (y < x)); simpl; lia.
Qed.

Lemma rank_app (x : Z) (L1 L2 : list Z) :
  rank x (L1 ++ L2) = rank x L1 + rank x L2.
Proof. unfold rank, len. rewrite filter_app, length_app. lia. Qed.

Lemma rank_le_len (x : Z) (L : list Z) : rank x L ≤ len L.
Proof. unfold rank, len. pose proof (length_filter (λ y, y < x) L). lia. Qed.

Lemma rank_mono (x y : Z) (L : list Z) : x ≤ y → rank x L ≤ rank y L.
Proof.
  intros Hxy. induction L as [|z L IH]; [done|]. rewrite !rank_cons.
  repeat case_bool_decide; lia.
Qed.

Lemma rank_lt (x y : Z) (L : list Z) : x < y → x ∈ L → rank x L < rank y L.
Proof.
  intros Hxy. induction L as [|z L IH]; intros Hx.
  - by apply elem_of_nil in Hx.
  - rewrite !rank_cons. apply elem_of_cons in Hx as [<-|Hx].
    + pose proof (rank_mono x y L ltac:(lia)).
      repeat case_bool_decide; lia.
    + specialize (IH Hx). repeat case_bool_decide; lia.
Qed.

Lemma rank_lt_len (x : Z) (L : list Z) : x ∈ L → rank x L < len L.
Proof.
  induction L as [|z L IH]; intros Hx.
  - by apply elem_of_nil in Hx.
  - rewrite rank_cons. unfold len in *. simpl length.
    apply elem_of_cons in Hx as [<-|Hx].
    + pose proof (rank_le_len x L). unfold len in *.
      case_bool_decide; lia.
    + specialize (IH Hx). case_bool_decide; lia.
Qed.

Lemma rank_zero (x : Z) (L : list Z) : (∀ z, z ∈ L → x ≤ z) → rank x L = 0.
Proof.
  induction L as [|y L IH]; intros H; [done|]. rewrite rank_cons.
  rewrite IH by (intros; apply H; by right).
  pose proof (H y ltac:(left)). rewrite bool_decide_eq_false_2 by lia. done.
Qed.

(** In a sorted sequence without repetitions, the index of an entry is the
    number of entries below it. *)
Lemma index_from_sorted (S : list Z) (x k : Z) :
  StronglySorted Z.le S → NoDup S → x ∈ S →
  index_from x S k = Ok (k + rank x S).
Proof.
  intros Hs. revert k. induction Hs as [|y S Hs IH Hall]; intros k Hnd Hx.
  - by apply elem_of_nil in Hx.
  - apply NoDup_cons in Hnd as [Hy Hnd]. simpl. rewrite rank_cons.
    rewrite Forall_forall in Hall.
    destruct (y =? x) eqn:Hyx.
    + apply Z.eqb_eq in Hyx as ->. rewrite bool_decide_eq_false_2 by lia.
      assert (rank x S = 0) as ->; [|f_equal; lia].
      apply rank_zero. intros z Hz. by apply Hall.
    + apply Z.eqb_neq in Hyx.
      apply elem_of_cons in Hx as [->|Hx]; [done|].
      rewrite IH by done. specialize (Hall x Hx).
      rewrite bool_decide_eq_true_2 by lia. f_equal. lia.
Qed.

Lemma standardize_NoDup (L : list Z) :
  NoDup L → standardize L = Ok (map (λ x, rank x L) L).
Proof.
  intros Hnd. unfold standardize.
  rewrite remove_dups_NoDup, bool_decide_eq_true_2 by done.
  cbn [assert mbind result_bind]. apply mapM_Ok_map. intros x Hx.
  unfold py_index. rewrite index_from_sorted.
  - by rewrite (rank_Permutation _ _ _ (merge_sort_Permutation Z.le L)).
  - apply StronglySorted_merge_sort; apply _.
  - by rewrite merge_sort_Permutation.
  - by rewrite merge_sort_Permutation.
Qed.

(** ** Counting arguments on sequences without repetitions *)

Lemma NoDup_bounded_len (L : list Z) (a m : Z) :
  NoDup L → 0 ≤ m → (∀ y, y ∈ L → a ≤ y < a + m) → len L ≤ m.
Proof.
  intros Hnd Hm Hin.
  assert (L ⊆+ seqZ a m) as Hsub.
  { apply NoDup_submseteq; [done|]. intros y Hy. apply elem_of_seqZ. auto. }
  apply submseteq_length in Hsub. rewrite length_seqZ in Hsub.
  unfold len. lia.
Qed.

Lemma NoDup_bounded_full (L : list Z) (a : Z) :
  NoDup L → (∀ y, y ∈ L → a ≤ y < a + len L) →
  ∀ y, a ≤ y < a + len L → y ∈ L.
Proof.
  intros Hnd Hin y Hy.
  assert (L ⊆+ seqZ a (len L)) as Hsub.
  { apply NoDup_submseteq; [done|]. intros z Hz. apply elem_of_seqZ. auto. }
  apply submseteq_length_Permutation in Hsub.
  - rewrite Hsub. by apply elem_of_seqZ.
  - rewrite length_seqZ. unfold len. lia.
Qed.

Lemma contiguous_len (L : list Z) (a m : Z) :
  NoDup L → 0 ≤ m → (∀ y, y ∈ L ↔ a ≤ y < a + m) → len L = m.
Proof.
  intros Hnd Hm Hin.
  assert (L ≡ₚ seqZ a m) as Hp.
  { apply NoDup_Permutation; [done|apply NoDup_seqZ|].
    intros y. by rewrite Hin, elem_of_seqZ. }
  unfold len. rewrite Hp, length_seqZ. lia.
Qed.

Lemma is_perm_intro (L : list Z) (m : Z) :
  NoDup L → 0 ≤ m → (∀ y, y ∈ L ↔ 0 ≤ y < m) → is_perm L.
Proof.
  intros Hnd Hm Hin. split; [done|].
  by rewrite (contiguous_len L 0 m).
Qed.

Lemma rank_contiguous (L : list Z) (a x : Z) :
  NoDup L → (∀ y, y ∈ L ↔ a ≤ y < a + len L) → a ≤ x ≤ a + len L →
  rank x L = x - a.
Proof.
  intros Hnd Hin Hx. unfold rank.
  apply (contiguous_len _ a); [by apply NoDup_filter|lia|].
  intros y. rewrite list_elem_of_filter, Hin. lia.
Qed.

Lemma rank_perm (P : list Z) (x : Z) : is_perm P → x ∈ P → rank x P = x.
Proof.
  intros [Hnd Hin] Hx. rewrite (rank_contiguous P 0).
  - lia.
  - done.
  - intros y. rewrite Hin. lia.
  - apply Hin in Hx. lia.
Qed.

Lemma map_id_on {A} (f : A → A) (l : list A) :
  (∀ x, x ∈ l → f x = x) → map f l = l.
Proof.
  induction l as [|x l IH]; intros H; simpl; [done|].
  rewrite (H x) by left. rewrite IH; [done|]. intros; apply H; by right.
Qed.

Lemma standardize_perm (P : list Z) : is_perm P → standardize P = Ok P.
Proof.
  intros HP. rewrite standardize_NoDup by apply HP. f_equal.
  apply map_id_on. intros x Hx. by apply rank_perm.
Qed.

(** What [standardize] returns is a permutation. *)
Lemma ranks_is_perm (L : list Z) : NoDup L → is_perm (map (λ x, rank x L) L).
Proof.
  intros Hnd.
  assert (NoDup (map (λ x, rank x L) L)) as Hnd'.
  { apply (NoDup_fmap_2_strong (λ x, rank x L)); [|done].
    intros x y Hx Hy Heq. destruct (Z.lt_trichotomy x y) as [H|[H|H]]; [|done|].
    - pose proof (rank_lt x y L H Hx). lia.
    - pose proof (rank_lt y x L H Hy). lia. }
  assert (∀ y, y ∈ map (λ x, rank x L) L → 0 ≤ y < 0 + len (map (λ x, rank x L) L))
    as Hb.
  { intros y Hy. apply list_elem_of_fmap in Hy as (x & -> & Hx).
    rewrite len_map. pose proof (rank_nonneg x L).
    pose proof (rank_lt_len x L Hx). lia. }
  split; [done|]. intros y. split.
  - intros Hy. apply Hb in Hy. lia.
  - intros Hy. apply (NoDup_bounded_full _ 0); [done|done|lia].
Qed.

Lemma standardize_is_perm (L L' : list Z) :
  standardize L = Ok L' → is_perm L'.
Proof.
  unfold standardize.
  destruct (bool_decide _) eqn:Hd; cbn [assert mbind result_bind]; [|done].
  apply bool_decide_eq_true in Hd.
  assert (NoDup L) as Hnd.
  { assert (remove_dups L ⊆+ L) as Hsub.
    { apply NoDup_submseteq; [apply NoDup_remove_dups|].
      intros x. by rewrite elem_of_remove_dups. }
    apply submseteq_length_Permutation in Hsub; [|lia].
    rewrite <- Hsub. apply NoDup_remove_dups. }
  pose proof (standardize_NoDup L Hnd) as Hs. unfold standardize in Hs.
  rewrite bool_decide_eq_true_2 in Hs by done.
  cbn [assert mbind result_bind] in Hs. rewrite Hs. intros [= <-].
  by apply ranks_is_perm.
Qed.

(** ** [inflate] in closed form *)

Definition sumZ (l : list Z) : Z := foldr Z.add 0 l.

(** The total length of the components whose base value is below [v]: the
    value of [vertical_shift] when the loop of [inflate] reaches [v]. *)
Definition shift_below (base : list Z) (comps : list (list Z)) (v : Z) : Z :=
  sumZ (zip_with (λ b c, if b <? v then len c else 0) base comps).

(** The table [inflated] when the loop of [inflate] reaches [v]. *)
Definition inflated_upto (base : list Z) (comps : list (list Z)) (v : Z)
  : list (list Z) :=
  zip_with (λ b c, if b <? v
                   then map (λ x, x + shift_below base comps b) c else [])
           base comps.

Definition blocks (base : list Z) (comps : list (list Z)) : list (list Z) :=
  zip_with (λ b c, map (λ x, x + shift_below base comps b) c) base comps.

Definition flat (base : list Z) (comps : list (list Z)) : list Z :=
  concat (blocks base comps).

Lemma py_get_lookup {A} (L : list A) (j : Z) (x : A) :
  0 ≤ j → L !! Z.to_nat j = Some x → py_get L j = Ok x.
Proof.
  intros Hj Hx. unfold py_get.
  destruct (Z.ltb_spec j 0); [lia|].
  destruct (Z.ltb_spec j 0); [lia|]. by rewrite Hx.
Qed.

Lemma index_from_lookup (x : Z) (L : list Z) (k0 : Z) :
  x ∈ L → ∃ k : nat, index_from x L k0 = Ok (k0 + Z.of_nat k) ∧ L !! k = Some x.
Proof.
  revert k0. induction L as [|y L IH]; intros k0 Hx.
  - by apply elem_of_nil in Hx.
  - simpl. destruct (Z.eqb_spec y x) as [->|Hne].
    + exists 0%nat. split; [f_equal; lia|done].
    + apply elem_of_cons in Hx as [->|Hx]; [done|].
      destruct (IH (k0 + 1) Hx) as (k & Hk & Hl).
      exists (S k). split; [rewrite Hk; f_equal; lia|done].
Qed.

Lemma py_index_lookup (L : list Z) (x : Z) :
  x ∈ L → ∃ k : nat, py_index L x = Ok (Z.of_nat k) ∧ L !! k = Some x.
Proof.
  intros Hx. destruct (index_from_lookup x L 0 Hx) as (k & Hk & Hl).
  exists k. by rewrite Z.add_0_l in Hk.
Qed.

Lemma sumZ_app (l k : list Z) : sumZ (l ++ k) = sumZ l + sumZ k.
Proof. induction l as [|x l IH]; simpl; lia. Qed.

Lemma sumZ_zip_with_ext {A B} (f g : A → B → Z) (l : list A) (k : list B) :
  (∀ i a b, l !! i = Some a → k !! i = Some b → f a b = g a b) →
  sumZ (zip_with f l k) = sumZ (zip_with g l k).
Proof.
  revert k. induction l as [|a l IH]; intros [|b k] H; simpl; try done.
  rewrite (H 0%nat a b) by done. f_equal.
  apply IH. intros i. apply (H (S i)).
Qed.

Lemma zip_with_ext_lookup {A B C} (f g : A → B → C) (l : list A) (k : list B) :
  (∀ i a b, l !! i = Some a → k !! i = Some b → f a b = g a b) →
  zip_with f l k = zip_with g l k.
Proof.
  revert k. induction l as [|a l IH]; intros [|b k] H; simpl; try done.
  rewrite (H 0%nat a b) by done. f_equal.
  apply IH. intros i. apply (H (S i)).
Qed.

Lemma shift_below_mono (base : list Z) (comps : list (list Z)) (v w : Z) :
  v ≤ w → shift_below base comps v ≤ shift_below base comps w.
Proof.
  intros Hvw. unfold shift_below. revert comps.
  induction base as [|b base IH]; intros [|c comps]; simpl; try done.
  specialize (IH comps). pose proof (len_nonneg c).
  destruct (Z.ltb_spec b v), (Z.ltb_spec b w); lia.
Qed.

Lemma shift_below_zero (base : list Z) (comps : list (list Z)) (v : Z) :
  (∀ b, b ∈ base → v ≤ b) → shift_below base comps v = 0.
Proof.
  unfold shift_below. revert comps.
  induction base as [|b base IH]; intros [|c comps] H; simpl; try done.
  rewrite IH by (intros; apply H; by right).
  pose proof (H b ltac:(left)). destruct (Z.ltb_spec b v); lia.
Qed.

(** The entry [v] of the base sits at one position, and moving the bound
    past [v] adds the length of the component there. *)
Lemma shift_below_succ (base : list Z) (comps : list (list Z)) (v : Z)
    (k : nat) (c : list Z) :
  NoDup base → base !! k = Some v → comps !! k = Some c →
  shift_below base comps (v + 1) = shift_below base comps v + len c.
Proof.
  unfold shift_below. revert comps k.
  induction base as [|b base IH]; intros [|c0 comps] k Hnd Hb Hc; try done.
  apply NoDup_cons in Hnd as [Hb0 Hnd]. destruct k as [|k]; simpl in *.
  - injection Hb as ->. injection Hc as ->.
    rewrite (sumZ_zip_with_ext _ (λ b c, if b <? v then len c else 0)).
    + destruct (Z.ltb_spec v (v + 1)), (Z.ltb_spec v v); lia.
    + intros i a b Ha _. assert (a ≠ v).
      { intros ->. apply Hb0. by eapply list_elem_of_lookup_2. }
      destruct (Z.ltb_spec a (v + 1)), (Z.ltb_spec a v); lia.
  - rewrite (IH comps k Hnd Hb Hc). assert (b ≠ v).
    { intros ->. apply Hb0. by eapply list_elem_of_lookup_2. }
    destruct (Z.ltb_spec b (v + 1)), (Z.ltb_spec b v); lia.
Qed.

Lemma zip_with_const {A B C} (f : A → B → C) (l : list A) (k : list B) (c : C) :
  (∀ i a b, l !! i = Some a → k !! i = Some b → f a b = c) →
  length l = length k →
  zip_with f l k = replicate (length l) c.
Proof.
  revert k. induction l as [|a l IH]; intros [|b k] H Hl; simpl in *; try done.
  rewrite (H 0%nat a b) by done. f_equal.
  apply IH; [|lia]. intros i. apply (H (S i)).
Qed.

Section inflate_loop.
Variables (base : list Z) (comps : list (list Z)).
Hypothesis Hbase : is_perm base.
Hypothesis Hlen : length base = length comps.

Lemma inflated_upto_length (v : Z) :
  length (inflated_upto base comps v) = length base.
Proof. unfold inflated_upto. rewrite length_zip_with. lia. Qed.

Lemma inflate_step_ok (v : Z) :
  0 ≤ v < len base →
  inflate_step base comps
    (inflated_upto base comps v, shift_below base comps v) v
  = Ok (inflated_upto base comps (v + 1), shift_below base comps (v + 1)).
Proof.
  intros Hv. destruct Hbase as [Hnd Hin].
  destruct (py_index_lookup base v) as (k & Hidx & Hk); [by apply Hin|].
  pose proof (lookup_lt_Some _ _ _ Hk) as Hklt.
  destruct (lookup_lt_is_Some_2 comps k) as [c Hc]; [lia|].
  unfold inflate_step. rewrite Hidx. cbn [mbind result_bind].
  rewrite (py_get_lookup comps _ c) by (rewrite ?Nat2Z.id; done || lia).
  cbn [mbind result_bind].
  rewrite py_set_ok
    by (unfold len; rewrite inflated_upto_length; lia).
  cbn [mbind result_bind]. rewrite Nat2Z.id.
  rewrite (shift_below_succ base comps v k c) by done.
  f_equal. f_equal. apply list_eq. intros i.
  unfold inflated_upto. destruct (decide (i = k)) as [->|Hne].
  - rewrite list_lookup_insert_eq by (rewrite length_zip_with; lia).
    rewrite lookup_zip_with, Hk, Hc. simpl.
    destruct (Z.ltb_spec v (v + 1)); [done|lia].
  - rewrite list_lookup_insert_ne by done.
    rewrite !lookup_zip_with.
    destruct (base !! i) as [b|] eqn:Hb; [|done]. simpl.
    destruct (comps !! i) as [c'|]; [|done]. simpl.
    assert (b ≠ v).
    { intros ->. apply Hne. by eapply NoDup_lookup. }
    destruct (Z.ltb_spec b (v + 1)), (Z.ltb_spec b v); done || lia.
Qed.

Lemma inflate_loop_ok (d : nat) :
  ∀ v, 0 ≤ v → v + Z.of_nat d ≤ len base →
       foldM (inflate_step base comps)
         (inflated_upto base comps v, shift_below base comps v)
         (range v (v + Z.of_nat d))
       = Ok (inflated_upto base comps (v + Z.of_nat d),
             shift_below base comps (v + Z.of_nat d)).
Proof.
  induction d as [|d IH]; intros v Hv Hd.
  - rewrite range_nil by lia. simpl. by rewrite Z.add_0_r.
  - rewrite range_cons by lia. cbn [foldM].
    rewrite inflate_step_ok by lia. cbn [mbind result_bind].
    replace (v + Z.of_nat (S d)) with (v + 1 + Z.of_nat d) by lia.
    apply IH; lia.
Qed.

Lemma inflated_upto_first :
  inflated_upto base comps 0 = replicate (length base) [].
Proof.
  unfold inflated_upto. apply zip_with_const; [|done].
  intros i b c Hb _.
  assert (0 ≤ b) by (apply Hbase; by eapply list_elem_of_lookup_2).
  destruct (Z.ltb_spec b 0); [lia|done].
Qed.

Lemma inflated_upto_last :
  inflated_upto base comps (len base) = blocks base comps.
Proof.
  unfold inflated_upto, blocks. apply zip_with_ext_lookup.
  intros i b c Hb _.
  assert (b < len base) by (apply Hbase; by eapply list_elem_of_lookup_2).
  destruct (Z.ltb_spec b (len base)); [done|lia].
Qed.

Lemma inflate_fold :
  foldM (inflate_step base comps) (replicate (length base) [], 0)
        (range 0 (len base))
  = Ok (blocks base comps, shift_below base comps (len base)).
Proof.
  pose proof (inflate_loop_ok (length base) 0 ltac:(lia)) as H.
  rewrite Z.add_0_l in H. fold (len base) in H.
  rewrite inflated_upto_first, inflated_upto_last in H.
  rewrite shift_below_zero in H; [by apply H|].
  intros b Hb. by apply Hbase.
Qed.

Lemma inflate_flat :
  inflate base comps = standardize (flat base comps).
Proof.
  unfold inflate. cbv zeta.
  assert (len base = len comps) as Hl by (unfold len; lia).
  destruct (Z.eqb_spec (len base) (len comps)); [|done]. simpl negb. cbv iota.
  by rewrite inflate_fold.
Qed.
End inflate_loop.

Lemma elem_of_concat {A} (ls : list (list A)) (x : A) :
  x ∈ concat ls ↔ ∃ k l, ls !! k = Some l ∧ x ∈ l.
Proof.
  induction ls as [|l0 ls IH]; simpl.
  - split; [by intros ?%elem_of_nil|by intros (k & l & ? & _)].
  - rewrite elem_of_app, IH. split.
    + intros [H|(k & l & Hk & Hx)]; [by exists 0%nat, l0|by exists (S k), l].
    + intros ([|k] & l & Hk & Hx); simpl in Hk.
      * injection Hk as ->. by left.
      * right. by exists k, l.
Qed.

Lemma NoDup_concat_lookup {A} (ls : list (list A)) :
  (∀ k l, ls !! k = Some l → NoDup l) →
  (∀ k1 k2 l1 l2 x, ls !! k1 = Some l1 → ls !! k2 = Some l2 →
                    x ∈ l1 → x ∈ l2 → k1 = k2) →
  NoDup (concat ls).
Proof.
  induction ls as [|l0 ls IH]; intros Hnd Hdis; simpl; [constructor|].
  apply NoDup_app. split_and!.
  - by apply (Hnd 0%nat).
  - intros x Hx (k & l & Hk & Hx')%elem_of_concat.
    by pose proof (Hdis 0%nat (S k) l0 l x eq_refl Hk Hx Hx').
  - apply IH.
    + intros k. apply (Hnd (S k)).
    + intros k1 k2 l1 l2 x H1 H2 Hx1 Hx2.
      by pose proof (Hdis (S k1) (S k2) l1 l2 x H1 H2 Hx1 Hx2) as [= ->].
Qed.

Section flat_perm.
Variables (base : list Z) (comps : list (list Z)).
Hypothesis Hbase : is_perm base.
Hypothesis Hlen : length base = length comps.
Hypothesis Hcomps : Forall is_perm comps.

Local Abbreviation s := (shift_below base comps).

Lemma shift_below_start : s 0 = 0.
Proof. apply shift_below_zero. intros b Hb. by apply Hbase. Qed.

Lemma blocks_lookup (k : nat) (l : list Z) :
  blocks base comps !! k = Some l ↔
  ∃ b c, base !! k = Some b ∧ comps !! k = Some c ∧ l = map (λ x, x + s b) c.
Proof.
  unfold blocks. rewrite lookup_zip_with_Some. split.
  - intros (b & c & -> & Hb & Hc). by exists b, c.
  - intros (b & c & Hb & Hc & ->). by exists b, c.
Qed.

Lemma block_range (k : nat) (b : Z) (c : list Z) (x : Z) :
  base !! k = Some b → comps !! k = Some c →
  x ∈ map (λ y, y + s b) c ↔ s b ≤ x < s (b + 1).
Proof.
  intros Hb Hc.
  rewrite (shift_below_succ base comps b k c) by (done || apply Hbase).
  rewrite Forall_forall in Hcomps.
  destruct (Hcomps c) as [_ Hin]; [by eapply list_elem_of_lookup_2|].
  rewrite list_elem_of_fmap. split.
  - intros (y & -> & Hy%Hin). lia.
  - intros Hx. exists (x - s b). split; [lia|]. apply Hin. lia.
Qed.

Lemma flat_NoDup : NoDup (flat base comps).
Proof.
  apply NoDup_concat_lookup.
  - intros k l (b & c & Hb & Hc & ->)%blocks_lookup.
    apply (NoDup_fmap_2_strong (λ x, x + s b)); [intros; lia|].
    rewrite Forall_forall in Hcomps. apply Hcomps.
    by eapply list_elem_of_lookup_2.
  - intros k1 k2 l1 l2 x (b1 & c1 & Hb1 & Hc1 & ->)%blocks_lookup
      (b2 & c2 & Hb2 & Hc2 & ->)%blocks_lookup Hx1 Hx2.
    apply (block_range k1 b1 c1 x Hb1 Hc1) in Hx1.
    apply (block_range k2 b2 c2 x Hb2 Hc2) in Hx2.
    destruct (Z.lt_trichotomy b1 b2) as [H|[H|H]].
    + pose proof (shift_below_mono base comps (b1 + 1) b2 ltac:(lia)).
      lia.
    + subst b2. destruct Hbase as [Hnd _]. by eapply NoDup_lookup.
    + pose proof (shift_below_mono base comps (b2 + 1) b1 ltac:(lia)).
      lia.
Qed.

Lemma find_block (x : Z) (d : nat) :
  0 ≤ x < s (Z.of_nat d) → ∃ b, 0 ≤ b < Z.of_nat d ∧ s b ≤ x < s (b + 1).
Proof.
  induction d as [|d IH]; intros Hx.
  - change (Z.of_nat 0) with 0 in Hx. rewrite shift_below_start in Hx. lia.
  - destruct (decide (x < s (Z.of_nat d))) as [Hlt|Hge].
    + destruct IH as (b & Hb & Hxb); [lia|]. exists b. split; [lia|done].
    + exists (Z.of_nat d). split; [lia|].
      replace (Z.of_nat d + 1) with (Z.of_nat (S d)) by lia. lia.
Qed.

Lemma elem_of_flat (x : Z) : x ∈ flat base comps ↔ 0 ≤ x < s (len base).
Proof.
  unfold flat. rewrite elem_of_concat. split.
  - intros (k & l & (b & c & Hb & Hc & ->)%blocks_lookup & Hx).
    apply (block_range k b c x Hb Hc) in Hx.
    assert (0 ≤ b < len base) by (apply Hbase; by eapply list_elem_of_lookup_2).
    pose proof (shift_below_mono base comps 0 b ltac:(lia)).
    pose proof (shift_below_mono base comps (b + 1) (len base) ltac:(lia)).
    rewrite shift_below_start in *. lia.
  - intros Hx. destruct (find_block x (length base) Hx) as (b & Hb & Hxb).
    assert (b ∈ base) as (k & Hk)%list_elem_of_lookup by (by apply Hbase).
    pose proof (lookup_lt_Some _ _ _ Hk).
    destruct (lookup_lt_is_Some_2 comps k) as [c Hc]; [lia|].
    exists k, (map (λ y, y + s b) c). split.
    + apply blocks_lookup. by exists b, c.
    + by apply (block_range k b c x Hk Hc).
Qed.

Lemma flat_is_perm : is_perm (flat base comps).
Proof.
  apply (is_perm_intro _ (s (len base))).
  - apply flat_NoDup.
  - pose proof (shift_below_mono base comps 0 (len base) (len_nonneg _)).
    by rewrite shift_below_start in *.
  - apply elem_of_flat.
Qed.

Lemma inflate_ok : inflate base comps = Ok (flat base comps).
Proof.
  rewrite inflate_flat by done. apply standardize_perm, flat_is_perm.
Qed.
End flat_perm.

Lemma mapM_Raise_inv {A B} (f : A → result B) (l : list A) (e : exn) :
  mapM f l = Raise e → ∃ x, x ∈ l ∧ f x = Raise e.
Proof.
  induction l as [|x l IH]; simpl; [done|].
  destruct (f x) as [y|e'|] eqn:Hx; cbn [mbind result_bind]; try done.
  - destruct (mapM f l) as [k|e'|]; cbn [mbind result_bind]; try done.
    intros [= ->]. destruct IH as (x' & Hin & Hx'); [done|].
    exists x'. split; [by right|done].
  - intros [= ->]. exists x. split; [by left|done].
Qed.

Lemma index_from_Raise (x : Z) (L : list Z) (k : Z) (e : exn) :
  index_from x L k = Raise e → e = ValueError_index.
Proof.
  revert k. induction L as [|y L IH]; intros k; simpl.
  - by intros [= <-].
  - destruct (y =? x); [done|]. apply IH.
Qed.

Lemma standardize_Raise (L : list Z) (e : exn) :
  standardize L = Raise e → e = AssertionError ∨ e = ValueError_index.
Proof.
  unfold standardize, assert.
  destruct (bool_decide _); cbn [mbind result_bind].
  - intros (x & _ & Hx)%mapM_Raise_inv. right. by eapply index_from_Raise.
  - intros [= <-]. by left.
Qed.

(** C7. For a base permutation and a list of components, [inflate] raises
    the [ValueError] of a wrong shape if and only if the number of
    components differs from the length of the base; when the two are
    equal, and the components are permutations, it raises nothing and
    returns a permutation. *)
Theorem inflate_shape_mismatch (base : list Z) (components : list (list Z)) :
  is_perm base →
  (inflate base components = Raise ValueError_shape
   ↔ len base ≠ len components)
  ∧ (Forall is_perm components → len base = len components →
     ∃ Q, inflate base components = Ok Q ∧ is_perm Q).
Proof.
  intros Hbase. split.
  - split.
    + intros H Heq. rewrite inflate_flat in H by (done || unfold len in Heq; lia).
      by apply standardize_Raise in H as [?|?].
    + intros Hne. unfold inflate. cbv zeta.
      by destruct (Z.eqb_spec (len base) (len components)).
  - intros Hcomps Heq. exists (flat base components).
    assert (length base = length components) by (unfold len in Heq; lia).
    split; [by apply inflate_ok|by apply flat_is_perm].
Qed.

Lemma inflate_shape_mismatch_witness :
  (inflate [1;0] [[0]; [1;0]] = Raise ValueError_shape
   ↔ len [1;0] ≠ len [[0]; [1;0]])
  ∧ (Forall is_perm [[0]; [1;0]] → len [1;0] = len [[0]; [1;0]] →
     ∃ Q, inflate [1;0] [[0]; [1;0]] = Ok Q ∧ is_perm Q).
Proof.
  apply (inflate_shape_mismatch [1;0] [[0]; [1;0]]).
  apply is_permb_spec. vm_compute. reflexivity.
Defined.

Example inflate_21 : inflate [1;0] [[0]; [1;0]] = Ok [2;1;0].
Proof. vm_compute. reflexivity. Qed.

Example inflate_21_short : inflate [1;0] [[0]] = Raise ValueError_shape.
Proof. vm_compute. reflexivity. Qed.

(** ** Intervals of a sequence without repetitions *)

Lemma NoDup_slice (L : list Z) (a b : Z) : NoDup L → NoDup (slice L a b).
Proof.
  intros H. unfold slice.
  eapply sublist_NoDup; [|apply sublist_take].
  eapply sublist_NoDup; [done|apply sublist_drop].
Qed.

Lemma slice_split3 {A} (L : list A) (i j : Z) :
  0 ≤ j → 0 ≤ i → j + i ≤ len L →
  L = slice L 0 j ++ slice L j (j + i) ++ slice L (i + j) (len L).
Proof.
  intros Hj Hi Hij. unfold slice, len in *.
  rewrite drop_0, Z.sub_0_r.
  replace (Z.to_nat (j + i - j)) with (Z.to_nat i) by lia.
  rewrite (take_ge (drop (Z.to_nat (i + j)) L))
    by (rewrite length_drop; lia).
  replace (Z.to_nat (i + j)) with (Z.to_nat j + Z.to_nat i)%nat by lia.
  rewrite <- drop_drop. by rewrite !take_drop.
Qed.

(** A range of positions whose values fit in as many consecutive integers
    passes the test of [maximal_interval]. *)
Lemma interval_test_bounded (L : list Z) (i j lo : Z) :
  NoDup L → 1 ≤ i → 0 ≤ j → j + i ≤ len L →
  (∀ k, j ≤ k < j + i → lo ≤ L.[k] < lo + i) →
  interval_test L i j = true.
Proof.
  intros Hnd Hi Hj Hij Hval. unfold interval_test.
  assert (slice L j (j + i) ≠ []) as Hne by (apply slice_nonempty; lia).
  destruct (seq_max_spec _ Hne) as [Hmax Hmaxle].
  destruct (seq_min_spec _ Hne) as [Hmin Hminle].
  apply elem_of_slice in Hmax as (k1 & Hk1 & Hmax); [|lia..].
  apply elem_of_slice in Hmin as (k2 & Hk2 & Hmin); [|lia..].
  pose proof (Hval k1 Hk1). pose proof (Hval k2 Hk2).
  pose proof (NoDup_bounded_len (slice L j (j + i))
                (seq_min (slice L j (j + i)))
                (seq_max (slice L j (j + i)) - seq_min (slice L j (j + i)) + 1)
                (NoDup_slice L j (j + i) Hnd)) as Hlen.
  unfold len in Hlen. rewrite slice_length in Hlen by lia.
  apply Z.eqb_eq.
  assert (seq_min (slice L j (j + i)) ≤ seq_max (slice L j (j + i))).
  { apply Hminle. apply elem_of_slice; [lia..|]. by exists k1. }
  specialize (Hlen ltac:(lia)).
  assert (Z.of_nat (Z.to_nat (j + i - j))
          ≤ seq_max (slice L j (j + i)) - seq_min (slice L j (j + i)) + 1).
  { apply Hlen. intros y Hy. pose proof (Hmaxle y Hy).
    pose proof (Hminle y Hy). lia. }
  lia.
Qed.

(** The values of an interval are consecutive integers, each taken once. *)
Lemma interval_test_values (L : list Z) (i j : Z) :
  NoDup L → 1 ≤ i → 0 ≤ j → j + i ≤ len L →
  interval_test L i j = true →
  ∃ lo, (∀ k, j ≤ k < j + i → lo ≤ L.[k] < lo + i)
        ∧ (∀ y, lo ≤ y < lo + i → ∃ k, j ≤ k < j + i ∧ L.[k] = y)
        ∧ lo = seq_min (slice L j (j + i)).
Proof.
  intros Hnd Hi Hj Hij Htest. unfold interval_test in Htest.
  apply Z.eqb_eq in Htest.
  assert (slice L j (j + i) ≠ []) as Hne by (apply slice_nonempty; lia).
  destruct (seq_max_spec _ Hne) as [_ Hmaxle].
  destruct (seq_min_spec _ Hne) as [_ Hminle].
  exists (seq_min (slice L j (j + i))).
  assert (∀ y, y ∈ slice L j (j + i) →
               seq_min (slice L j (j + i)) ≤ y
               < seq_min (slice L j (j + i)) + len (slice L j (j + i))) as Hb.
  { intros y Hy. pose proof (Hmaxle y Hy). pose proof (Hminle y Hy).
    unfold len. rewrite slice_length by lia. lia. }
  split_and!; [| |done].
  - intros k Hk.
    assert (L.[k] ∈ slice L j (j + i)) as Hin.
    { apply elem_of_slice; [lia..|]. by exists k. }
    apply Hb in Hin. unfold len in Hin. rewrite slice_length in Hin by lia. lia.
  - intros y Hy.
    apply (elem_of_slice L j (j + i)); [lia..|].
    apply (NoDup_bounded_full _ (seq_min (slice L j (j + i))));
      [by apply NoDup_slice|done|].
    unfold len. rewrite slice_length by lia. lia.
Qed.

Lemma rank_contiguous_all (L : list Z) (a x : Z) :
  NoDup L → (∀ y, y ∈ L ↔ a ≤ y < a + len L) →
  rank x L = Z.max 0 (Z.min (x - a) (len L)).
Proof.
  intros Hnd Hin. pose proof (len_nonneg L).
  destruct (decide (x ≤ a)) as [Hlo|Hlo].
  - rewrite rank_zero; [lia|]. intros z Hz%Hin. lia.
  - destruct (decide (x ≤ a + len L)) as [Hhi|Hhi].
    + rewrite (rank_contiguous L a) by (done || lia). lia.
    + pose proof (rank_contiguous L a (a + len L) Hnd Hin ltac:(lia)).
      pose proof (rank_mono (a + len L) x L ltac:(lia)).
      pose proof (rank_le_len x L). lia.
Qed.

Lemma shift_below_app (B1 B2 : list Z) (C1 C2 : list (list Z)) (v : Z) :
  length B1 = length C1 →
  shift_below (B1 ++ B2) (C1 ++ C2) v
  = shift_below B1 C1 v + shift_below B2 C2 v.
Proof.
  intros Hl. unfold shift_below. by rewrite zip_with_app, sumZ_app.
Qed.

Lemma shift_below_ones (I : list Z) (v : Z) :
  shift_below I (replicate (length I) [0]) v = rank v I.
Proof.
  unfold shift_below. induction I as [|b I IH]; [done|].
  simpl. rewrite rank_cons, IH.
  destruct (Z.ltb_spec b v); case_bool_decide; done || lia.
Qed.

Lemma shift_below_fmap (f : Z → Z) (B : list Z) (C : list (list Z)) (v w : Z) :
  (∀ b, b ∈ B → (f b <? w) = (b <? v)) →
  shift_below (map f B) C w = shift_below B C v.
Proof.
  intros H. unfold shift_below.
  change (map f B) with (f <$> B). rewrite zip_with_fmap_l.
  apply sumZ_zip_with_ext. intros i b c Hb _.
  rewrite H; [done|]. by eapply list_elem_of_lookup_2.
Qed.

Lemma concat_singletons {A B} (f : A → B) (l : list A) :
  concat (map (λ x, [f x]) l) = map f l.
Proof. induction l as [|x l IH]; simpl; [done|]. by rewrite IH. Qed.

Lemma map_ext_elem {A B} (f g : A → B) (l : list A) :
  (∀ x, x ∈ l → f x = g x) → map f l = map g l.
Proof.
  induction l as [|x l IH]; intros H; simpl; [done|].
  rewrite (H x) by left. rewrite IH; [done|]. intros; apply H; by right.
Qed.

(** ** Collapsing an interval of singletons *)

(** The new value of an old one once the values [a .. a+i-1] are merged
    into the single value [a]: what [standardize] does to the base after an
    interval is replaced by its first entry. *)
Definition collapse (a i x : Z) : Z :=
  if x <? a then x else if x <? a + i then a else x - (i - 1).

Section collapse.
Variables (B1 I B3 : list Z) (C1 C3 : list (list Z)) (a : Z).
Hypothesis HlenB1 : length B1 = length C1.
Hypothesis HlenB3 : length B3 = length C3.
Hypothesis HI : ∀ x, x ∈ I → a ≤ x < a + len I.
Hypothesis Hout : ∀ b, b ∈ B1 ++ B3 → b < a ∨ a + len I ≤ b.
Hypothesis HndI : NoDup I.

Local Abbreviation i := (len I).
Local Abbreviation old_base := (B1 ++ I ++ B3).
Local Abbreviation old_comps := (C1 ++ replicate (length I) [0] ++ C3).
Local Abbreviation new_base := (map (collapse a i) B1 ++ [a] ++ map (collapse a i) B3).
Local Abbreviation new_comps := (C1 ++ [map (λ x, x - a) I] ++ C3).

Lemma I_values (y : Z) : y ∈ I ↔ a ≤ y < a + i.
Proof.
  split; [apply HI|]. intros Hy.
  by apply (NoDup_bounded_full I a HndI HI).
Qed.

Lemma shift_old (v : Z) :
  shift_below old_base old_comps v
  = shift_below B1 C1 v + rank v I + shift_below B3 C3 v.
Proof.
  rewrite !shift_below_app by (done || by rewrite length_replicate).
  rewrite shift_below_ones. lia.
Qed.

Lemma shift_new (w : Z) :
  shift_below new_base new_comps w
  = shift_below (map (collapse a i) B1) C1 w
    + (if a <? w then i else 0)
    + shift_below (map (collapse a i) B3) C3 w.
Proof.
  rewrite !shift_below_app by (done || by rewrite ?length_map).
  unfold shift_below at 2. simpl. rewrite len_map. lia.
Qed.

Lemma shift_outside (b : Z) :
  b < a ∨ a + i ≤ b →
  shift_below new_base new_comps (collapse a i b)
  = shift_below old_base old_comps b.
Proof.
  intros Hb. rewrite shift_old, shift_new.
  rewrite (rank_contiguous_all I a b HndI I_values).
  rewrite !(shift_below_fmap (collapse a i) _ _ b).
  - unfold collapse. pose proof (len_nonneg I).
    destruct (Z.ltb_spec b a), (Z.ltb_spec b (a + i)); try lia.
    + destruct (Z.ltb_spec a b); lia.
    + destruct (Z.ltb_spec a (b - (i - 1))); lia.
  - intros b' Hb'. specialize (Hout b' ltac:(apply elem_of_app; by right)).
    unfold collapse.
    destruct (Z.ltb_spec b a), (Z.ltb_spec b (a + i)),
      (Z.ltb_spec b' a), (Z.ltb_spec b' (a + i)); lia.
  - intros b' Hb'. specialize (Hout b' ltac:(apply elem_of_app; by left)).
    unfold collapse.
    destruct (Z.ltb_spec b a), (Z.ltb_spec b (a + i)),
      (Z.ltb_spec b' a), (Z.ltb_spec b' (a + i)); lia.
Qed.

Lemma shift_inside (x : Z) :
  x ∈ I →
  shift_below old_base old_comps x
  = x - a + shift_below new_base new_comps a.
Proof.
  intros Hx%I_values. rewrite shift_old, shift_new.
  rewrite (rank_contiguous_all I a x HndI I_values).
  rewrite !(shift_below_fmap (collapse a i) _ _ x).
  - destruct (Z.ltb_spec a a); lia.
  - intros b' Hb'. specialize (Hout b' ltac:(apply elem_of_app; by right)).
    unfold collapse.
    destruct (Z.ltb_spec b' a), (Z.ltb_spec b' (a + i)); lia.
  - intros b' Hb'. specialize (Hout b' ltac:(apply elem_of_app; by left)).
    unfold collapse.
    destruct (Z.ltb_spec b' a), (Z.ltb_spec b' (a + i)); lia.
Qed.

(** Merging an interval of singleton components into one component does
    not change what [inflate] builds. *)
Lemma flat_collapse : flat new_base new_comps = flat old_base old_comps.
Proof.
  pose proof shift_outside as Hso. pose proof shift_inside as Hsi.
  unfold flat, blocks.
  set (s' := shift_below new_base new_comps) in *.
  set (s := shift_below old_base old_comps) in *.
  rewrite !zip_with_app by (rewrite ?length_map, ?length_replicate; done).
  rewrite !concat_app. f_equal; [|f_equal].
  - f_equal. change (map (collapse a i) B1) with (collapse a i <$> B1).
    rewrite zip_with_fmap_l. apply zip_with_ext_lookup.
    intros k b c Hb _. apply map_ext_elem. intros x _.
    rewrite Hso; [done|]. apply Hout, elem_of_app. left.
    by eapply list_elem_of_lookup_2.
  - rewrite zip_with_replicate_r_eq by done. simpl.
    rewrite app_nil_r, map_map.
    change (flip (λ (b : Z) (c : list Z), map (λ x : Z, x + s b) c) [0] <$> I)
      with (map (λ b, [0 + s b]) I).
    rewrite concat_singletons. apply map_ext_elem. intros x Hx.
    rewrite (Hsi x Hx). lia.
  - f_equal. change (map (collapse a i) B3) with (collapse a i <$> B3).
    rewrite zip_with_fmap_l. apply zip_with_ext_lookup.
    intros k b c Hb _. apply map_ext_elem. intros x _.
    rewrite Hso; [done|]. apply Hout, elem_of_app. right.
    by eapply list_elem_of_lookup_2.
Qed.
End collapse.

Lemma collapse_spec (a i x : Z) :
  (x < a ∧ collapse a i x = x)
  ∨ (a ≤ x < a + i ∧ collapse a i x = a)
  ∨ (a + i ≤ x ∧ collapse a i x = x - (i - 1)).
Proof.
  unfold collapse.
  destruct (Z.ltb_spec x a); [by left|].
  destruct (Z.ltb_spec x (a + i)); [right; by left|right; by right].
Qed.

(** [L[:j] + [x] + L[i+j:]], position by position. *)
Lemma splice_lookup {A} (L : list A) (x : A) (i j : Z) (k : nat) :
  0 ≤ j → 1 ≤ i → j + i ≤ len L →
  (slice L 0 j ++ [x] ++ slice L (i + j) (len L)) !! k
  = if decide (k < Z.to_nat j)%nat then L !! k
    else if decide (k = Z.to_nat j) then Some x
         else L !! (k + Z.to_nat (i - 1))%nat.
Proof.
  intros Hj Hi Hij.
  assert (length (slice L 0 j) = Z.to_nat j) as Hl1
      by (rewrite slice_length; [f_equal|..]; lia).
  destruct (decide (k < Z.to_nat j)%nat) as [Hlt|Hge].
  - rewrite lookup_app_l by lia. unfold slice.
    rewrite lookup_take_lt by lia. by rewrite drop_0.
  - rewrite lookup_app_r by lia. rewrite Hl1.
    destruct (decide (k = Z.to_nat j)) as [->|Hne].
    + by rewrite Nat.sub_diag.
    + destruct (k - Z.to_nat j)%nat as [|m] eqn:Hm; [lia|]. simpl.
      unfold slice. rewrite lookup_take, lookup_drop.
      unfold len in *. case_decide as Hc.
      * f_equal. lia.
      * symmetry. apply lookup_ge_None. lia.
Qed.

Lemma splice_length {A} (L : list A) (x : A) (i j : Z) :
  0 ≤ j → 1 ≤ i → j + i ≤ len L →
  len (slice L 0 j ++ [x] ++ slice L (i + j) (len L)) = len L - i + 1.
Proof.
  intros Hj Hi Hij. unfold len in *.
  rewrite !length_app, !slice_length by (unfold len; lia). simpl. lia.
Qed.

(** Every position of a nontrivial interval of the base carries a
    singleton component. *)
Definition singles (base : list Z) (comps : list (list Z)) : Prop :=
  ∀ i j, 2 ≤ i < len base → 0 ≤ j ≤ len base - i →
         interval_test base i j = true →
         ∀ k, j ≤ k < j + i → comps !! Z.to_nat k = Some [0].

Section step.
Variables (base : list Z) (comps : list (list Z)) (i j : Z).
Hypothesis Hbase : is_perm base.
Hypothesis Hlen : length base = length comps.
Hypothesis Hi : 2 ≤ i < len base.
Hypothesis Hj : 0 ≤ j ≤ len base - i.
Hypothesis Htest : interval_test base i j = true.
Hypothesis Hmax : ∀ i' j', i < i' < len base → 0 ≤ j' ≤ len base - i' →
                          interval_test base i' j' = false.
Hypothesis Hsing : singles base comps.

Local Abbreviation n := (len base).
Local Abbreviation I := (slice base j (j + i)).
Local Abbreviation a := (seq_min (slice base j (j + i))).
Local Abbreviation raw :=
  (slice base 0 j ++ [base.[j]] ++ slice base (i + j) (len base)).
Local Abbreviation new_base := (map (collapse a i) raw).
Local Abbreviation new_comps :=
  (slice comps 0 j ++ [map (λ x, x - a) I]
   ++ slice comps (i + j) (len base)).

Lemma inside_values (k : Z) : j ≤ k < j + i → a ≤ base.[k] < a + i.
Proof.
  intros Hk.
  destruct (interval_test_values base i j) as (lo & Hval & _ & ->);
    [apply Hbase|lia..|done|]. by apply Hval.
Qed.

Lemma inside_onto (y : Z) : a ≤ y < a + i → ∃ k, j ≤ k < j + i ∧ base.[k] = y.
Proof.
  intros Hy.
  destruct (interval_test_values base i j) as (lo & _ & Hsurj & ->);
    [apply Hbase|lia..|done|]. by apply Hsurj.
Qed.

Lemma outside_values (k : Z) :
  0 ≤ k < n → ¬ (j ≤ k < j + i) → base.[k] < a ∨ a + i ≤ base.[k].
Proof.
  intros Hk Hout.
  destruct (decide (a ≤ base.[k] < a + i)) as [Hin|]; [|lia].
  destruct (inside_onto _ Hin) as (k2 & Hk2 & Heq).
  apply is_perm_inj in Heq; [lia|done|lia|lia].
Qed.

Lemma I_length : len I = i.
Proof. unfold len. rewrite slice_length by lia. lia. Qed.

Lemma I_bounds (x : Z) : x ∈ I → a ≤ x < a + len I.
Proof.
  rewrite I_length. intros (k & Hk & <-)%elem_of_slice; [|lia..].
  by apply inside_values.
Qed.

Lemma outside_bounds (b : Z) :
  b ∈ slice base 0 j ++ slice base (i + j) n → b < a ∨ a + len I ≤ b.
Proof.
  rewrite I_length.
  intros [(k & Hk & <-)%elem_of_slice|(k & Hk & <-)%elem_of_slice]%elem_of_app;
    try lia; apply outside_values; lia.
Qed.

Lemma I_head : I = base.[j] :: slice base (j + 1) (j + i).
Proof.
  unfold slice.
  replace (Z.to_nat (j + i - j)) with (S (Z.to_nat (j + i - (j + 1)))) by lia.
  rewrite (drop_S base base.[j] (Z.to_nat j)) by (apply lookup_znth; lia).
  simpl. do 3 f_equal. lia.
Qed.

Lemma raw_Permutation : raw ++ slice base (j + 1) (j + i) ≡ₚ base.
Proof.
  pose proof (slice_split3 base i j ltac:(lia) ltac:(lia) ltac:(lia)) as Hs.
  rewrite I_head in Hs. revert Hs.
  generalize (slice base 0 j) (slice base (j + 1) (j + i))
             (slice base (i + j) n) base.[j].
  intros B1 T B3 h ->.
  rewrite <- !app_assoc. apply Permutation_app_head. simpl.
  apply Permutation_cons; [done|]. apply Permutation_app_comm.
Qed.

Lemma raw_NoDup : NoDup raw.
Proof.
  destruct Hbase as [Hnd _]. rewrite <- raw_Permutation in Hnd.
  by apply NoDup_app in Hnd as [? _].
Qed.

Lemma raw_elem (x : Z) :
  x ∈ raw → 0 ≤ x < n ∧ (x < a ∨ x = base.[j] ∨ a + i ≤ x).
Proof.
  intros Hx. split.
  - apply Hbase. rewrite <- raw_Permutation. apply elem_of_app. by left.
  - pose proof outside_bounds as Hout. rewrite I_length in Hout.
    apply elem_of_app in Hx as [Hx|Hx].
    + destruct (Hout x); [apply elem_of_app; by left|lia..].
    + apply elem_of_cons in Hx as [->|Hx]; [lia|].
      destruct (Hout x); [apply elem_of_app; by right|lia..].
Qed.

Lemma rank_raw (x : Z) : x ∈ raw → rank x raw = collapse a i x.
Proof.
  intros Hx. destruct (raw_elem x Hx) as [Hxn Hcase].
  pose proof (rank_app x raw (slice base (j + 1) (j + i))) as Happ.
  rewrite (rank_Permutation _ _ _ raw_Permutation) in Happ.
  rewrite (rank_perm base x Hbase) in Happ by (by apply Hbase).
  assert (rank x I = Z.max 0 (Z.min (x - a) (len I))) as HrI.
  { apply rank_contiguous_all; [apply NoDup_slice, Hbase|].
    intros y. split; [apply I_bounds|]. intros Hy.
    apply (NoDup_bounded_full I a);
      [apply NoDup_slice, Hbase|apply I_bounds|done]. }
  rewrite I_length in HrI.
  assert (rank x I = (if bool_decide (base.[j] < x) then 1 else 0)
                     + rank x (slice base (j + 1) (j + i))) as Hc.
  { rewrite I_head. apply rank_cons. }
  pose proof (inside_values j ltac:(lia)).
  destruct (collapse_spec a i x) as [[? ->]|[[? ->]|[? ->]]];
    case_bool_decide; lia.
Qed.

Lemma new_base_std : standardize raw = Ok new_base.
Proof.
  rewrite standardize_NoDup by apply raw_NoDup. f_equal.
  apply map_ext_elem. apply rank_raw.
Qed.

Lemma comp_std : standardize I = Ok (map (λ x, x - a) I).
Proof.
  rewrite standardize_NoDup by apply NoDup_slice, Hbase. f_equal.
  apply map_ext_elem. intros x Hx.
  apply rank_contiguous; [apply NoDup_slice, Hbase| |].
  - intros y. split; [apply I_bounds|]. intros Hy.
    apply (NoDup_bounded_full I a);
      [apply NoDup_slice, Hbase|apply I_bounds|done].
  - apply I_bounds in Hx. lia.
Qed.

Lemma new_base_perm : is_perm new_base.
Proof. eapply standardize_is_perm, new_base_std. Qed.

Lemma new_base_len : len new_base = n - i + 1.
Proof. rewrite len_map. apply splice_length; lia. Qed.

Lemma new_lengths : length new_base = length new_comps.
Proof.
  pose proof new_base_len as H1.
  pose proof (splice_length comps (map (λ x, x - a) I) i j) as H2.
  unfold len in *. rewrite <- Hlen in H2. lia.
Qed.

Lemma new_comps_perm : Forall is_perm comps → Forall is_perm new_comps.
Proof.
  intros Hc. rewrite !Forall_app. split_and!.
  - unfold slice. by apply Forall_take, Forall_drop.
  - constructor; [|constructor]. eapply standardize_is_perm, comp_std.
  - unfold slice. by apply Forall_take, Forall_drop.
Qed.

Lemma comps_split :
  comps = slice comps 0 j ++ replicate (length I) [0]
          ++ slice comps (i + j) n.
Proof.
  assert (len comps = n) as Hl by (unfold len; lia).
  rewrite (slice_split3 comps i j) at 1 by lia. rewrite Hl.
  do 2 f_equal. apply list_eq. intros k.
  destruct (decide (k < Z.to_nat i)%nat) as [Hk|Hk].
  - rewrite lookup_replicate_2 by (rewrite slice_length; lia).
    unfold slice. rewrite lookup_take_lt by lia. rewrite lookup_drop.
    replace (Z.to_nat j + k)%nat with (Z.to_nat (j + Z.of_nat k)) by lia.
    apply (Hsing i j); [lia|lia|done|lia].
  - rewrite (proj1 (lookup_replicate_None _ _ _))
      by (rewrite slice_length; lia).
    apply lookup_ge_None. rewrite slice_length; lia.
Qed.

Lemma new_flat : flat new_base new_comps = flat base comps.
Proof.
  transitivity
    (flat (slice base 0 j ++ I ++ slice base (i + j) n)
          (slice comps 0 j ++ replicate (length I) [0]
           ++ slice comps (i + j) n)).
  - etransitivity;
      [|apply (flat_collapse (slice base 0 j) I (slice base (i + j) n)
                 (slice comps 0 j) (slice comps (i + j) n) a)].
    + rewrite I_length, !map_app. do 3 f_equal. simpl.
      pose proof (inside_values j ltac:(lia)).
      destruct (collapse_spec a i base.[j]) as [[? ?]|[[? ->]|[? ?]]];
        done || lia.
    + rewrite !slice_length; unfold len in *; lia.
    + rewrite !slice_length; unfold len in *; lia.
    + apply I_bounds.
    + apply outside_bounds.
    + apply NoDup_slice, Hbase.
  - f_equal; symmetry; [apply slice_split3; lia|apply comps_split].
Qed.

Lemma new_base_at (k : Z) :
  0 ≤ k < n - i + 1 →
  new_base.[k] = collapse a i base.[if k <=? j then k else k + i - 1].
Proof.
  intros Hk. apply znth_lookup; [lia|].
  change (map (collapse a i) raw) with (collapse a i <$> raw).
  rewrite list_lookup_fmap, splice_lookup by lia.
  destruct (Z.leb_spec k j).
  - destruct (decide (Z.to_nat k < Z.to_nat j)%nat).
    + rewrite lookup_znth by lia. done.
    + rewrite decide_True by lia. by replace k with j by lia.
  - rewrite decide_False by lia. rewrite decide_False by lia.
    replace (Z.to_nat k + Z.to_nat (i - 1))%nat with (Z.to_nat (k + i - 1))
      by lia.
    rewrite lookup_znth by lia. done.
Qed.

Lemma new_comps_at (k : Z) :
  0 ≤ k < n - i + 1 → k ≠ j →
  new_comps !! Z.to_nat k
  = comps !! Z.to_nat (if k <=? j then k else k + i - 1).
Proof.
  intros Hk Hne.
  assert (n = len comps) as -> by (unfold len; lia).
  assert (len comps = n) as Hl by (unfold len; lia).
  rewrite splice_lookup by lia.
  destruct (Z.leb_spec k j).
  - rewrite decide_True by lia. done.
  - rewrite decide_False by lia. rewrite decide_False by lia.
    f_equal. lia.
Qed.

(** The invariant survives the turn: an interval of the new base that
    covers the merged position would expand to an interval of the old base
    longer than the longest one, and any other interval of the new base is
    an interval of the old base. *)
Lemma new_singles : singles new_base new_comps.
Proof.
  intros i' j' Hi' Hj' Htest' k Hk.
  rewrite new_base_len in Hi', Hj'.
  destruct (interval_test_values new_base i' j') as (lo & Hval & Hsurj & _);
    [apply new_base_perm|lia|lia|rewrite new_base_len; lia|done|].
  assert (new_base.[j] = a) as Hja.
  { rewrite new_base_at by lia. rewrite Z.leb_refl.
    pose proof (inside_values j ltac:(lia)).
    destruct (collapse_spec a i base.[j]) as [[? ?]|[[? ?]|[? ?]]]; lia. }
  assert (∀ k', 0 ≤ k' < n - i + 1 → k' ≠ j →
    let x := base.[if k' <=? j then k' else k' + i - 1] in
    (x < a ∧ new_base.[k'] = x) ∨ (a + i ≤ x ∧ new_base.[k'] = x - (i - 1)))
    as Hother.
  { intros k' Hk' Hne x. rewrite new_base_at by lia. fold x.
    assert (x < a ∨ a + i ≤ x) as Hx.
    { apply outside_values; destruct (Z.leb_spec k' j); lia. }
    destruct (collapse_spec a i x) as [[? ?]|[[? ?]|[? ?]]]; lia. }
  destruct (decide (j' ≤ j < j' + i')) as [Hin|Hout].
  - exfalso.
    assert (interval_test base (i' + i - 1) j' = true) as Hlong.
    { apply (interval_test_bounded _ _ _ lo); [apply Hbase|lia..|].
      pose proof (Hval j Hin) as Hlo. rewrite Hja in Hlo.
      intros k0 Hk0. destruct (decide (j ≤ k0 < j + i)) as [Hk0in|Hk0out].
      - pose proof (inside_values k0 Hk0in). lia.
      - destruct (decide (k0 < j)) as [Hlt|Hge].
        + pose proof (Hother k0 ltac:(lia) ltac:(lia)) as Hx. cbv zeta in Hx.
          pose proof (Hval k0 ltac:(lia)).
          destruct (Z.leb_spec k0 j); [|lia]. lia.
        + pose proof (Hother (k0 - i + 1) ltac:(lia) ltac:(lia)) as Hx.
          cbv zeta in Hx. pose proof (Hval (k0 - i + 1) ltac:(lia)).
          destruct (Z.leb_spec (k0 - i + 1) j); [lia|].
          replace (k0 - i + 1 + i - 1) with k0 in Hx by lia. lia. }
    rewrite Hmax in Hlong by lia. done.
  - assert (¬ (lo ≤ a < lo + i')) as Ha.
    { intros Ha. destruct (Hsurj a Ha) as (k2 & Hk2 & Heq).
      assert (k2 = j); [|lia].
      apply (is_perm_inj new_base);
        [apply new_base_perm|rewrite new_base_len; lia..|by rewrite Hja]. }
    rewrite new_comps_at by lia.
    set (shift := if j' <=? j then 0 else i - 1).
    assert (∀ k', j' ≤ k' < j' + i' →
                  (if k' <=? j then k' else k' + i - 1) = k' + shift) as Hpos.
    { intros k' Hk'. unfold shift.
      destruct (Z.leb_spec k' j), (Z.leb_spec j' j); lia. }
    rewrite Hpos by done.
    apply (Hsing i' (j' + shift)); [lia| |  |lia].
    + unfold shift. destruct (Z.leb_spec j' j); lia.
    + apply (interval_test_bounded _ _ _ (if a <? lo then lo + (i - 1) else lo));
        [apply Hbase|lia| | |].
      * unfold shift. destruct (Z.leb_spec j' j); lia.
      * unfold shift. destruct (Z.leb_spec j' j); lia.
      * intros k0 Hk0.
        pose proof (Hother (k0 - shift) ltac:(unfold shift;
          destruct (Z.leb_spec j' j); lia) ltac:(unfold shift;
          destruct (Z.leb_spec j' j); lia)) as Hx.
        cbv zeta in Hx. rewrite Hpos in Hx by lia.
        replace (k0 - shift + shift) with k0 in Hx by lia.
        pose proof (Hval (k0 - shift) ltac:(lia)).
        destruct (Z.ltb_spec a lo); lia.
Qed.

(** One turn of the loop of [decomposition], when [maximal_interval]
    returns [(i, j)]. *)
Lemma turn :
  Forall is_perm comps → is_simple base = false →
  maximal_interval base = (i, j) →
  ∃ nb nc,
    (∀ fuel, decomposition_loop (S fuel) base comps
             = decomposition_loop fuel nb nc)
    ∧ is_perm nb ∧ length nb = length nc ∧ Forall is_perm nc
    ∧ flat nb nc = flat base comps ∧ singles nb nc
    ∧ (length nb < length base)%nat.
Proof.
  intros Hcomps Hs Hm. exists new_base, new_comps. split_and!.
  - intros fuel. cbn [decomposition_loop]. rewrite Hs, Hm.
    assert ((len base =? len comps) = true) as ->
        by (apply Z.eqb_eq; unfold len; lia).
    assert ((i =? 0) = false) as -> by (apply Z.eqb_neq; lia).
    cbn [assert negb mbind result_bind].
    rewrite py_get_ok by lia. cbn [mbind result_bind].
    replace (i + j) with (j + i) at 1 by lia.
    rewrite comp_std. cbn [mbind result_bind].
    rewrite <- !app_assoc. rewrite new_base_std. cbn [mbind result_bind].
    done.
  - apply new_base_perm.
  - apply new_lengths.
  - by apply new_comps_perm.
  - apply new_flat.
  - apply new_singles.
  - pose proof new_base_len as H. unfold len in *. lia.
Qed.
End step.

Lemma maximal_interval_zero (P : list Z) (i j : Z) :
  maximal_interval P = (i, j) → i = 0 → no_interval P.
Proof.
  intros H ->. apply maximal_interval_none. revert H.
  unfold maximal_interval.
  destruct (find_first _ _) as [[i0 j0]|] eqn:Hf; [|done].
  intros [= -> ->]. apply maximal_interval_found in Hf. lia.
Qed.

Lemma flat_singletons (P : list Z) :
  is_perm P → flat P (replicate (length P) [0]) = P.
Proof.
  intros HP. unfold flat, blocks.
  rewrite zip_with_replicate_r_eq by done.
  set (s := shift_below P (replicate (length P) [0])).
  change (flip (λ (b : Z) (c : list Z), map (λ x : Z, x + s b) c) [0] <$> P)
    with (map (λ b, [0 + s b]) P).
  rewrite concat_singletons. apply map_id_on. intros x Hx.
  unfold s. rewrite shift_below_ones, rank_perm by done. lia.
Qed.

Lemma singles_singletons (P : list Z) : singles P (replicate (length P) [0]).
Proof.
  intros i j Hi Hj _ k Hk. apply lookup_replicate_2. unfold len in *. lia.
Qed.

(** The loop of [decomposition] ends within its fuel, and what [inflate]
    builds from the base and the components is the same after each turn. *)
Lemma decomposition_loop_ok (fuel : nat) :
  ∀ base comps,
    is_perm base → length base = length comps → Forall is_perm comps →
    singles base comps → (length base < fuel)%nat →
    ∃ b c, decomposition_loop fuel base comps = Ok (b, c)
           ∧ is_perm b ∧ length b = length c ∧ Forall is_perm c
           ∧ flat b c = flat base comps ∧ is_simple b = true.
Proof.
  induction fuel as [|fuel IH];
    intros base comps Hbase Hlen Hcomps Hsing Hfuel; [lia|].
  destruct (is_simple base) eqn:Hs.
  - exists base, comps. cbn [decomposition_loop]. by rewrite Hs.
  - destruct (maximal_interval base) as [i j] eqn:Hm.
    assert (i ≠ 0) as Hi0.
    { intros Hi0. apply (maximal_interval_zero _ _ _ Hm) in Hi0.
      apply is_simple_spec in Hi0. congruence. }
    destruct (maximal_interval_some base i j Hm Hi0) as (Hi & Hj & Ht & Hmx).
    destruct (turn base comps i j Hbase Hlen Hi Hj Ht Hmx Hsing Hcomps Hs Hm)
      as (nb & nc & Hturn & Hnb & Hnl & Hnc & Hnf & Hns & Hlt).
    destruct (IH nb nc Hnb Hnl Hnc Hns ltac:(lia))
      as (b & c & Hloop & Hb & Hl & Hc & Hf & Hsb).
    exists b, c. rewrite Hturn, Hloop. split_and!; try done.
    by rewrite Hf.
Qed.

Lemma is_perm_singleton : is_perm [0].
Proof. apply is_permb_spec. reflexivity. Qed.

(** C2. For every permutation [P], [decomposition P] returns a pair
    [(base, components)], and [inflate base components] gives back [P]
    exactly: inflation is a left inverse of the substitution
    decomposition. *)
Theorem decomposition_inflate (P : list Z) :
  is_perm P →
  ∃ base components,
    decomposition P = Ok (base, components)
    ∧ inflate base components = Ok P.
Proof.
  intros HP. unfold decomposition. cbv zeta.
  rewrite singletons_Ok. cbn [mbind result_bind].
  unfold len. rewrite Nat2Z.id.
  destruct (decomposition_loop_ok (S (length P)) P (replicate (length P) [0]))
    as (b & c & Hloop & Hb & Hl & Hc & Hf & _).
  - done.
  - by rewrite length_replicate.
  - apply Forall_replicate, is_perm_singleton.
  - apply singles_singletons.
  - lia.
  - exists b, c. split; [done|].
    rewrite inflate_ok by done. f_equal.
    rewrite Hf. by apply flat_singletons.
Qed.

Lemma decomposition_inflate_witness :
  ∃ base components,
    decomposition [2;0;1;3;5;4] = Ok (base, components)
    ∧ inflate base components = Ok [2;0;1;3;5;4].
Proof.
  apply (decomposition_inflate [2;0;1;3;5;4]).
  apply is_permb_spec. vm_compute. reflexivity.
Defined.

(** * More of the class, verified *)

(** ** Subscripts and ranges *)

Lemma znth_map (f : Z → Z) (L : list Z) (i : Z) :
  0 ≤ i < len L → (map f L).[i] = f L.[i].
Proof.
  intros Hi. apply znth_lookup; [lia|].
  change (map f L) with (f <$> L).
  by rewrite list_lookup_fmap, lookup_znth.
Qed.

Lemma znth_range (a b i : Z) : 0 ≤ i < b - a → (range a b).[i] = a + i.
Proof.
  intros Hi. apply znth_lookup; [lia|]. apply range_lookup. lia.
Qed.

Lemma len_range (a b : Z) : len (range a b) = Z.max 0 (b - a).
Proof. unfold len, range. rewrite length_seqZ. lia. Qed.

Lemma znth_reverse (L : list Z) (i : Z) :
  0 ≤ i < len L → (reverse L).[i] = L.[len L - 1 - i].
Proof.
  intros Hi. apply znth_lookup; [lia|]. unfold len in *.
  rewrite reverse_lookup by lia.
  replace (length L - S (Z.to_nat i))%nat
    with (Z.to_nat (Z.of_nat (length L) - 1 - i)) by lia.
  apply lookup_znth. unfold len. lia.
Qed.

Lemma list_eq_znth (L K : list Z) :
  len L = len K → (∀ i, 0 ≤ i < len L → L.[i] = K.[i]) → L = K.
Proof.
  intros Hl H. apply list_eq. intros i.
  destruct (decide (i < length L)%nat) as [Hi|Hi].
  - rewrite <- (Nat2Z.id i).
    rewrite !lookup_znth by (unfold len in *; lia).
    f_equal. apply H. unfold len. lia.
  - rewrite !(proj2 (lookup_ge_None _ _)); [done|unfold len in *; lia..].
Qed.

Lemma is_perm_range (n : Z) : is_perm (range 0 n).
Proof.
  split; [apply NoDup_seqZ|]. intros x.
  rewrite elem_of_range, len_range. lia.
Qed.

Lemma range_down_reverse (a b : Z) :
  range_down a b = reverse (range (b + 1) (a + 1)).
Proof.
  unfold range_down. apply list_eq_znth.
  - change (map ?f ?l) with (f <$> l).
    unfold len. rewrite length_fmap, length_reverse.
    fold (len (range 0 (a - b))). fold (len (range (b + 1) (a + 1))).
    rewrite !len_range. lia.
  - intros i Hi. rewrite len_map, len_range in Hi.
    rewrite znth_map by (rewrite len_range; lia).
    rewrite znth_reverse by (rewrite len_range; lia).
    rewrite len_range, !znth_range by lia. lia.
Qed.

Lemma is_perm_Permutation (L K : list Z) : L ≡ₚ K → is_perm L → is_perm K.
Proof.
  intros HP [Hnd Hin]. split; [by rewrite <- HP|].
  intros x. unfold len. rewrite <- HP. apply Hin.
Qed.

(** ** The symmetries *)

Lemma complement_len (P : list Z) : len (Perm.complement P) = len P.
Proof. unfold Perm.complement. apply len_map. Qed.

Lemma complement_znth (P : list Z) (i : Z) :
  0 ≤ i < len P → (Perm.complement P).[i] = len P - 1 - P.[i].
Proof. intros Hi. unfold Perm.complement. by rewrite znth_map. Qed.

Lemma complement_involutive (P : list Z) :
  Perm.complement (Perm.complement P) = P.
Proof.
  apply list_eq_znth; rewrite !complement_len; [done|].
  intros i Hi. rewrite !complement_znth by (rewrite ?complement_len; lia).
  rewrite complement_len. lia.
Qed.

Lemma complement_is_perm (P : list Z) : is_perm P → is_perm (Perm.complement P).
Proof.
  intros [Hnd Hin]. unfold Perm.complement.
  apply (is_perm_intro _ (len P)); [|apply len_nonneg|].
  - apply (NoDup_fmap_2_strong (λ i, len P - 1 - i)); [intros; lia|done].
  - intros y. rewrite list_elem_of_fmap. split.
    + intros (x & -> & Hx%Hin). lia.
    + intros Hy. exists (len P - 1 - y). split; [lia|]. apply Hin. lia.
Qed.

Lemma reverse_is_perm (P : list Z) : is_perm P → is_perm (Perm.reverse P).
Proof. apply is_perm_Permutation. unfold Perm.reverse. by rewrite reverse_Permutation. Qed.

(** X1. [complement] and [reverse] send a permutation to a permutation,
    each undoes itself (the docstring's
    [p == p.complement().complement()]), and the two commute. *)
Theorem symmetries_involutive (P : list Z) :
  is_perm P →
  is_perm (Perm.complement P) ∧ is_perm (Perm.reverse P)
  ∧ Perm.complement (Perm.complement P) = P
  ∧ Perm.reverse (Perm.reverse P) = P
  ∧ Perm.reverse (Perm.complement P) = Perm.complement (Perm.reverse P).
Proof.
  intros HP. split_and!.
  - by apply complement_is_perm.
  - by apply reverse_is_perm.
  - apply complement_involutive.
  - apply reverse_involutive.
  - unfold Perm.reverse, Perm.complement.
    change (map ?f ?l) with (f <$> l).
    rewrite fmap_reverse. unfold len. by rewrite length_reverse.
Qed.

Lemma symmetries_involutive_witness :
  is_perm (Perm.complement [1;2;0;3]) ∧ is_perm (Perm.reverse [1;2;0;3])
  ∧ Perm.complement (Perm.complement [1;2;0;3]) = [1;2;0;3]
  ∧ Perm.reverse (Perm.reverse [1;2;0;3]) = [1;2;0;3]
  ∧ Perm.reverse (Perm.complement [1;2;0;3])
    = Perm.complement (Perm.reverse [1;2;0;3]).
Proof.
  apply (symmetries_involutive [1;2;0;3]).
  apply is_permb_spec. vm_compute. reflexivity.
Defined.

(** X2. For [0 <= n], [monotone_increasing(n)] and
    [monotone_decreasing(n)] are permutations of length [n], each the
    complement and the reverse of the other. *)
Theorem monotone_symmetric (n : Z) :
  0 ≤ n →
  is_perm (monotone_increasing n) ∧ is_perm (monotone_decreasing n)
  ∧ len (monotone_increasing n) = n ∧ len (monotone_decreasing n) = n
  ∧ Perm.reverse (monotone_increasing n) = monotone_decreasing n
  ∧ Perm.complement (monotone_increasing n) = monotone_decreasing n.
Proof.
  intros Hn. unfold monotone_increasing, monotone_decreasing.
  rewrite range_down_reverse.
  replace (-1 + 1) with 0 by lia. replace (n - 1 + 1) with n by lia.
  split_and!.
  - apply is_perm_range.
  - apply (reverse_is_perm _ (is_perm_range n)).
  - rewrite len_range. lia.
  - unfold len. rewrite length_reverse. fold (len (range 0 n)).
    rewrite len_range. lia.
  - done.
  - apply list_eq_znth.
    + rewrite complement_len. unfold len. by rewrite length_reverse.
    + intros i Hi. rewrite complement_len, len_range in Hi.
      rewrite complement_znth, znth_reverse by (rewrite len_range; lia).
      rewrite len_range, !znth_range by lia. lia.
Qed.

Lemma monotone_symmetric_witness :
  is_perm (monotone_increasing 5) ∧ is_perm (monotone_decreasing 5)
  ∧ len (monotone_increasing 5) = 5 ∧ len (monotone_decreasing 5) = 5
  ∧ Perm.reverse (monotone_increasing 5) = monotone_decreasing 5
  ∧ Perm.complement (monotone_increasing 5) = monotone_decreasing 5.
Proof. apply (monotone_symmetric 5). lia. Defined.

Lemma range_app_shift (n m : Z) :
  0 ≤ n → 0 ≤ m → range 0 (n + m) = range 0 n ++ map (λ i, i + n) (range 0 m).
Proof.
  intros Hn Hm. unfold range. rewrite !Z.sub_0_r.
  rewrite seqZ_app by lia. f_equal.
  replace (0 + n) with (n + 0) by lia.
  rewrite <- (fmap_add_seqZ n 0 m).
  apply map_ext_elem. intros; lia.
Qed.

(** X3. The direct sum of two increasing permutations is the increasing
    permutation of the total length, and the skew sum of two decreasing
    ones is the decreasing one (the docstrings' [p + p] and [p - p]). *)
Theorem monotone_sums (n m : Z) :
  0 ≤ n → 0 ≤ m →
  add (monotone_increasing n) (monotone_increasing m)
  = monotone_increasing (n + m)
  ∧ sub (monotone_decreasing n) (monotone_decreasing m)
    = monotone_decreasing (n + m).
Proof.
  intros Hn Hm. unfold monotone_increasing, monotone_decreasing.
  rewrite !range_down_reverse.
  replace (-1 + 1) with 0 by lia. replace (n - 1 + 1) with n by lia.
  replace (m - 1 + 1) with m by lia.
  replace (n + m - 1 + 1) with (m + n) by lia.
  split.
  - unfold add. rewrite len_range, Z.max_r, Z.sub_0_r by lia.
    replace (m + n) with (n + m) by lia. by rewrite range_app_shift.
  - unfold sub. unfold len at 1. rewrite length_reverse.
    fold (len (range 0 m)). rewrite len_range, Z.max_r, Z.sub_0_r by lia.
    rewrite range_app_shift, reverse_app by lia. f_equal.
    change (map ?f ?l) with (f <$> l). by rewrite fmap_reverse.
Qed.

Lemma monotone_sums_witness :
  add (monotone_increasing 10) (monotone_increasing 10)
  = monotone_increasing (10 + 10)
  ∧ sub (monotone_decreasing 10) (monotone_decreasing 10)
    = monotone_decreasing (10 + 10).
Proof. apply (monotone_sums 10 10); lia. Defined.

(** ** Insertion and deletion *)

Lemma filter_ne_all (l : list Z) (v : Z) :
  Forall (λ x, x ≠ v) l → filter (λ x, x ≠ v) l = l.
Proof.
  intros H. apply filter_ne_absent. rewrite Forall_forall in H.
  intros Hv. by apply (H v).
Qed.

Lemma list_insert_inside {A} (L : list A) (idx : Z) (x : A) :
  0 ≤ idx ≤ len L →
  list_insert L idx x = take (Z.to_nat idx) L ++ x :: drop (Z.to_nat idx) L.
Proof.
  intros H. unfold list_insert.
  destruct (Z.ltb_spec idx 0); [lia|]. by rewrite Z.min_l by lia.
Qed.

Lemma list_insert_Permutation {A} (L : list A) (idx : Z) (x : A) :
  list_insert L idx x ≡ₚ x :: L.
Proof.
  unfold list_insert. rewrite <- Permutation_middle. by rewrite take_drop.
Qed.

Lemma contains_refl (P : list Z) : contains P P.
Proof.
  exists (range 0 (len P)).
  assert (∀ a, 0 ≤ a < len P → (range 0 (len P)).[a] = a) as Hnth.
  { intros a Ha. rewrite znth_range by lia. lia. }
  split_and!.
  - rewrite len_range. pose proof (len_nonneg P). lia.
  - intros a Ha. rewrite Hnth; lia.
  - intros a b Hab Hb. rewrite !Hnth; lia.
  - intros a b Ha Hb. by rewrite !Hnth.
Qed.

Section inserting.
Variables (P : list Z) (val : Z).

Local Abbreviation bump := (λ old_val : Z, if old_val <? val then old_val else old_val + 1).
Local Abbreviation unbump := (λ old_val : Z, if old_val <? val then old_val else old_val - 1).

Lemma bump_ne : Forall (λ x, x ≠ val) (map bump P).
Proof.
  apply Forall_forall. intros x (y & -> & _)%list_elem_of_fmap.
  destruct (Z.ltb_spec y val); lia.
Qed.

Lemma unbump_bump : map unbump (map bump P) = P.
Proof.
  rewrite map_map. apply map_id_on. intros x _.
  destruct (Z.ltb_spec x val) as [H|H].
  - by destruct (Z.ltb_spec x val); [|lia].
  - destruct (Z.ltb_spec (x + 1) val); lia.
Qed.

Lemma insert_delete (idx : Z) :
  0 ≤ idx ≤ len P →
  delete (Perm.insert P idx val) (Some (AnInt idx)) None = Ok P.
Proof.
  intros Hidx. unfold Perm.insert, delete.
  rewrite list_insert_inside by (by rewrite len_map).
  assert (length (take (Z.to_nat idx) (map bump P)) = Z.to_nat idx) as Hlt.
  { rewrite length_take, length_map. unfold len in *. lia. }
  rewrite (py_get_lookup _ _ val); [|lia|].
  2:{ rewrite lookup_app_r by lia. by rewrite Hlt, Nat.sub_diag. }
  cbn [mbind result_bind]. f_equal. unfold delete_value.
  rewrite filter_app, filter_cons_False by (intros ?; done).
  rewrite !filter_ne_all by (apply Forall_take || apply Forall_drop; apply bump_ne).
  rewrite take_drop. apply unbump_bump.
Qed.

Lemma insert_is_perm (idx : Z) :
  is_perm P → 0 ≤ val ≤ len P → is_perm (Perm.insert P idx val).
Proof.
  intros [Hnd Hin] Hval. unfold Perm.insert.
  apply (is_perm_Permutation (val :: map bump P));
    [by rewrite list_insert_Permutation|].
  apply (is_perm_intro _ (len P + 1)); [|lia|].
  - apply NoDup_cons. split.
    + pose proof bump_ne as H. rewrite Forall_forall in H.
      intros Hv. by apply (H val).
    + apply (NoDup_fmap_2_strong bump); [|done].
      intros x y _ _. destruct (Z.ltb_spec x val), (Z.ltb_spec y val); lia.
  - intros y. rewrite elem_of_cons, list_elem_of_fmap. split.
    + intros [->|(x & -> & Hx%Hin)]; [lia|].
      destruct (Z.ltb_spec x val); lia.
    + intros Hy. destruct (Z.lt_trichotomy y val) as [H|[H|H]].
      * right. exists y. split; [|apply Hin; lia].
        destruct (Z.ltb_spec y val); lia.
      * by left.
      * right. exists (y - 1). split; [|apply Hin; lia].
        destruct (Z.ltb_spec (y - 1) val); lia.
Qed.

Lemma insert_len (idx : Z) : len (Perm.insert P idx val) = len P + 1.
Proof.
  unfold Perm.insert, len. rewrite list_insert_Permutation.
  simpl. rewrite length_map. lia.
Qed.
End inserting.

(** X4. Deleting the position where an entry was just inserted gives the
    permutation back (the docstring's
    [p == p.insert(4, 7).delete(indices = 4)]): for every sequence, every
    value and every position [0 <= idx <= len]. *)
Theorem insert_then_delete (P : list Z) (idx val : Z) :
  0 ≤ idx ≤ len P →
  delete (Perm.insert P idx val) (Some (AnInt idx)) None = Ok P.
Proof. apply insert_delete. Qed.

Lemma insert_then_delete_witness :
  delete (Perm.insert [1;3;0;2] 2 1) (Some (AnInt 2)) None = Ok [1;3;0;2].
Proof. apply (insert_then_delete [1;3;0;2] 2 1). unfold len. simpl. lia. Defined.

(** X5. Inserting a value [0 <= val <= len] at a position
    [0 <= idx <= len] of a permutation gives a permutation one longer
    that contains the old one as a pattern. *)
Theorem insert_covers (P : list Z) (idx val : Z) :
  is_perm P → 0 ≤ idx ≤ len P → 0 ≤ val ≤ len P →
  is_perm (Perm.insert P idx val)
  ∧ len (Perm.insert P idx val) = len P + 1
  ∧ involved_in P (Perm.insert P idx val) 0 = Ok true.
Proof.
  intros HP Hidx Hval.
  pose proof (insert_is_perm P val idx HP Hval) as HQ.
  pose proof (insert_len P val idx) as Hlen.
  split_and!; [done..|].
  destruct (involved_in_contains P (Perm.insert P idx val) HP) as (b & -> & Hb).
  f_equal. apply Hb.
  apply (contains_delete_value (Perm.insert P idx val) idx HQ ltac:(lia)).
  pose proof (insert_delete P val idx Hidx) as Hdel. unfold delete in Hdel.
  rewrite py_get_ok in Hdel by lia. cbn [mbind result_bind] in Hdel.
  injection Hdel as ->. apply contains_refl.
Qed.

Lemma insert_covers_witness :
  is_perm (Perm.insert [1;3;0;2] 2 1)
  ∧ len (Perm.insert [1;3;0;2] 2 1) = len [1;3;0;2] + 1
  ∧ involved_in [1;3;0;2] (Perm.insert [1;3;0;2] 2 1) 0 = Ok true.
Proof.
  apply (insert_covers [1;3;0;2] 2 1).
  - apply is_permb_spec. vm_compute. reflexivity.
  - unfold len. simpl. lia.
  - unfold len. simpl. lia.
Defined.

(** *** The four ways to delete one entry *)

Lemma enumerate_keep_all {A} (l : list A) (g : nat → nat) (t : nat) :
  (∀ idx, g idx ≠ t) →
  map snd (filter (λ iv : nat * A, Z.of_nat (fst iv) ∉ [Z.of_nat t])
                  (imap (λ idx val, (g idx, val)) l)) = l.
Proof.
  revert g. induction l as [|x l IH]; intros g Hg; [done|].
  rewrite imap_cons, filter_cons_True.
  - simpl. f_equal. apply (IH (g ∘ S)). intros idx. apply Hg.
  - simpl. rewrite list_elem_of_singleton. specialize (Hg 0%nat). lia.
Qed.

Lemma enumerate_drop_one {A} (l : list A) (g : nat → nat) (i : nat) :
  Inj (=) (=) g →
  map snd (filter (λ iv : nat * A, Z.of_nat (fst iv) ∉ [Z.of_nat (g i)])
                  (imap (λ idx val, (g idx, val)) l))
  = take i l ++ drop (S i) l.
Proof.
  revert g i. induction l as [|x l IH]; intros g i Hg.
  - by rewrite take_nil, drop_nil.
  - rewrite imap_cons. destruct i as [|i].
    + rewrite filter_cons_False
        by (simpl; rewrite list_elem_of_singleton; intros H; by apply H).
      simpl. rewrite drop_0. apply (enumerate_keep_all l (g ∘ S) (g 0%nat)).
      intros idx Heq. by apply Hg in Heq.
    + rewrite filter_cons_True.
      * simpl. f_equal. apply (IH (g ∘ S) i). intros a b Hab.
        apply Hg in Hab. lia.
      * simpl. rewrite list_elem_of_singleton. intros Heq.
        apply Nat2Z.inj, Hg in Heq. done.
Qed.

Section deleting.
Variables (P : list Z) (i : Z).
Hypothesis HP : is_perm P.
Hypothesis Hi : 0 ≤ i < len P.

Local Abbreviation v := (P.[i]).
Local Abbreviation rest := (take (Z.to_nat i) P ++ drop (S (Z.to_nat i)) P).

Lemma rest_filter : filter (λ x, x ≠ v) P = rest.
Proof. apply filter_ne_NoDup; [apply HP|by apply lookup_znth]. Qed.

Lemma rest_Permutation : v :: rest ≡ₚ P.
Proof.
  rewrite Permutation_middle.
  rewrite <- (drop_S P v (Z.to_nat i)) by (by apply lookup_znth).
  by rewrite take_drop.
Qed.

Lemma rest_std : standardize rest = Ok (delete_value P v).
Proof.
  assert (NoDup (v :: rest)) as Hnd by (rewrite rest_Permutation; apply HP).
  apply NoDup_cons in Hnd as [Hv Hnd].
  rewrite standardize_NoDup by done. f_equal.
  unfold delete_value. rewrite rest_filter. apply map_ext_elem.
  intros x Hx.
  assert (x ∈ P) as HxP by (rewrite <- rest_Permutation; by right).
  pose proof (rank_perm P x HP HxP) as Hr.
  rewrite <- (rank_Permutation x _ _ rest_Permutation), rank_cons in Hr.
  assert (x ≠ v) by (by intros ->).
  destruct (Z.ltb_spec x v); case_bool_decide; lia.
Qed.

Lemma delete_agree :
  delete P (Some (AnInt i)) None = Ok (delete_value P v)
  ∧ delete P (Some (AnIter [i])) None = Ok (delete_value P v)
  ∧ delete P None (Some (AnInt v)) = Ok (delete_value P v)
  ∧ delete P None (Some (AnIter [v])) = Ok (delete_value P v).
Proof.
  unfold delete. split_and!.
  - by rewrite py_get_ok.
  - pose proof (enumerate_drop_one P id (Z.to_nat i) _) as H.
    unfold id in H. rewrite Z2Nat.id in H by lia. rewrite H.
    apply rest_std.
  - done.
  - rewrite <- rest_std, <- rest_filter. f_equal.
    apply list_filter_iff. intros x. by rewrite list_elem_of_singleton.
Qed.

Lemma delete_value_is_perm : is_perm (delete_value P v).
Proof. eapply standardize_is_perm, rest_std. Qed.

Lemma delete_value_contained : involved_in (delete_value P v) P 0 = Ok true.
Proof.
  destruct (involved_in_contains (delete_value P v) P delete_value_is_perm)
    as (b & -> & Hb).
  f_equal. apply Hb. apply (contains_delete_value P i HP Hi), contains_refl.
Qed.
End deleting.

(** X6. For a permutation, the four ways to ask [delete] for one entry
    agree: by its position, by a list holding its position, by its
    value, and by a list holding its value (the docstring's
    [delete(indices=[2]) == delete(values=1)]). The two that go through
    [standardize] raise nothing. *)
Theorem delete_branches_agree (P : list Z) (i : Z) :
  is_perm P → 0 ≤ i < len P →
  ∃ Q, delete P (Some (AnInt i)) None = Ok Q
       ∧ delete P (Some (AnIter [i])) None = Ok Q
       ∧ delete P None (Some (AnInt P.[i])) = Ok Q
       ∧ delete P None (Some (AnIter [P.[i]])) = Ok Q.
Proof.
  intros HP Hi. exists (delete_value P P.[i]). by apply delete_agree.
Qed.

Lemma delete_branches_agree_witness :
  ∃ Q, delete [2;4;1;0;3] (Some (AnInt 2)) None = Ok Q
       ∧ delete [2;4;1;0;3] (Some (AnIter [2])) None = Ok Q
       ∧ delete [2;4;1;0;3] None (Some (AnInt [2;4;1;0;3].[2])) = Ok Q
       ∧ delete [2;4;1;0;3] None (Some (AnIter [[2;4;1;0;3].[2]])) = Ok Q.
Proof.
  apply (delete_branches_agree [2;4;1;0;3] 2).
  - apply is_permb_spec. vm_compute. reflexivity.
  - unfold len. simpl. lia.
Defined.

(** X7. Every element of [covers()] of a permutation is a permutation one
    shorter that the permutation contains as a pattern. *)
Theorem covers_contained (P Q : list Z) :
  is_perm P → Q ∈ Perm.covers P →
  is_perm Q ∧ len Q = len P - 1 ∧ involved_in Q P 0 = Ok true.
Proof.
  intros HP HQ. unfold Perm.covers in HQ.
  apply list_elem_of_fmap in HQ as (val & -> & Hval).
  apply elem_of_znth in Hval as (i & Hi & <-).
  split_and!.
  - by apply delete_value_is_perm.
  - by apply delete_value_len.
  - by apply delete_value_contained.
Qed.

Lemma covers_contained_witness :
  is_perm [1;3;0;2] ∧ len [1;3;0;2] = len [2;4;1;0;3] - 1
  ∧ involved_in [1;3;0;2] [2;4;1;0;3] 0 = Ok true.
Proof.
  apply (covers_contained [2;4;1;0;3] [1;3;0;2]).
  - apply is_permb_spec. vm_compute. reflexivity.
  - vm_compute. apply list_elem_of_In. simpl. tauto.
Defined.

(** ** Inverse, product and powers *)

Lemma inverse_fold (l : list Z) :
  ∀ (g : nat → Z) (q : list Z),
    (∀ x, x ∈ l → 0 ≤ x < len q) → NoDup l →
    ∃ q', foldM (λ q '(idx, val), py_set q val idx) q
                (imap (λ idx val, (g idx, val)) l) = Ok q'
          ∧ len q' = len q
          ∧ (∀ k x, l !! k = Some x → q'.[x] = g k)
          ∧ (∀ y, 0 ≤ y → y ∉ l → q'.[y] = q.[y]).
Proof.
  induction l as [|x l IH]; intros g q Hin Hnd.
  - exists q. split_and!; try done.
  - apply NoDup_cons in Hnd as [Hx Hnd].
    pose proof (Hin x ltac:(left)) as Hxq.
    rewrite imap_cons. cbn [foldM]. rewrite py_set_ok by done.
    cbn [mbind result_bind].
    destruct (IH (g ∘ S) (<[Z.to_nat x := g 0%nat]> q))
      as (q' & Hq' & Hlen & Hset & Hkeep).
    { intros y Hy. rewrite len_insert. apply Hin. by right. }
    { done. }
    exists q'. rewrite len_insert in Hlen. split_and!; try done.
    + intros [|k] y Hk; simpl in Hk.
      * injection Hk as <-. rewrite Hkeep by (done || lia).
        by rewrite znth_insert_eq.
      * by apply (Hset k).
    + intros y Hy Hny. apply not_elem_of_cons in Hny as [Hne Hny].
      rewrite Hkeep by done. apply znth_insert_ne; lia.
Qed.

Lemma inverse_Ok (P : list Z) :
  is_perm P →
  ∃ Q, Perm.inverse P = Ok Q ∧ len Q = len P
       ∧ ∀ i, 0 ≤ i < len P → Q.[P.[i]] = i.
Proof.
  intros [Hnd Hin]. unfold Perm.inverse, enumerate.
  destruct (inverse_fold P Z.of_nat (replicate (length P) 0))
    as (Q & HQ & Hlen & Hset & _).
  - intros x Hx%Hin. by rewrite len_replicate.
  - done.
  - exists Q. rewrite len_replicate in Hlen. split_and!; try done.
    intros i Hi. rewrite (Hset (Z.to_nat i) P.[i]) by (by apply lookup_znth).
    lia.
Qed.

(** What a left inverse of a permutation is. *)
Lemma left_inverse_props (P Q : list Z) :
  is_perm P → len Q = len P → (∀ i, 0 ≤ i < len P → Q.[P.[i]] = i) →
  is_perm Q ∧ ∀ v, 0 ≤ v < len P → 0 ≤ Q.[v] < len P ∧ P.[Q.[v]] = v.
Proof.
  intros HP Hlen Hinv.
  assert (∀ v, 0 ≤ v < len P → 0 ≤ Q.[v] < len P ∧ P.[Q.[v]] = v) as Hback.
  { intros v Hv. apply HP, elem_of_znth in Hv as (i & Hi & <-).
    rewrite Hinv by done. done. }
  split; [|done].
  assert (NoDup Q) as Hnd.
  { apply NoDup_alt. intros a b x Ha Hb.
    pose proof (lookup_lt_Some _ _ _ Ha). pose proof (lookup_lt_Some _ _ _ Hb).
    assert (Q.[Z.of_nat a] = x) as Ha'
        by (apply znth_lookup; [lia|by rewrite Nat2Z.id]).
    assert (Q.[Z.of_nat b] = x) as Hb'
        by (apply znth_lookup; [lia|by rewrite Nat2Z.id]).
    destruct (Hback (Z.of_nat a)) as [_ H1]; [unfold len in *; lia|].
    destruct (Hback (Z.of_nat b)) as [_ H2]; [unfold len in *; lia|].
    rewrite Ha' in H1. rewrite Hb' in H2. lia. }
  split; [done|]. intros y. split.
  - intros (k & Hk & <-)%elem_of_znth. rewrite Hlen in *. by apply Hback.
  - intros Hy. apply (NoDup_bounded_full Q 0 Hnd); [|lia].
    intros z (k & Hk & <-)%elem_of_znth. rewrite Hlen in *.
    destruct (Hback k Hk). lia.
Qed.

(** X8. For a permutation [P], [inverse()] raises nothing and returns the
    permutation [Q] with [Q[P[i]] = i] and [P[Q[i]] = i] at every
    position, and the inverse of [Q] is [P] again. *)
Theorem inverse_correct (P : list Z) :
  is_perm P →
  ∃ Q, Perm.inverse P = Ok Q ∧ is_perm Q ∧ len Q = len P
       ∧ (∀ i, 0 ≤ i < len P → Q.[P.[i]] = i ∧ P.[Q.[i]] = i)
       ∧ Perm.inverse Q = Ok P.
Proof.
  intros HP. destruct (inverse_Ok P HP) as (Q & HQ & Hlen & Hinv).
  destruct (left_inverse_props P Q HP Hlen Hinv) as [HQp Hback].
  exists Q. split_and!; try done.
  - intros i Hi. split; [by apply Hinv|by apply Hback].
  - destruct (inverse_Ok Q HQp) as (P' & -> & Hlen' & Hinv'). f_equal.
    apply list_eq_znth; [lia|]. intros k Hk.
    rewrite Hlen', Hlen in Hk.
    assert (k ∈ Q) as (v & Hv & <-)%elem_of_znth by (apply HQp; lia).
    rewrite Hinv' by done. rewrite Hlen in Hv. symmetry. by apply Hback.
Qed.

Lemma inverse_correct_witness :
  ∃ Q, Perm.inverse [2;0;3;1] = Ok Q ∧ is_perm Q ∧ len Q = len [2;0;3;1]
       ∧ (∀ i, 0 ≤ i < len [2;0;3;1] →
               Q.[[2;0;3;1].[i]] = i ∧ [2;0;3;1].[Q.[i]] = i)
       ∧ Perm.inverse Q = Ok [2;0;3;1].
Proof.
  apply (inverse_correct [2;0;3;1]).
  apply is_permb_spec. vm_compute. reflexivity.
Defined.

Lemma mul_Raise (P Q : list Z) :
  len Q ≠ len P → mul P Q = Raise AssertionError.
Proof.
  intros H. unfold mul. by destruct (Z.eqb_spec (len Q) (len P)).
Qed.

Lemma mul_Ok (P Q : list Z) :
  len Q = len P → (∀ x, x ∈ Q → 0 ≤ x < len P) →
  mul P Q = Ok (map (λ val, P.[val]) Q).
Proof.
  intros Hl HQ. unfold mul.
  destruct (Z.eqb_spec (len Q) (len P)); [|done].
  cbn [assert mbind result_bind]. apply mapM_Ok_map.
  intros x Hx. apply py_get_ok. by apply HQ.
Qed.

Lemma mul_Raise_only (P Q : list Z) :
  is_perm Q → mul P Q = Raise AssertionError → len Q ≠ len P.
Proof.
  intros HQ H Hl. rewrite mul_Ok in H; [done|done|].
  intros x Hx. rewrite <- Hl. by apply HQ.
Qed.

Lemma comp_znth (P Q : list Z) (i : Z) :
  0 ≤ i < len Q → (map (λ val, P.[val]) Q).[i] = P.[Q.[i]].
Proof. intros Hi. by rewrite znth_map. Qed.

Lemma comp_is_perm (P Q : list Z) :
  is_perm P → is_perm Q → len Q = len P → is_perm (map (λ val, P.[val]) Q).
Proof.
  intros HP HQ Hl.
  assert (NoDup (map (λ val, P.[val]) Q)) as Hnd.
  { apply (NoDup_fmap_2_strong (λ val, P.[val])); [|apply HQ].
    intros x y Hx%HQ Hy%HQ Heq.
    apply (is_perm_inj P); (done || lia). }
  assert (∀ y, y ∈ map (λ val, P.[val]) Q
               → 0 ≤ y < 0 + len (map (λ val, P.[val]) Q)) as Hb.
  { intros y (x & -> & Hx%HQ)%list_elem_of_fmap. rewrite len_map, Hl.
    pose proof (is_perm_nonneg P x HP ltac:(lia)). lia. }
  split; [done|]. intros y. split.
  - intros Hy%Hb. lia.
  - intros Hy. apply (NoDup_bounded_full _ 0 Hnd Hb). lia.
Qed.

(** X9. [p * q] fails its assertion exactly when the lengths differ;
    for two permutations of one length it returns the permutation
    [i -> p[q[i]]]. *)
Theorem mul_composes (P Q : list Z) :
  is_perm P → is_perm Q →
  (mul P Q = Raise AssertionError ↔ len Q ≠ len P)
  ∧ (len Q = len P →
     ∃ R, mul P Q = Ok R ∧ is_perm R ∧ len R = len P
          ∧ ∀ i, 0 ≤ i < len P → R.[i] = P.[Q.[i]]).
Proof.
  intros HP HQ. split.
  - split; [by apply mul_Raise_only|apply mul_Raise].
  - intros Hl. exists (map (λ val, P.[val]) Q). split_and!.
    + apply mul_Ok; [done|]. intros x Hx%HQ. lia.
    + by apply comp_is_perm.
    + by rewrite len_map.
    + intros i Hi. apply comp_znth. lia.
Qed.

Lemma mul_composes_witness :
  (mul [1;2;0] [0;2;1] = Raise AssertionError ↔ len [0;2;1] ≠ len [1;2;0])
  ∧ (len [0;2;1] = len [1;2;0] →
     ∃ R, mul [1;2;0] [0;2;1] = Ok R ∧ is_perm R ∧ len R = len [1;2;0]
          ∧ ∀ i, 0 ≤ i < len [1;2;0] → R.[i] = [1;2;0].[[0;2;1].[i]]).
Proof.
  apply (mul_composes [1;2;0] [0;2;1]);
    apply is_permb_spec; vm_compute; reflexivity.
Defined.

Lemma identity_len (n : Z) : 0 ≤ n → len (identity n) = n.
Proof. intros Hn. unfold identity, monotone_increasing. rewrite len_range. lia. Qed.

Lemma identity_znth (n i : Z) : 0 ≤ i < n → (identity n).[i] = i.
Proof.
  intros Hi. unfold identity, monotone_increasing.
  rewrite znth_range by lia. lia.
Qed.

(** X10. The permutations of one length form a group under [*]: the
    product is associative, [identity(n)] is neutral on both sides, and
    [inverse()] gives the inverse on both sides; none of the calls
    raises. *)
Theorem mul_group (P Q R : list Z) :
  is_perm P → is_perm Q → is_perm R → len Q = len P → len R = len P →
  (mul P Q ≫= λ PQ, mul PQ R) = (mul Q R ≫= λ QR, mul P QR)
  ∧ (∃ S, mul P Q ≫= (λ PQ, mul PQ R) = Ok S ∧ is_perm S)
  ∧ mul P (identity (len P)) = Ok P
  ∧ mul (identity (len P)) P = Ok P
  ∧ (Perm.inverse P ≫= λ Pi, mul P Pi) = Ok (identity (len P))
  ∧ (Perm.inverse P ≫= λ Pi, mul Pi P) = Ok (identity (len P)).
Proof.
  intros HP HQ HR HlQ HlR.
  pose proof (len_nonneg P) as Hn.
  assert (∀ A B : list Z, is_perm B → len B = len A → ∀ x, x ∈ B → 0 ≤ x < len A)
    as Hrange.
  { intros A B HB Hl x Hx%HB. lia. }
  assert (mul P Q ≫= (λ PQ, mul PQ R)
          = Ok (map (λ val, P.[val]) (map (λ val, Q.[val]) R))) as Hleft.
  { rewrite (mul_Ok P Q) by (done || by apply Hrange). cbn [mbind result_bind].
    rewrite mul_Ok; [|by rewrite len_map; lia|].
    - f_equal. rewrite map_map. apply map_ext_elem. intros x Hx%HR.
      apply comp_znth. lia.
    - intros x Hx%HR. rewrite len_map. lia. }
  split_and!.
  - rewrite Hleft. rewrite (mul_Ok Q R) by (lia || apply Hrange; done || lia).
    cbn [mbind result_bind]. rewrite mul_Ok; [done|by rewrite len_map|].
    apply Hrange; [|by rewrite len_map].
    apply comp_is_perm; (done || lia).
  - eexists. split; [exact Hleft|].
    apply comp_is_perm; [done| |by rewrite len_map].
    apply comp_is_perm; (done || lia).
  - rewrite mul_Ok.
    + f_equal. apply list_eq_znth; [by rewrite len_map, identity_len|].
      intros i Hi. rewrite len_map, identity_len in Hi by done.
      rewrite comp_znth by (by rewrite identity_len).
      by rewrite identity_znth.
    + by apply identity_len.
    + intros x Hx. unfold identity, monotone_increasing in Hx.
      apply elem_of_range in Hx. lia.
  - rewrite mul_Ok.
    + f_equal. apply map_id_on. intros x Hx%HP. by apply identity_znth.
    + by rewrite identity_len.
    + intros x Hx%HP. by rewrite identity_len.
  - destruct (inverse_Ok P HP) as (Pi & -> & Hl & Hinv).
    destruct (left_inverse_props P Pi HP Hl Hinv) as [HPi Hback].
    cbn [mbind result_bind]. rewrite mul_Ok by (done || by apply Hrange). f_equal.
    apply list_eq_znth; [by rewrite len_map, identity_len|].
    intros i Hi. rewrite len_map, Hl in Hi.
    rewrite comp_znth, identity_znth by lia. by apply Hback.
  - destruct (inverse_Ok P HP) as (Pi & -> & Hl & Hinv).
    destruct (left_inverse_props P Pi HP Hl Hinv) as [HPi Hback].
    cbn [mbind result_bind]. rewrite mul_Ok by (lia || apply Hrange; done || lia). f_equal.
    apply list_eq_znth; [by rewrite len_map, identity_len|].
    intros i Hi. rewrite len_map in Hi.
    rewrite comp_znth, identity_znth by lia. by apply Hinv.
Qed.

Lemma mul_group_witness :
  (mul [1;2;0] [0;2;1] ≫= λ PQ, mul PQ [2;1;0])
  = (mul [0;2;1] [2;1;0] ≫= λ QR, mul [1;2;0] QR)
  ∧ (∃ S, mul [1;2;0] [0;2;1] ≫= (λ PQ, mul PQ [2;1;0]) = Ok S ∧ is_perm S)
  ∧ mul [1;2;0] (identity (len [1;2;0])) = Ok [1;2;0]
  ∧ mul (identity (len [1;2;0])) [1;2;0] = Ok [1;2;0]
  ∧ (Perm.inverse [1;2;0] ≫= λ Pi, mul [1;2;0] Pi)
    = Ok (identity (len [1;2;0]))
  ∧ (Perm.inverse [1;2;0] ≫= λ Pi, mul Pi [1;2;0])
    = Ok (identity (len [1;2;0])).
Proof.
  apply (mul_group [1;2;0] [0;2;1] [2;1;0]);
    try (apply is_permb_spec; vm_compute; reflexivity); reflexivity.
Defined.

(** *** Powers *)

Section powers.
Variable P : list Z.
Hypothesis HP : is_perm P.

(** The product of [k] copies of [P], as [__pow__] builds it. *)
Definition power (k : nat) : list Z :=
  Nat.iter k (λ A, map (λ val, A.[val]) P) (identity (len P)).

Lemma power_perm (k : nat) : is_perm (power k) ∧ len (power k) = len P.
Proof.
  induction k as [|k [IH1 IH2]]; simpl.
  - split; [apply is_perm_range|apply identity_len, len_nonneg].
  - split; [by apply comp_is_perm|by rewrite len_map].
Qed.

Lemma power_znth (k : nat) (i : Z) :
  0 ≤ i < len P → (power k).[i] = Nat.iter k (λ j, P.[j]) i.
Proof.
  revert i. induction k as [|k IH]; intros i Hi.
  - by apply identity_znth.
  - unfold power. rewrite Nat.iter_succ. fold (power k).
    rewrite comp_znth by done.
    rewrite IH by (by apply is_perm_nonneg).
    by rewrite Nat.iter_succ_r.
Qed.

Lemma mul_fold (l : list Z) :
  ∀ A, is_perm A → len A = len P →
       foldM (λ ans _, mul ans P) A l
       = Ok (Nat.iter (length l) (λ A, map (λ val, A.[val]) P) A).
Proof.
  induction l as [|x l IH]; intros A HA Hl; [done|].
  cbn [foldM]. rewrite mul_Ok.
  - cbn [mbind result_bind]. rewrite IH.
    + simpl length. by rewrite Nat.iter_succ_r.
    + by apply comp_is_perm.
    + by rewrite len_map.
  - done.
  - intros y Hy%HP. lia.
Qed.

Lemma pow_nonneg_Ok (k : Z) :
  0 ≤ k → Perm.pow_nonneg P k = Ok (power (Z.to_nat k)).
Proof.
  intros Hk. unfold Perm.pow_nonneg.
  destruct (Z.eqb_spec k 0) as [->|Hne]; [done|].
  rewrite mul_fold by done. f_equal.
  replace (length (range 0 (k - 1))) with (Z.to_nat (k - 1))
    by (unfold range; rewrite length_seqZ; lia).
  replace (Z.to_nat k) with (S (Z.to_nat (k - 1))) by lia.
  unfold power. rewrite Nat.iter_succ_r. f_equal.
  symmetry. apply map_id_on. intros x Hx%HP. by apply identity_znth.
Qed.
End powers.

(** X11. For a permutation [p] and [0 <= k], [p ** k] and [p ** (-k)]
    raise nothing and return permutations whose product is
    [identity(len(p))], and [p ** (k+1)] is [(p ** k) * p]. *)
Theorem pow_inverse (P : list Z) (k : Z) :
  is_perm P → 0 ≤ k →
  ∃ R Ri, Perm.pow P k = Ok R ∧ Perm.pow P (- k) = Ok Ri
          ∧ is_perm R ∧ is_perm Ri
          ∧ mul R Ri = Ok (identity (len P))
          ∧ Perm.pow P (k + 1) = mul R P.
Proof.
  intros HP Hk.
  destruct (inverse_Ok P HP) as (Pi & HPi & Hl & Hinv).
  destruct (left_inverse_props P Pi HP Hl Hinv) as [HPip Hback].
  destruct (power_perm P HP (Z.to_nat k)) as [HR HRl].
  destruct (power_perm Pi HPip (Z.to_nat k)) as [HRi HRil].
  exists (power P (Z.to_nat k)), (power Pi (Z.to_nat k)).
  assert (Perm.pow P (- k) = Ok (power Pi (Z.to_nat k))) as Hneg.
  { unfold Perm.pow. destruct (Z.ltb_spec (- k) 0).
    - rewrite HPi. cbn [mbind result_bind].
      rewrite pow_nonneg_Ok by (done || lia). do 2 f_equal. lia.
    - replace k with 0 by lia. unfold Perm.pow_nonneg, power. simpl.
      by rewrite Hl. }
  split_and!; try done.
  - unfold Perm.pow. destruct (Z.ltb_spec k 0); [lia|].
    by apply pow_nonneg_Ok.
  - rewrite mul_Ok; [|lia|intros x Hx%HRi; lia]. f_equal.
    apply list_eq_znth;
      [rewrite len_map, identity_len; [lia|apply len_nonneg]|].
    intros i Hi. rewrite len_map, HRil, Hl in Hi.
    rewrite comp_znth, identity_znth by lia.
    rewrite (power_znth Pi HPip) by lia.
    assert (∀ m x, 0 ≤ x < len P →
              0 ≤ Nat.iter m (λ j, Pi.[j]) x < len P) as Hrange.
    { induction m as [|m IH]; intros x Hx; [done|].
      rewrite Nat.iter_succ. by apply Hback, IH. }
    rewrite (power_znth P HP) by (by apply Hrange).
    generalize (Z.to_nat k). intros m. revert i Hi.
    induction m as [|m IH]; intros i Hi; [done|].
    rewrite Nat.iter_succ_r, Nat.iter_succ.
    destruct (Hback (Nat.iter m (λ j, Pi.[j]) i)) as [_ ->];
      [by apply Hrange|]. by apply IH.
  - unfold Perm.pow. destruct (Z.ltb_spec (k + 1) 0); [lia|].
    rewrite pow_nonneg_Ok by (done || lia).
    rewrite mul_Ok; [|lia|intros x Hx%HP; lia].
    replace (Z.to_nat (k + 1)) with (S (Z.to_nat k)) by lia. done.
Qed.

Lemma pow_inverse_witness :
  ∃ R Ri, Perm.pow [1;2;0;3] 2 = Ok R ∧ Perm.pow [1;2;0;3] (- 2) = Ok Ri
          ∧ is_perm R ∧ is_perm Ri
          ∧ mul R Ri = Ok (identity (len [1;2;0;3]))
          ∧ Perm.pow [1;2;0;3] (2 + 1) = mul R [1;2;0;3].
Proof.
  apply (pow_inverse [1;2;0;3] 2); [|lia].
  apply is_permb_spec. vm_compute. reflexivity.
Defined.

(** ** Statistics *)

Lemma filter_ext_elem {A} (P1 P2 : A → Prop)
    `{∀ x, Decision (P1 x)} `{∀ x, Decision (P2 x)} (l : list A) :
  (∀ x, x ∈ l → P1 x ↔ P2 x) → filter P1 l = filter P2 l.
Proof.
  induction l as [|x l IH]; intros Hext; [done|].
  rewrite !filter_cons. rewrite IH by (intros; apply Hext; by right).
  pose proof (Hext x ltac:(left)).
  destruct (decide (P1 x)), (decide (P2 x)); tauto.
Qed.

Lemma znth_app_l (l k : list Z) (i : Z) :
  0 ≤ i < len l → (l ++ k).[i] = l.[i].
Proof.
  intros Hi. apply znth_lookup; [lia|].
  rewrite lookup_app_l by (unfold len in *; lia). by apply lookup_znth.
Qed.

Lemma znth_snoc (l : list Z) (x : Z) : (l ++ [x]).[len l] = x.
Proof.
  apply znth_lookup; [apply len_nonneg|]. unfold len.
  rewrite Nat2Z.id, lookup_app_r by lia. by rewrite Nat.sub_diag.
Qed.

Lemma enumerate_snoc {A} (l : list A) (x : A) :
  enumerate (l ++ [x]) = enumerate l ++ [(len l, x)].
Proof.
  unfold enumerate. rewrite imap_app. simpl. by rewrite Nat.add_0_r.
Qed.

(** X12. Complementing a sequence exchanges its descents with its
    ascents and its peaks with its valleys. *)
Theorem complement_exchanges (P : list Z) :
  descents (Perm.complement P) = ascents P
  ∧ ascents (Perm.complement P) = descents P
  ∧ peaks (Perm.complement P) = valleys P
  ∧ valleys (Perm.complement P) = peaks P.
Proof.
  unfold descents, ascents, peaks, valleys. rewrite !complement_len.
  split_and!; apply filter_ext_elem; intros i Hi%elem_of_range;
    rewrite !complement_znth by lia; lia.
Qed.

(** X13. In a sequence of distinct entries every position but the last
    is a descent or an ascent and never both, so the two lists share the
    [len - 1] positions between them. *)
Theorem descents_or_ascents (P : list Z) :
  NoDup P → 1 ≤ len P →
  (∀ i, 0 ≤ i < len P - 1 → (i ∈ descents P ↔ i ∉ ascents P))
  ∧ len (descents P) + len (ascents P) = len P - 1.
Proof.
  intros Hnd Hn.
  assert (∀ i, 0 ≤ i < len P - 1 → P.[i] ≠ P.[i + 1]) as Hne.
  { intros i Hi Heq.
    assert (Z.to_nat i = Z.to_nat (i + 1)); [|lia].
    eapply (NoDup_lookup P); [done|apply lookup_znth; lia|].
    rewrite Heq. apply lookup_znth. lia. }
  assert (ascents P
          = filter (λ i, ¬ P.[i + 1] ≤ P.[i]) (range 0 (len P - 1))) as Hasc.
  { unfold ascents. apply filter_ext_elem. intros i Hi%elem_of_range.
    specialize (Hne i Hi). lia. }
  split.
  - intros i Hi. rewrite Hasc. unfold descents.
    rewrite !list_elem_of_filter, elem_of_range. split.
    + intros [H _] [H' _]. done.
    + intros H. split; [|lia].
      destruct (decide (P.[i + 1] ≤ P.[i])); [done|]. exfalso. apply H.
      split; [done|lia].
  - rewrite Hasc. unfold descents.
    pose proof (filter_app_complement (λ i, P.[i + 1] ≤ P.[i])
                  (range 0 (len P - 1))) as Hperm.
    apply Permutation_length in Hperm. rewrite length_app in Hperm.
    pose proof (len_range 0 (len P - 1)) as Hr.
    unfold len in *. lia.
Qed.

Lemma descents_or_ascents_witness :
  (∀ i, 0 ≤ i < len [3;1;4;5;0;7;6;2] - 1 →
        (i ∈ descents [3;1;4;5;0;7;6;2] ↔ i ∉ ascents [3;1;4;5;0;7;6;2]))
  ∧ len (descents [3;1;4;5;0;7;6;2]) + len (ascents [3;1;4;5;0;7;6;2])
    = len [3;1;4;5;0;7;6;2] - 1.
Proof.
  apply (descents_or_ascents [3;1;4;5;0;7;6;2]).
  - refine (proj1 (is_permb_spec _ _)). vm_compute. reflexivity.
  - unfold len. simpl. lia.
Defined.

(** *** Records *)

Lemma record_min_spec (l : list Z) (b0 : Z) :
  let st := foldl (record_step Z.ltb (λ idx, idx)) ([], b0) (enumerate l) in
  (st.2 ≤ b0 ∧ (∀ j, 0 ≤ j < len l → st.2 ≤ l.[j])
   ∧ (st.2 = b0 ∨ ∃ j, 0 ≤ j < len l ∧ st.2 = l.[j]))
  ∧ ∀ i, i ∈ st.1 ↔
         0 ≤ i < len l ∧ l.[i] < b0 ∧ ∀ j, 0 ≤ j < i → l.[i] < l.[j].
Proof.
  induction l as [|x l IH] using rev_ind.
  - simpl. split; [split_and!; [lia|intros; unfold len in *; simpl in *; lia|by left]|].
    intros i. split; [by intros ?%elem_of_nil|].
    unfold len. simpl. lia.
  - rewrite enumerate_snoc, foldl_app. cbn [foldl].
    destruct (foldl _ _ (enumerate l)) as [L best].
    cbn [fst snd] in IH. destruct IH as [(Hb0 & Hlow & Hatt) Hmem].
    pose proof (len_nonneg l) as Hl.
    assert (∀ j, 0 ≤ j < len l → (l ++ [x]).[j] = l.[j]) as Happ
        by (intros; by apply znth_app_l).
    pose proof (znth_snoc l x) as Hlast.
    rewrite len_app. change (len [x]) with 1.
    unfold record_step. destruct (Z.ltb_spec x best) as [Hlt|Hge]; cbn [fst snd].
    + split.
      * split_and!; [lia| |right; exists (len l); split; [lia|by rewrite Hlast]].
        intros j Hj. destruct (decide (j = len l)) as [->|]; [lia|].
        rewrite Happ by lia. specialize (Hlow j ltac:(lia)). lia.
      * intros i. rewrite elem_of_app, list_elem_of_singleton, Hmem. split.
        -- intros [(Hi & Hib & Hall)| ->].
           ++ rewrite Happ by lia. split; [lia|]; split; [done|].
              intros j Hj. rewrite Happ by lia. by apply Hall.
           ++ rewrite Hlast. split; [lia|]; split; [lia|].
              intros j Hj. rewrite Happ by lia.
              specialize (Hlow j ltac:(lia)). lia.
        -- intros (Hi & Hib & Hall).
           destruct (decide (i = len l)) as [->|]; [by right|left].
           rewrite Happ in Hib by lia. split; [lia|]; split; [done|].
           intros j Hj. specialize (Hall j Hj).
           by rewrite !Happ in Hall by lia.
    + split.
      * split_and!; [lia| |].
        -- intros j Hj. destruct (decide (j = len l)) as [->|]; [lia|].
           rewrite Happ by lia. apply Hlow. lia.
        -- destruct Hatt as [->|(j & Hj & ->)]; [by left|right].
           exists j. split; [lia|]. by rewrite Happ.
      * intros i. rewrite Hmem. split.
        -- intros (Hi & Hib & Hall). rewrite Happ by lia.
           split; [lia|]; split; [done|].
           intros j Hj. rewrite Happ by lia. by apply Hall.
        -- intros (Hi & Hib & Hall).
           destruct (decide (i = len l)) as [->|].
           ++ exfalso. rewrite Hlast in *.
              destruct Hatt as [->|(j & Hj & ->)]; [lia|].
              specialize (Hall j Hj). rewrite Happ in Hall by lia. lia.
           ++ rewrite Happ in Hib by lia. split; [lia|]; split; [done|].
              intros j Hj. specialize (Hall j Hj).
              by rewrite !Happ in Hall by lia.
Qed.

(** The loop for maxima on the complement is the loop for minima. *)
Lemma record_step_dual (c : Z) (pos : Z → Z) (l : list Z) :
  ∀ (g : nat → Z) (L : list Z) (b : Z),
    foldl (record_step Z.gtb pos) (L, c - b)
          (imap (λ idx val, (g idx, val)) (map (λ v, c - v) l))
    = (let '(L', b') := foldl (record_step Z.ltb pos) (L, b)
                              (imap (λ idx val, (g idx, val)) l) in
       (L', c - b'))
    ∧ foldl (record_step Z.ltb pos) (L, c - b)
            (imap (λ idx val, (g idx, val)) (map (λ v, c - v) l))
      = (let '(L', b') := foldl (record_step Z.gtb pos) (L, b)
                                (imap (λ idx val, (g idx, val)) l) in
         (L', c - b')).
Proof.
  induction l as [|x l IH]; intros g L b; [done|].
  cbn [map]. rewrite !imap_cons. cbn [foldl]. unfold record_step at 2 4 6 8.
  replace (c - x >? c - b) with (x <? b) by lia.
  replace (c - x <? c - b) with (x >? b) by lia.
  destruct (IH (g ∘ S) (L ++ [pos (g 0%nat)]) x) as [IH1 IH2].
  destruct (IH (g ∘ S) L b) as [IH3 IH4].
  split.
  - destruct (x <? b); [exact IH1|exact IH3].
  - destruct (x >? b); [exact IH2|exact IH4].
Qed.

Lemma ltr_records_aux (P : list Z) (i : Z) :
  (i ∈ ltr_min P ↔
   0 ≤ i < len P ∧ P.[i] < len P ∧ ∀ j, 0 ≤ j < i → P.[i] < P.[j])
  ∧ (i ∈ ltr_max P ↔
     0 ≤ i < len P ∧ -1 < P.[i] ∧ ∀ j, 0 ≤ j < i → P.[j] < P.[i]).
Proof.
  split.
  - unfold ltr_min. apply (record_min_spec P (len P)).
  - unfold ltr_max.
    pose proof (proj1 (record_step_dual (-1) (λ idx, idx)
                         (map (λ v, -1 - v) P) Z.of_nat [] 0)) as Hd.
    rewrite map_map in Hd.
    rewrite (map_id_on (λ x, -1 - (-1 - x))) in Hd by (intros; lia).
    change (-1 - 0) with (-1) in Hd. unfold enumerate. rewrite Hd.
    pose proof (record_min_spec (map (λ v, -1 - v) P) 0) as [_ Hmem].
    unfold enumerate in Hmem. clear Hd. revert Hmem.
    destruct (foldl _ _ _) as [L' b']. intros Hmem.
    cbv beta iota zeta delta [fst snd] in Hmem |- *.
    rewrite Hmem, len_map. split.
    + intros (Hi & Hib & Hall). rewrite znth_map in Hib by done.
      split; [done|]; split; [lia|]. intros j Hj. specialize (Hall j Hj).
      rewrite !znth_map in Hall by lia. lia.
    + intros (Hi & Hib & Hall). rewrite znth_map by done.
      split; [done|]; split; [lia|]. intros j Hj. specialize (Hall j Hj).
      rewrite !znth_map by lia. lia.
Qed.

(** X14. [ltr_min] lists exactly the positions whose entry is below
    [len] and below every earlier entry, and [ltr_max] those whose entry
    is above [-1] and above every earlier entry. *)
Theorem ltr_records (P : list Z) (i : Z) :
  (i ∈ ltr_min P ↔
   0 ≤ i < len P ∧ P.[i] < len P ∧ ∀ j, 0 ≤ j < i → P.[i] < P.[j])
  ∧ (i ∈ ltr_max P ↔
     0 ≤ i < len P ∧ -1 < P.[i] ∧ ∀ j, 0 ≤ j < i → P.[j] < P.[i]).
Proof. apply ltr_records_aux. Qed.

(** X15. The records of the complement: its left-to-right maxima are the
    left-to-right minima of the sequence and conversely, and the same
    from right to left. *)
Theorem complement_records (P : list Z) :
  ltr_max (Perm.complement P) = ltr_min P
  ∧ ltr_min (Perm.complement P) = ltr_max P
  ∧ rtl_max (Perm.complement P) = rtl_min P
  ∧ rtl_min (Perm.complement P) = rtl_max P.
Proof.
  unfold ltr_max, ltr_min, rtl_max, rtl_min. rewrite !complement_len.
  unfold Perm.complement, enumerate.
  change (map ?f ?l) with (f <$> l). rewrite <- !fmap_reverse.
  change (?f <$> ?l) with (map f l).
  split_and!.
  - pose proof (proj1 (record_step_dual (len P - 1) (λ idx, idx) P
                         Z.of_nat [] (len P))) as H.
    replace (len P - 1 - len P) with (-1) in H by lia.
    rewrite H. clear H. by destruct (foldl _ _ _).
  - pose proof (proj2 (record_step_dual (len P - 1) (λ idx, idx) P
                         Z.of_nat [] (-1))) as H.
    replace (len P - 1 - -1) with (len P) in H by lia.
    rewrite H. clear H. by destruct (foldl _ _ _).
  - pose proof (proj1 (record_step_dual (len P - 1)
                         (λ idx, len P - idx - 1) (reverse P)
                         Z.of_nat [] (len P))) as H.
    replace (len P - 1 - len P) with (-1) in H by lia.
    rewrite H. clear H. by destruct (foldl _ _ _).
  - pose proof (proj2 (record_step_dual (len P - 1)
                         (λ idx, len P - idx - 1) (reverse P)
                         Z.of_nat [] (-1))) as H.
    replace (len P - 1 - -1) with (len P) in H by lia.
    rewrite H. clear H. by destruct (foldl _ _ _).
Qed.

Lemma record_step_pos (better : Z → Z → bool) (pos : Z → Z)
    (l : list (Z * Z)) :
  ∀ (L : list Z) (b : Z),
    foldl (record_step better pos) (map pos L, b) l
    = (let '(L', b') := foldl (record_step better (λ idx, idx)) (L, b) l in
       (map pos L', b')).
Proof.
  induction l as [|[idx val] l IH]; intros L b; [done|].
  cbn [foldl]. unfold record_step at 2 4.
  destruct (better val b); [|apply IH].
  rewrite <- IH. by rewrite map_app.
Qed.

(** X16. [rtl_min] lists exactly the positions whose entry is below
    [len] and below every later entry, and [rtl_max] those whose entry is
    above [-1] and above every later entry. *)
Theorem rtl_records (P : list Z) (i : Z) :
  (i ∈ rtl_min P ↔
   0 ≤ i < len P ∧ P.[i] < len P ∧ ∀ j, i < j < len P → P.[i] < P.[j])
  ∧ (i ∈ rtl_max P ↔
     0 ≤ i < len P ∧ -1 < P.[i] ∧ ∀ j, i < j < len P → P.[j] < P.[i]).
Proof.
  assert (len (reverse P) = len P) as Hlr
      by (unfold len; by rewrite length_reverse).
  assert (∀ k, 0 ≤ k < len P → (reverse P).[k] = P.[len P - 1 - k]) as Hrev
      by (intros; by apply znth_reverse).
  split.
  - unfold rtl_min. cbv zeta.
    pose proof (record_step_pos Z.ltb (λ idx, len P - idx - 1)
                  (enumerate (reverse P)) [] (len P)) as Hpos.
    cbn [map] in Hpos. rewrite Hpos. clear Hpos.
    pose proof (λ k, proj1 (ltr_records_aux (reverse P) k)) as Hmem.
    revert Hmem. unfold ltr_min. rewrite Hlr.
    destruct (foldl _ _ _) as [L' b']. cbn [fst snd]. intros Hmem.
    rewrite list_elem_of_fmap. split.
    + intros (k & -> & Hk%Hmem). destruct Hk as (Hk & Hkb & Hall).
      rewrite Hrev in Hkb by done.
      replace (len P - 1 - k) with (len P - k - 1) in Hkb by lia.
      split; [lia|]; split; [done|]. intros j Hj.
      specialize (Hall (len P - 1 - j) ltac:(lia)).
      rewrite !Hrev in Hall by lia.
      replace (len P - 1 - (len P - 1 - j)) with j in Hall by lia.
      by replace (len P - 1 - k) with (len P - k - 1) in Hall by lia.
    + intros (Hi & Hib & Hall). exists (len P - 1 - i). split; [lia|].
      apply Hmem. rewrite Hrev by lia.
      replace (len P - 1 - (len P - 1 - i)) with i by lia.
      split; [lia|]; split; [done|]. intros j Hj.
      rewrite Hrev by lia. apply Hall. lia.
  - unfold rtl_max. cbv zeta.
    pose proof (record_step_pos Z.gtb (λ idx, len P - idx - 1)
                  (enumerate (reverse P)) [] (-1)) as Hpos.
    cbn [map] in Hpos. rewrite Hpos. clear Hpos.
    pose proof (λ k, proj2 (ltr_records_aux (reverse P) k)) as Hmem.
    revert Hmem. unfold ltr_max. rewrite Hlr.
    destruct (foldl _ _ _) as [L' b']. cbn [fst snd]. intros Hmem.
    rewrite list_elem_of_fmap. split.
    + intros (k & -> & Hk%Hmem). destruct Hk as (Hk & Hkb & Hall).
      rewrite Hrev in Hkb by done.
      replace (len P - 1 - k) with (len P - k - 1) in Hkb by lia.
      split; [lia|]; split; [done|]. intros j Hj.
      specialize (Hall (len P - 1 - j) ltac:(lia)).
      rewrite !Hrev in Hall by lia.
      replace (len P - 1 - (len P - 1 - j)) with j in Hall by lia.
      by replace (len P - 1 - k) with (len P - k - 1) in Hall by lia.
    + intros (Hi & Hib & Hall). exists (len P - 1 - i). split; [lia|].
      apply Hmem. rewrite Hrev by lia.
      replace (len P - 1 - (len P - 1 - i)) with i by lia.
      split; [lia|]; split; [done|]. intros j Hj.
      rewrite Hrev by lia. apply Hall. lia.
Qed.

(** *** Bonds and fixed points *)

Lemma slice_two (P : list Z) (j : Z) :
  0 ≤ j → j + 2 ≤ len P → slice P j (j + 2) = [P.[j]; P.[j + 1]].
Proof.
  intros Hj Hn. replace (j + 2) with (j + 1 + 1) by lia.
  rewrite slice_snoc by lia. rewrite slice_snoc by lia.
  unfold slice. replace (Z.to_nat (j - j)) with 0%nat by lia. done.
Qed.

Lemma but_last_znth (P : list Z) (j : Z) :
  0 ≤ j < len P - 1 → (but_last P).[j] = P.[j].
Proof.
  intros Hj. apply znth_lookup; [lia|]. unfold but_last.
  rewrite lookup_take_lt by (unfold len in *; lia).
  apply lookup_znth. lia.
Qed.

(** A comprehension over [enumerate] is a comprehension over the
    positions. *)
Lemma enumerate_filter_iff (Qe : Z * Z → Prop) `{∀ iv, Decision (Qe iv)}
    (Qr : Z → Prop) `{∀ i, Decision (Qr i)} (l : list Z) :
  (∀ i, 0 ≤ i < len l → Qe (i, l.[i]) ↔ Qr i) →
  map fst (filter Qe (enumerate l)) = filter Qr (range 0 (len l)).
Proof.
  induction l as [|x l IH] using rev_ind; intros Hiff; [done|].
  rewrite len_app in *. change (len [x]) with 1 in *.
  pose proof (len_nonneg l).
  rewrite enumerate_snoc, filter_app, map_app, IH.
  - rewrite range_snoc by lia. rewrite filter_app. f_equal.
    rewrite !filter_cons, !filter_nil. simpl.
    pose proof (Hiff (len l) ltac:(lia)) as Hx. rewrite znth_snoc in Hx.
    destruct (decide (Qe (len l, x))), (decide (Qr (len l))); tauto.
  - intros i Hi. rewrite <- (Hiff i) by lia. by rewrite znth_app_l.
Qed.

(** X17. For a sequence of at least three entries, the bonds are the
    intervals of length two: [bonds()] is [all_intervals()[2]]. *)
Theorem bonds_are_intervals (P : list Z) :
  3 ≤ len P → all_intervals P !! 2%nat = Some (bonds P).
Proof.
  intros Hn. unfold all_intervals. rewrite range_cons by lia.
  cbn [app map lookup list_lookup]. f_equal.
  unfold bonds.
  assert (len (but_last P) = len P - 1) as Hbl.
  { unfold len. rewrite but_last_length. unfold len in Hn. lia. }
  replace (len P - 2 + 1) with (len (but_last P)) by lia.
  symmetry. apply enumerate_filter_iff. intros j Hj. rewrite Hbl in Hj.
  rewrite but_last_znth by lia. unfold interval_test.
  rewrite slice_two by lia. cbn [seq_max seq_min foldl].
  rewrite Z.eqb_eq, !elem_of_cons, elem_of_nil. lia.
Qed.

Lemma bonds_are_intervals_witness :
  all_intervals [2;0;1;3;5;4] !! 2%nat = Some (bonds [2;0;1;3;5;4]).
Proof. apply (bonds_are_intervals [2;0;1;3;5;4]). unfold len. simpl. lia. Defined.

(** X18. A permutation and its inverse have the same fixed points. *)
Theorem fixed_points_inverse (P : list Z) :
  is_perm P →
  ∃ Q, Perm.inverse P = Ok Q ∧ fixed_points Q = fixed_points P.
Proof.
  intros HP. destruct (inverse_Ok P HP) as (Q & HQ & Hl & Hinv).
  destruct (left_inverse_props P Q HP Hl Hinv) as [_ Hback].
  exists Q. split; [done|]. unfold fixed_points.
  rewrite (enumerate_filter_iff _ (λ i, i = P.[i]) P) by done.
  rewrite (enumerate_filter_iff _ (λ i, i = Q.[i]) Q) by done.
  rewrite Hl.
  apply filter_ext_elem. intros i Hi%elem_of_range. split.
  - intros Heq. destruct (Hback i ltac:(lia)) as [_ H]. congruence.
  - intros Heq. pose proof (Hinv i ltac:(lia)). congruence.
Qed.

Lemma fixed_points_inverse_witness :
  ∃ Q, Perm.inverse [4;1;0;3;2;5] = Ok Q
       ∧ fixed_points Q = fixed_points [4;1;0;3;2;5].
Proof.
  apply (fixed_points_inverse [4;1;0;3;2;5]).
  apply is_permb_spec. vm_compute. reflexivity.
Defined.

(** ** Inversions *)

Lemma elem_of_enumerate {A} (l : list A) (i : Z) (x : A) :
  (i, x) ∈ enumerate l ↔ 0 ≤ i ∧ l !! Z.to_nat i = Some x.
Proof.
  unfold enumerate. rewrite list_elem_of_lookup. split.
  - intros (k & Hk). rewrite list_lookup_imap in Hk.
    destruct (l !! k) as [y|] eqn:Hy; [|done]. injection Hk as <- <-.
    split; [lia|]. by rewrite Nat2Z.id.
  - intros [Hi Hx]. exists (Z.to_nat i).
    rewrite list_lookup_imap, Hx. simpl. f_equal. f_equal. lia.
Qed.

Lemma slice_lookup_tail {A} (l : list A) (a : Z) (k : nat) :
  0 ≤ a → slice l a (len l) !! k = l !! (Z.to_nat a + k)%nat.
Proof.
  intros Ha. unfold slice, len.
  destruct (decide (Z.to_nat a + k < length l)%nat) as [Hlt|Hge].
  - rewrite lookup_take_lt by lia. apply lookup_drop.
  - rewrite (proj2 (lookup_ge_None l _)) by lia.
    apply lookup_ge_None. rewrite length_take, length_drop. lia.
Qed.

(** The pairs that the comprehension of [inversions] and
    [noninversions] lists. *)
Lemma elem_of_pairs_where (keep : Z → Z → bool) (P : list Z) (a b : Z) :
  (a, b) ∈ pairs_where keep P
  ↔ 0 ≤ a < b ∧ b < len P ∧ keep P.[a] P.[b] = true.
Proof.
  unfold pairs_where. rewrite elem_of_concat. split.
  - intros (k & row & Hrow & Hin).
    change (map ?f ?l) with (f <$> l) in Hrow.
    rewrite list_lookup_fmap in Hrow.
    destruct (enumerate P !! k) as [[i v]|] eqn:Hk; [|done].
    injection Hrow as <-.
    apply list_elem_of_lookup_2, elem_of_enumerate in Hk as [Hi Hv].
    apply list_elem_of_fmap in Hin as ([j w] & [= -> ->] & Hjw).
    apply list_elem_of_filter in Hjw as [Hkeep Hjw].
    apply elem_of_enumerate in Hjw as [Hj Hw].
    rewrite slice_lookup_tail in Hw by lia.
    pose proof (lookup_lt_Some _ _ _ Hw) as Hlt.
    assert (P.[i] = v) as -> by (by apply znth_lookup).
    assert (P.[j + i + 1] = w) as ->.
    { apply znth_lookup; [lia|]. rewrite <- Hw. f_equal. lia. }
    unfold len. split; [lia|]. split; [lia|done].
  - intros (Hab & Hb & Hkeep).
    exists (Z.to_nat a),
      (map (λ '(j, _), (a, j + a + 1))
           (filter (λ '(_, val_j), keep P.[a] val_j = true)
                   (enumerate (slice P (a + 1) (len P))))).
    split.
    + change (map ?f ?l) with (f <$> l) at 2.
      rewrite list_lookup_fmap. unfold enumerate at 2.
      rewrite list_lookup_imap, lookup_znth by lia. simpl.
      by rewrite Z2Nat.id by lia.
    + apply list_elem_of_fmap. exists (b - a - 1, P.[b]). split.
      * f_equal. lia.
      * apply list_elem_of_filter. split; [done|].
        apply elem_of_enumerate. split; [lia|].
        rewrite slice_lookup_tail by lia.
        replace (Z.to_nat (a + 1) + Z.to_nat (b - a - 1))%nat
          with (Z.to_nat b) by lia.
        apply lookup_znth. lia.
Qed.

(** X19. [inversions()] lists exactly the pairs of positions [i < j] with
    [p[i] >= p[j]], and [noninversions()] those with [p[i] <= p[j]]; an
    increasing permutation has no inversion (the docstring's
    [monotone_increasing(7).inversions() == []]). *)
Theorem inversions_spec (P : list Z) (a b n : Z) :
  ((a, b) ∈ inversions P ↔ 0 ≤ a < b ∧ b < len P ∧ P.[b] ≤ P.[a])
  ∧ ((a, b) ∈ noninversions P ↔ 0 ≤ a < b ∧ b < len P ∧ P.[a] ≤ P.[b])
  ∧ inversions (monotone_increasing n) = [].
Proof.
  unfold inversions, noninversions. rewrite !elem_of_pairs_where.
  split; [|split].
  - rewrite Z.geb_le. tauto.
  - rewrite Z.leb_le. tauto.
  - apply elem_of_nil_inv. intros [i j] Hij.
    apply elem_of_pairs_where in Hij as (Hi & Hj & Hge).
    unfold monotone_increasing in *. rewrite len_range in Hj.
    rewrite !znth_range in Hge by lia. lia.
Qed.

Lemma len_concat {A} (ls : list (list A)) :
  len (concat ls) = sumZ (map len ls).
Proof.
  induction ls as [|l ls IH]; [done|].
  simpl. unfold len in *. rewrite length_app. lia.
Qed.

Lemma sumZ_map_add {A} (f g : A → Z) (l : list A) :
  sumZ (map f l) + sumZ (map g l) = sumZ (map (λ x, f x + g x) l).
Proof. induction l as [|x l IH]; simpl; lia. Qed.

Lemma sumZ_map_ext {A} (f g : A → Z) (l : list A) :
  (∀ x, x ∈ l → f x = g x) → sumZ (map f l) = sumZ (map g l).
Proof.
  induction l as [|x l IH]; intros H; [done|]. simpl.
  rewrite (H x) by left. rewrite IH; [done|].
  intros y Hy. apply H. by right.
Qed.

Lemma len_enumerate {A} (l : list A) : len (enumerate l) = len l.
Proof. unfold enumerate, len. by rewrite length_imap. Qed.

Lemma sumZ_descending {A} (c : Z) (l : list A) :
  2 * sumZ (map (λ iv, c - iv.1) (enumerate l)) = len l * (2 * c - len l + 1).
Proof.
  induction l as [|x l IH] using rev_ind; [done|].
  rewrite enumerate_snoc, map_app, sumZ_app. simpl.
  unfold len in *. rewrite length_app. simpl. nia.
Qed.

(** One row of the comprehension: for distinct entries, every later
    position is listed by exactly one of the two conditions. *)
Lemma rows_complementary (P : list Z) (i v : Z) :
  NoDup P → (i, v) ∈ enumerate P →
  len (filter (λ '(_, val_j), Z.geb v val_j = true)
              (enumerate (slice P (i + 1) (len P))))
  + len (filter (λ '(_, val_j), Z.leb v val_j = true)
                (enumerate (slice P (i + 1) (len P))))
  = len P - i - 1.
Proof.
  intros HP Hiv. apply elem_of_enumerate in Hiv as [Hi Hv].
  pose proof (lookup_lt_Some _ _ _ Hv) as Hlt.
  set (S := enumerate (slice P (i + 1) (len P))).
  assert (filter (λ '(_, val_j), Z.leb v val_j = true) S
          = filter (λ jw, ¬ (let '(_, val_j) := jw in Z.geb v val_j = true)) S)
    as ->.
  { apply filter_ext_elem. intros [j w] Hjw.
    apply elem_of_enumerate in Hjw as [Hj Hw].
    rewrite slice_lookup_tail in Hw by lia.
    assert (v ≠ w).
    { intros ->.
      pose proof (NoDup_lookup _ _ _ _ HP Hv Hw). lia. }
    rewrite Z.geb_le, Z.leb_le. lia. }
  pose proof (Permutation_length
                (filter_app_complement
                   (λ jw : Z * Z, let '(_, val_j) := jw in Z.geb v val_j = true)
                   S)) as Hlen.
  rewrite length_app in Hlen. subst S.
  pose proof (len_enumerate (slice P (i + 1) (len P))) as HS.
  pose proof (slice_length P (i + 1) (len P)) as HL.
  unfold len in *. lia.
Qed.

(** X20. For distinct entries, every pair of positions [i < j] is listed
    by exactly one of [inversions()] and [noninversions()]: together
    they have [n(n-1)/2] pairs. *)
Theorem inversions_count (P : list Z) :
  NoDup P →
  2 * (len (inversions P) + len (noninversions P)) = len P * (len P - 1).
Proof.
  intros HP. unfold inversions, noninversions, pairs_where.
  rewrite !len_concat, !map_map, sumZ_map_add.
  rewrite (sumZ_map_ext _ (λ iv, (len P - 1) - iv.1)).
  - rewrite sumZ_descending. lia.
  - intros [i v] Hiv. simpl.
    pose proof (rows_complementary P i v HP Hiv) as H.
    unfold len in *. rewrite !length_map. lia.
Qed.

Lemma inversions_count_witness :
  2 * (len (inversions [4;3;7;6;5;1;0;2])
       + len (noninversions [4;3;7;6;5;1;0;2]))
  = len [4;3;7;6;5;1;0;2] * (len [4;3;7;6;5;1;0;2] - 1).
Proof.
  apply (inversions_count [4;3;7;6;5;1;0;2]).
  refine (proj1 (is_permb_spec _ _)). vm_compute. reflexivity.
Defined.

(** ** Sums and the symmetries *)

Lemma cut_scan_map (f : Z → Z) (indices vals : gset Z) (k : nat) (l : list Z) :
  cut_scan id indices vals k (map f l) = cut_scan f indices vals k l.
Proof.
  revert indices vals k. induction l as [|v l IH]; intros I V k; [done|].
  simpl. case_decide; [done|]. apply IH.
Qed.

Lemma cut_scan_ext (f g : Z → Z) (indices vals : gset Z) (k : nat) (l : list Z) :
  (∀ v, v ∈ l → f v = g v) →
  cut_scan f indices vals k l = cut_scan g indices vals k l.
Proof.
  revert indices vals k. induction l as [|v l IH]; intros I V k Hfg; [done|].
  simpl. rewrite (Hfg v) by left. case_decide; [done|].
  apply IH. intros w Hw. apply Hfg. by right.
Qed.

Lemma but_last_map {A B} (f : A → B) (l : list A) :
  but_last (map f l) = map f (but_last l).
Proof.
  unfold but_last. rewrite length_map. change map with (@fmap list _).
  by rewrite fmap_take.
Qed.

(** The scan of the skew sum is the scan of the sum on the complement. *)
Lemma skew_scan (P : list Z) :
  cut_scan (λ val, len P - val - 1) ∅ ∅ 0 (but_last P)
  = cut_scan id ∅ ∅ 0 (but_last (Perm.complement P)).
Proof.
  unfold Perm.complement. rewrite but_last_map, cut_scan_map.
  apply cut_scan_ext. intros v _. lia.
Qed.

Lemma sum_decomposition_step (l : list Z) :
  l ≠ [] →
  sum_decomposition l
  = match cut_scan id ∅ ∅ 0 (but_last l) with
    | Some idx =>
      take (S idx) l
      :: sum_decomposition (map (λ val, val - Z.of_nat idx - 1) (drop (S idx) l))
    | None => [l]
    end.
Proof.
  destruct l as [|x xs]; [done|]. intros _. simp sum_decomposition.
  destruct (cut_scan id ∅ ∅ 0 (but_last (x :: xs))); by simpl.
Qed.

Lemma skew_decomposition_complement (P : list Z) :
  skew_decomposition P
  = map Perm.complement (sum_decomposition (Perm.complement P)).
Proof.
  funelim (skew_decomposition P).
  - reflexivity.
  - clear Heqcall. rewrite skew_scan in Heq.
    rewrite sum_decomposition_step by done. rewrite Heq.
    apply cut_scan_range in Heq. rewrite but_last_length in Heq.
    unfold Perm.complement in Heq. rewrite length_map in Heq. simpl in Heq.
    cbn [map]. f_equal.
    + unfold Perm.complement. change map with (@fmap list _).
      rewrite <- fmap_take, <- list_fmap_compose.
      apply list_fmap_ext. intros _ v _. simpl.
      unfold len. simpl length. rewrite length_fmap, length_take. lia.
    + rewrite H. f_equal. f_equal.
      unfold Perm.complement. change map with (@fmap list _).
      rewrite <- fmap_drop, <- list_fmap_compose.
      apply list_fmap_ext. intros _ v _. simpl.
      unfold len. rewrite length_drop. simpl length. lia.
  - rewrite skew_scan in Heq.
    rewrite sum_decomposition_step by done. rewrite Heq.
    simpl. by rewrite complement_involutive.
Qed.

(** X21. The skew versions are the sum versions seen through the
    complement: [p.skew_decomposable()] is
    [p.complement().sum_decomposable()], and [p.skew_decomposition()]
    lists the complements of the components of
    [p.complement().sum_decomposition()]. *)
Theorem skew_is_sum_of_complement (P : list Z) :
  skew_decomposable P = sum_decomposable (Perm.complement P)
  ∧ skew_decomposition P
    = map Perm.complement (sum_decomposition (Perm.complement P)).
Proof.
  split; [|apply skew_decomposition_complement].
  unfold skew_decomposable, sum_decomposable. cbv zeta.
  by rewrite skew_scan.
Qed.

(** ** What the scan finds *)

(** When the scan stops at [idx], the positions and the values seen so far
    are the same set. *)
Lemma cut_scan_Some_eq (f : Z → Z) (l : list Z) :
  ∀ (indices vals : gset Z) (k idx : nat),
    cut_scan f indices vals k l = Some idx →
    indices ∪ list_to_set (Z.of_nat <$> seq k (S idx - k))
    = vals ∪ list_to_set (f <$> take (S idx - k) l).
Proof.
  induction l as [|v l IH]; intros I V k idx; simpl; [done|].
  case_decide as Heq.
  - intros [= <-]. replace (S k - k)%nat with 1%nat by lia. simpl.
    by rewrite !(right_id_L ∅ (∪)).
  - intros Hscan. pose proof (cut_scan_range _ _ _ _ _ _ Hscan) as Hr.
    apply IH in Hscan.
    replace (S idx - k)%nat with (S (S idx - S k)) by lia. simpl.
    by rewrite !(assoc_L (∪)).
Qed.

(** If they are the same set at some position, the scan stops. *)
Lemma cut_scan_Some_if (f : Z → Z) (l : list Z) :
  ∀ (indices vals : gset Z) (k j : nat),
    (j < length l)%nat →
    indices ∪ list_to_set (Z.of_nat <$> seq k (S j))
    = vals ∪ list_to_set (f <$> take (S j) l) →
    is_Some (cut_scan f indices vals k l).
Proof.
  induction l as [|v l IH]; intros I V k j Hj Heq; simpl in *; [lia|].
  case_decide as Hd; [done|].
  destruct j as [|j].
  - simpl in Heq. rewrite !(right_id_L ∅ (∪)) in Heq. done.
  - apply (IH _ _ _ j); [lia|].
    rewrite !(assoc_L (∪)) in Heq. exact Heq.
Qed.

(** The scan does not stop before the position it returns. *)
Lemma cut_scan_prefix (f : Z → Z) (l1 l2 : list Z) :
  ∀ (indices vals : gset Z) (k idx : nat),
    cut_scan f indices vals k (l1 ++ l2) = Some idx →
    (k + length l1 ≤ idx)%nat →
    cut_scan f indices vals k l1 = None.
Proof.
  induction l1 as [|v l1 IH]; intros I V k idx; simpl; [done|].
  case_decide.
  - intros [= <-]. lia.
  - intros Hscan Hle. apply (IH _ _ _ idx); [done|lia].
Qed.

Lemma sum_decomposition_nonempty (l : list Z) :
  l ≠ [] → sum_decomposition l ≠ [].
Proof.
  intros Hl. rewrite sum_decomposition_step by done.
  by destruct (cut_scan _ _ _ _ _).
Qed.

Lemma indecomposable_prefix (l : list Z) (idx : nat) :
  cut_scan id ∅ ∅ 0 (but_last l) = Some idx →
  sum_decomposable (take (S idx) l) = false.
Proof.
  intros Hscan. pose proof (cut_scan_range _ _ _ _ _ _ Hscan) as Hr.
  rewrite but_last_length in Hr.
  unfold sum_decomposable. apply bool_decide_eq_false.
  assert (but_last (take (S idx) l) = take idx l) as ->.
  { unfold but_last. rewrite length_take, take_take. f_equal. lia. }
  assert (but_last l = take idx l ++ drop idx (but_last l)) as Hsplit.
  { rewrite <- (take_drop idx (but_last l)) at 1. f_equal.
    unfold but_last. rewrite take_take. f_equal. lia. }
  rewrite Hsplit in Hscan.
  apply cut_scan_prefix in Hscan; [|rewrite length_take; lia].
  rewrite Hscan. by intros [? ?].
Qed.

(** X22. [sum_decomposition()] has at least two components exactly when
    [sum_decomposable()] is [True], and no component it lists is itself
    sum-decomposable. *)
Theorem sum_decomposition_components (P : list Z) :
  (sum_decomposable P = true ↔ (2 ≤ length (sum_decomposition P))%nat)
  ∧ ∀ c, c ∈ sum_decomposition P → sum_decomposable c = false.
Proof.
  split.
  - destruct P as [|x xs].
    { simp sum_decomposition. split; [done|simpl; lia]. }
    rewrite sum_decomposition_step by done.
    unfold sum_decomposable. rewrite bool_decide_eq_true.
    destruct (cut_scan id ∅ ∅ 0 (but_last (x :: xs))) as [idx|] eqn:Hscan.
    + split; [intros _|done].
      apply cut_scan_range in Hscan. rewrite but_last_length in Hscan.
      set (rest := map _ (drop (S idx) (x :: xs))).
      assert (rest ≠ []) as Hrest.
      { intros Hnil. apply (f_equal length) in Hnil. subst rest.
        rewrite length_map, length_drop in Hnil. simpl in *. lia. }
      apply sum_decomposition_nonempty in Hrest.
      destruct (sum_decomposition rest); [done|]. simpl. lia.
    + split; [by intros [? ?]|]. simpl. lia.
  - funelim (sum_decomposition P); intros c Hc.
    + by apply elem_of_nil in Hc.
    + clear Heqcall. apply elem_of_cons in Hc as [->|Hc].
      * by apply indecomposable_prefix.
      * by apply H.
    + apply list_elem_of_singleton in Hc as ->.
      unfold sum_decomposable. rewrite Heq.
      apply bool_decide_eq_false. by intros [? ?].
Qed.

Lemma upto_set (n : nat) (x : Z) :
  x ∈ (list_to_set (Z.of_nat <$> seq 0 n) : gset Z) ↔ 0 ≤ x < Z.of_nat n.
Proof.
  rewrite elem_of_list_to_set, list_elem_of_fmap. split.
  - intros (k & -> & Hk). apply elem_of_seq in Hk. lia.
  - intros Hx. exists (Z.to_nat x). split; [lia|]. apply elem_of_seq. lia.
Qed.

(** The two halves at a cut of a permutation are permutations. *)
Lemma cut_halves (P : list Z) (idx : nat) :
  is_perm P →
  cut_scan id ∅ ∅ 0 (but_last P) = Some idx →
  (S idx < length P)%nat
  ∧ is_perm (take (S idx) P)
  ∧ is_perm (map (λ val, val - Z.of_nat idx - 1) (drop (S idx) P)).
Proof.
  intros [Hnd Hin] Hscan.
  pose proof (cut_scan_range _ _ _ _ _ _ Hscan) as Hr.
  rewrite but_last_length in Hr.
  apply cut_scan_Some_eq in Hscan.
  rewrite !(left_id_L ∅ (∪)), Nat.sub_0_r, list_fmap_id in Hscan.
  assert (take (S idx) (but_last P) = take (S idx) P) as Htake.
  { unfold but_last. rewrite take_take. f_equal. lia. }
  rewrite Htake in Hscan.
  assert (∀ x, x ∈ take (S idx) P ↔ 0 ≤ x < Z.of_nat (S idx)) as Hfirst.
  { intros x. rewrite <- upto_set, Hscan. by rewrite elem_of_list_to_set. }
  rewrite <- (take_drop (S idx) P) in Hnd.
  apply NoDup_app in Hnd as (Hnd1 & Hdisj & Hnd2).
  split; [lia|]. split.
  - apply (is_perm_intro _ (Z.of_nat (S idx))); [done|lia|done].
  - apply (is_perm_intro _ (len P - Z.of_nat idx - 1)).
    + apply NoDup_fmap_2; [|done]. intros a b Hab. lia.
    + unfold len. lia.
    + intros y. change map with (@fmap list _). rewrite list_elem_of_fmap.
      split.
      * intros (v & -> & Hv).
        assert (v ∈ P) as HvP.
        { rewrite <- (take_drop (S idx) P). apply elem_of_app. by right. }
        apply Hin in HvP.
        assert (¬ 0 ≤ v < Z.of_nat (S idx)) as Hout.
        { intros Hv'. apply Hfirst in Hv'. by apply (Hdisj v). }
        lia.
      * intros Hy. exists (y + Z.of_nat idx + 1). split; [lia|].
        assert (y + Z.of_nat idx + 1 ∈ P) as HvP by (apply Hin; lia).
        rewrite <- (take_drop (S idx) P) in HvP.
        apply elem_of_app in HvP as [Hv|Hv]; [|done].
        apply Hfirst in Hv. lia.
Qed.

Lemma cut_add (P : list Z) (idx : nat) :
  add (take (S idx) P) (map (λ val, val - Z.of_nat idx - 1) (drop (S idx) P))
  = P ∨ (length P < S idx)%nat.
Proof.
  destruct (decide (length P < S idx)%nat) as [|Hle]; [by right|left].
  unfold add. change map with (@fmap list _).
  rewrite <- list_fmap_compose.
  rewrite <- (take_drop (S idx) P) at 3. f_equal.
  rewrite <- (list_fmap_id (drop _ _)) at 2.
  apply list_fmap_ext. intros _ v _. simpl.
  unfold len. rewrite length_take. lia.
Qed.

Lemma add_decomposable (A B : list Z) :
  is_perm A → A ≠ [] → B ≠ [] → sum_decomposable (add A B) = true.
Proof.
  intros [_ HA] HAne HBne.
  unfold sum_decomposable. apply bool_decide_eq_true.
  assert (0 < length A)%nat as HlA by (destruct A; [done|simpl; lia]).
  assert (0 < length B)%nat as HlB by (destruct B; [done|simpl; lia]).
  apply (cut_scan_Some_if _ _ _ _ _ (length A - 1)).
  - rewrite but_last_length. unfold add. rewrite length_app, length_map. lia.
  - rewrite !(left_id_L ∅ (∪)), list_fmap_id.
    replace (S (length A - 1)) with (length A) by lia.
    assert (take (length A) (but_last (add A B)) = A) as ->.
    { unfold but_last, add. rewrite take_take, length_app, length_map.
      replace (length A `min` (length A + length B - 1))%nat
        with (length A) by lia.
      by rewrite take_app_length. }
    apply set_eq. intros x. rewrite upto_set, elem_of_list_to_set.
    symmetry. apply HA.
Qed.

(** X23. A permutation is [sum_decomposable()] exactly when it is the
    direct sum [A + B] of two nonempty permutations. *)
Theorem sum_decomposable_spec (P : list Z) :
  is_perm P →
  (sum_decomposable P = true
   ↔ ∃ A B, is_perm A ∧ is_perm B ∧ A ≠ [] ∧ B ≠ [] ∧ P = add A B).
Proof.
  intros HP. split.
  - unfold sum_decomposable. rewrite bool_decide_eq_true.
    intros [idx Hscan].
    destruct (cut_halves P idx HP Hscan) as (Hlen & HA & HB).
    exists (take (S idx) P),
      (map (λ val, val - Z.of_nat idx - 1) (drop (S idx) P)).
    split_and!; try done.
    + intros Hnil. apply (f_equal length) in Hnil.
      rewrite length_take in Hnil.
      change (length (@nil Z)) with 0%nat in Hnil. lia.
    + intros Hnil. apply (f_equal length) in Hnil.
      rewrite length_map, length_drop in Hnil.
      change (length (@nil Z)) with 0%nat in Hnil. lia.
    + destruct (cut_add P idx) as [Hadd|]; [done|lia].
  - intros (A & B & HA & _ & HAne & HBne & ->). by apply add_decomposable.
Qed.

Lemma sum_decomposable_spec_witness :
  sum_decomposable [1;0;2;4;3] = true
  ↔ ∃ A B, is_perm A ∧ is_perm B ∧ A ≠ [] ∧ B ≠ []
           ∧ [1;0;2;4;3] = add A B.
Proof.
  apply (sum_decomposable_spec [1;0;2;4;3]).
  apply is_permb_spec. vm_compute. reflexivity.
Defined.

(** ** Indexing the permutations of a length *)

(** The list after [L[a], L[b] = L[b], L[a]]. *)
Definition swapped (L : list Z) (a b : Z) : list Z :=
  <[Z.to_nat b := L.[a]]> (<[Z.to_nat a := L.[b]]> L).

(** The transposition of the values [u] and [v]. *)
Definition transp (u v x : Z) : Z :=
  if x =? u then v else if x =? v then u else x.

(** The list that the loop of [ind_to_perm] leaves, from [L] and [k],
    when it runs over [i = m, ..., 1]. *)
Fixpoint swaps (L : list Z) (k : Z) (m : nat) : list Z :=
  match m with
  | O => L
  | S m' =>
    swaps (swapped L (Z.of_nat m') (k `mod` Z.of_nat m)) (k `div` Z.of_nat m) m'
  end.

(** [q.index(v)], when [v] is there. *)
Definition pos (q : list Z) (v : Z) : Z :=
  match py_index q v with Ok j => j | _ => 0 end.

(** The number that the loop of [perm_to_ind] adds up, from [q], when it
    runs over [i = m-1, ..., 0]. *)
Fixpoint digits (q : list Z) (m : nat) : Z :=
  match m with
  | O => 0
  | S m' =>
    q.[Z.of_nat m']
    + Z.of_nat m * digits (swapped q (Z.of_nat m') (pos q (Z.of_nat m'))) m'
  end.

(** A permutation that fixes every position from [m] on: the state of
    both loops. *)
Definition settled (m : nat) (q : list Z) : Prop :=
  is_perm q ∧ Z.of_nat m ≤ len q ∧ ∀ x, Z.of_nat m ≤ x < len q → q.[x] = x.

Lemma swap_ok (L : list Z) (a b : Z) :
  0 ≤ a < len L → 0 ≤ b < len L → swap L a b = Ok (swapped L a b).
Proof.
  intros Ha Hb. unfold swap. rewrite !py_get_ok by done.
  cbn [mbind result_bind]. rewrite py_set_ok by done.
  cbn [mbind result_bind]. by rewrite py_set_ok by (by rewrite len_insert).
Qed.

Lemma swapped_len (L : list Z) (a b : Z) : len (swapped L a b) = len L.
Proof. unfold swapped. by rewrite !len_insert. Qed.

Lemma swapped_znth (L : list Z) (a b x : Z) :
  0 ≤ a < len L → 0 ≤ b < len L → 0 ≤ x →
  (swapped L a b).[x]
  = if x =? b then L.[a] else if x =? a then L.[b] else L.[x].
Proof.
  intros Ha Hb Hx. unfold swapped.
  destruct (Z.eqb_spec x b) as [->|Hxb].
  { by rewrite znth_insert_eq by (by rewrite len_insert). }
  rewrite znth_insert_ne by lia.
  destruct (Z.eqb_spec x a) as [->|Hxa].
  { by rewrite znth_insert_eq. }
  by rewrite znth_insert_ne by lia.
Qed.

Lemma swapped_Permutation (L : list Z) (a b : Z) :
  0 ≤ a < len L → 0 ≤ b < len L → swapped L a b ≡ₚ L.
Proof.
  intros Ha Hb. unfold swapped.
  apply Permutation_insert_swap; by apply lookup_znth.
Qed.

Lemma swapped_map (f : Z → Z) (L : list Z) (a b : Z) :
  0 ≤ a < len L → 0 ≤ b < len L →
  swapped (map f L) a b = map f (swapped L a b).
Proof.
  intros Ha Hb. unfold swapped. rewrite !znth_map by done.
  change map with (@fmap list _). by rewrite !list_fmap_insert.
Qed.

Lemma swapped_range (n a b : Z) :
  0 ≤ a < n → 0 ≤ b < n →
  swapped (range 0 n) a b = map (transp a b) (range 0 n).
Proof.
  intros Ha Hb. apply list_eq_znth.
  - rewrite swapped_len. change map with (@fmap list _). by rewrite len_map.
  - intros x Hx. rewrite swapped_len, len_range in Hx.
    rewrite swapped_znth by (rewrite ?len_range; lia).
    rewrite znth_map by (rewrite len_range; lia).
    rewrite !znth_range by lia. unfold transp.
    destruct (Z.eqb_spec x b), (Z.eqb_spec (0 + x) a),
      (Z.eqb_spec x a), (Z.eqb_spec (0 + x) b); lia.
Qed.

Lemma range_down_succ (m : nat) :
  range_down (Z.of_nat (S m)) 0 = Z.of_nat (S m) :: range_down (Z.of_nat m) 0.
Proof.
  rewrite !range_down_reverse.
  replace (Z.of_nat (S m) + 1) with (Z.of_nat m + 1 + 1) by lia.
  rewrite range_snoc by lia. rewrite reverse_snoc. f_equal. lia.
Qed.

Lemma range_up_succ (m : nat) :
  reverse (range 0 (Z.of_nat (S m)))
  = Z.of_nat m :: reverse (range 0 (Z.of_nat m)).
Proof.
  replace (Z.of_nat (S m)) with (Z.of_nat m + 1) by lia.
  rewrite range_snoc by lia. by rewrite reverse_snoc.
Qed.

(** *** The loop of [ind_to_perm] *)

Lemma swaps_len (m : nat) :
  ∀ L k, Z.of_nat m ≤ len L → len (swaps L k m) = len L.
Proof.
  induction m as [|m IH]; intros L k Hm; [done|].
  simpl swaps. rewrite IH; rewrite swapped_len; [done|lia].
Qed.

Lemma ind_to_perm_step_ok (L : list Z) (k i : Z) :
  0 < i ≤ len L →
  ind_to_perm_step (L, k) i = Ok (swapped L (i - 1) (k `mod` i), k `div` i).
Proof.
  intros Hi. unfold ind_to_perm_step.
  pose proof (Z.mod_pos_bound k i ltac:(lia)) as Hj.
  by rewrite swap_ok by lia.
Qed.

Lemma ind_loop_ok (m : nat) :
  ∀ L k, Z.of_nat m ≤ len L →
    ∃ k', foldM ind_to_perm_step (L, k) (range_down (Z.of_nat m) 0)
          = Ok (swaps L k m, k').
Proof.
  induction m as [|m IH]; intros L k Hm.
  - by exists k.
  - rewrite range_down_succ. cbn [foldM].
    rewrite ind_to_perm_step_ok by lia. cbn [mbind result_bind].
    destruct (IH (swapped L (Z.of_nat (S m) - 1) (k `mod` Z.of_nat (S m)))
                 (k `div` Z.of_nat (S m))) as [k' Hk'].
    { rewrite swapped_len. lia. }
    exists k'. rewrite Hk'. simpl swaps.
    by replace (Z.of_nat (S m) - 1) with (Z.of_nat m) by lia.
Qed.

Lemma swaps_Permutation (m : nat) :
  ∀ L k, Z.of_nat m ≤ len L → swaps L k m ≡ₚ L.
Proof.
  induction m as [|m IH]; intros L k Hm; [done|].
  pose proof (Z.mod_pos_bound k (Z.of_nat (S m)) ltac:(lia)) as Hj.
  simpl swaps. rewrite IH by (rewrite swapped_len; lia).
  apply swapped_Permutation; lia.
Qed.

Lemma swaps_fix (m : nat) :
  ∀ L k x, Z.of_nat m ≤ len L → Z.of_nat m ≤ x →
    (swaps L k m).[x] = L.[x].
Proof.
  induction m as [|m IH]; intros L k x Hm Hx; [done|].
  pose proof (Z.mod_pos_bound k (Z.of_nat (S m)) ltac:(lia)) as Hj.
  simpl swaps. rewrite IH by (rewrite ?swapped_len; lia).
  rewrite swapped_znth by lia.
  destruct (Z.eqb_spec x (k `mod` Z.of_nat (S m))); [lia|].
  destruct (Z.eqb_spec x (Z.of_nat m)); [lia|done].
Qed.

Lemma swaps_map (f : Z → Z) (m : nat) :
  ∀ L k, Z.of_nat m ≤ len L → swaps (map f L) k m = map f (swaps L k m).
Proof.
  induction m as [|m IH]; intros L k Hm; [done|].
  pose proof (Z.mod_pos_bound k (Z.of_nat (S m)) ltac:(lia)) as Hj.
  simpl swaps. rewrite swapped_map by lia.
  apply IH. rewrite swapped_len. lia.
Qed.

Lemma swaps_settled (n : Z) (m : nat) (k : Z) :
  Z.of_nat m ≤ n → settled m (swaps (range 0 n) k m).
Proof.
  intros Hm.
  assert (len (range 0 n) = n) as Hlen by (rewrite len_range; lia).
  split; [|split].
  - apply (is_perm_Permutation (range 0 n)); [|apply is_perm_range].
    symmetry. apply swaps_Permutation. lia.
  - rewrite swaps_len; lia.
  - intros x Hx. rewrite swaps_len in Hx by lia.
    rewrite swaps_fix by lia. rewrite znth_range; lia.
Qed.

(** One more turn of the loop relabels the values of what the later
    turns give. *)
Lemma swaps_succ (n : Z) (m : nat) (k : Z) :
  Z.of_nat (S m) ≤ n →
  swaps (range 0 n) k (S m)
  = map (transp (Z.of_nat m) (k `mod` Z.of_nat (S m)))
        (swaps (range 0 n) (k `div` Z.of_nat (S m)) m).
Proof.
  intros Hm.
  pose proof (Z.mod_pos_bound k (Z.of_nat (S m)) ltac:(lia)) as Hj.
  simpl swaps. rewrite swapped_range by lia.
  apply swaps_map. rewrite len_range. lia.
Qed.

Lemma ind_to_perm_swaps (k n : Z) :
  0 ≤ n → ind_to_perm k n = Ok (swaps (range 0 n) k (Z.to_nat n)).
Proof.
  intros Hn. unfold ind_to_perm.
  destruct (ind_loop_ok (Z.to_nat n) (range 0 n) k) as [k' Hk'].
  { rewrite len_range. lia. }
  rewrite Z2Nat.id in Hk' by done. by rewrite Hk'.
Qed.

(** *** The loop of [perm_to_ind] *)

Lemma pos_spec (q : list Z) (v : Z) :
  v ∈ q → py_index q v = Ok (pos q v) ∧ 0 ≤ pos q v < len q ∧ q.[pos q v] = v.
Proof.
  intros Hv. destruct (py_index_lookup q v Hv) as (j & Hj & Hl).
  unfold pos. rewrite Hj. pose proof (lookup_lt_Some _ _ _ Hl).
  split; [done|]. split; [unfold len; lia|].
  apply znth_lookup; [lia|]. by rewrite Nat2Z.id.
Qed.

Lemma settled_pos (m : nat) (q : list Z) :
  settled (S m) q →
  py_index q (Z.of_nat m) = Ok (pos q (Z.of_nat m))
  ∧ 0 ≤ pos q (Z.of_nat m) ≤ Z.of_nat m
  ∧ q.[pos q (Z.of_nat m)] = Z.of_nat m
  ∧ 0 ≤ q.[Z.of_nat m] ≤ Z.of_nat m.
Proof.
  intros (Hq & Hm & Hfix).
  destruct (pos_spec q (Z.of_nat m)) as (Hidx & Hj & Hqj).
  { apply Hq. lia. }
  split; [done|]. split; [|split; [done|]].
  - destruct (decide (pos q (Z.of_nat m) ≤ Z.of_nat m)) as [|Hgt]; [lia|].
    rewrite Hfix in Hqj by lia. lia.
  - pose proof (is_perm_nonneg q (Z.of_nat m) Hq ltac:(lia)) as Hv.
    destruct (decide (q.[Z.of_nat m] ≤ Z.of_nat m)) as [|Hgt]; [lia|].
    pose proof (Hfix q.[Z.of_nat m] ltac:(lia)) as Heq.
    apply is_perm_inj in Heq; [lia|done|lia|lia].
Qed.

Lemma settled_step (m : nat) (q : list Z) :
  settled (S m) q → settled m (swapped q (Z.of_nat m) (pos q (Z.of_nat m))).
Proof.
  intros Hs. destruct (settled_pos m q Hs) as (_ & Hj & Hqj & _).
  destruct Hs as (Hq & Hm & Hfix). split; [|split].
  - apply (is_perm_Permutation q); [|done].
    symmetry. apply swapped_Permutation; lia.
  - rewrite swapped_len. lia.
  - intros x Hx. rewrite swapped_len in Hx.
    rewrite swapped_znth by lia.
    destruct (Z.eqb_spec x (pos q (Z.of_nat m))) as [->|Hne].
    { replace (pos q (Z.of_nat m)) with (Z.of_nat m) in * by lia. done. }
    destruct (Z.eqb_spec x (Z.of_nat m)) as [->|Hne']; [done|].
    apply Hfix. lia.
Qed.

Lemma perm_to_ind_step_ok (m : nat) (q : list Z) (res mult : Z) :
  settled (S m) q →
  perm_to_ind_step (q, res, mult) (Z.of_nat m)
  = Ok (swapped q (Z.of_nat m) (pos q (Z.of_nat m)),
        res + q.[Z.of_nat m] * mult, mult * (Z.of_nat m + 1)).
Proof.
  intros Hs. destruct (settled_pos m q Hs) as (Hidx & Hj & _ & _).
  destruct Hs as (_ & Hm & _). unfold perm_to_ind_step.
  rewrite py_get_ok by lia. cbn [mbind result_bind].
  rewrite Hidx. cbn [mbind result_bind].
  by rewrite swap_ok by lia.
Qed.

Lemma rank_loop_ok (m : nat) :
  ∀ q res mult, settled m q →
    ∃ q' mult',
      foldM perm_to_ind_step (q, res, mult) (reverse (range 0 (Z.of_nat m)))
      = Ok (q', res + mult * digits q m, mult').
Proof.
  induction m as [|m IH]; intros q res mult Hs.
  - exists q, mult. simpl. do 3 f_equal. lia.
  - rewrite range_up_succ. cbn [foldM].
    rewrite perm_to_ind_step_ok by done. cbn [mbind result_bind].
    destruct (IH _ (res + q.[Z.of_nat m] * mult) (mult * (Z.of_nat m + 1))
                 (settled_step m q Hs)) as (q' & mult' & Hq').
    exists q', mult'. rewrite Hq'. do 3 f_equal.
    cbn [digits]. lia.
Qed.

Lemma settled_all (p : list Z) : is_perm p → settled (length p) p.
Proof. intros Hp. split; [done|]. unfold len. split; lia. Qed.

Lemma perm_to_ind_digits (p : list Z) :
  is_perm p → perm_to_ind p = Ok (digits p (length p)).
Proof.
  intros Hp. unfold perm_to_ind. cbv zeta.
  destruct (rank_loop_ok (length p) p 0 1 (settled_all p Hp))
    as (q' & mult' & Hq').
  unfold len. rewrite Hq'. cbn [mbind result_bind]. f_equal. lia.
Qed.

Lemma digits_bound (m : nat) :
  ∀ q, settled m q → 0 ≤ digits q m < Z.of_nat (fact m).
Proof.
  induction m as [|m IH]; intros q Hs; [simpl; lia|].
  destruct (settled_pos m q Hs) as (_ & _ & _ & Hv).
  specialize (IH _ (settled_step m q Hs)).
  cbn [digits]. change (fact (S m)) with (S m * fact m)%nat.
  rewrite Nat2Z.inj_mul. nia.
Qed.

(** *** The two round trips *)

Lemma transp_cases (u v x : Z) :
  (x = u ∧ transp u v x = v) ∨ (x ≠ u ∧ x = v ∧ transp u v x = u)
  ∨ (x ≠ u ∧ x ≠ v ∧ transp u v x = x).
Proof.
  unfold transp. destruct (Z.eqb_spec x u), (Z.eqb_spec x v); lia.
Qed.

Lemma digits_swaps (n : Z) (m : nat) :
  ∀ k, Z.of_nat m ≤ n →
    digits (swaps (range 0 n) k m) m = k `mod` Z.of_nat (fact m).
Proof.
  induction m as [|m IH]; intros k Hm.
  { simpl. by rewrite Z.mod_1_r. }
  pose proof (swaps_settled n (S m) k Hm) as Hs.
  destruct (settled_pos m _ Hs) as (_ & Hj & Hqj & _).
  pose proof (swaps_settled n m (k `div` Z.of_nat (S m)) ltac:(lia)) as HL.
  pose proof (Z.mod_pos_bound k (Z.of_nat (S m)) ltac:(lia)) as Hk.
  cbn [digits]. revert Hs Hj Hqj. rewrite swaps_succ by done.
  set (L := swaps (range 0 n) (k `div` Z.of_nat (S m)) m) in *.
  set (j := k `mod` Z.of_nat (S m)) in *.
  set (q := map (transp (Z.of_nat m) j) L).
  intros Hs Hj Hqj.
  destruct Hs as (Hq & Hlen & _). destruct HL as (HLp & HLlen & HLfix).
  assert (len q = len L) as Hql.
  { subst q. change map with (@fmap list _). apply len_map. }
  assert (∀ x, 0 ≤ x < len L → q.[x] = transp (Z.of_nat m) j L.[x]) as Hqx.
  { intros x Hx. subst q. by rewrite znth_map. }
  assert (swapped q (Z.of_nat m) (pos q (Z.of_nat m)) = L) as ->.
  { apply list_eq_znth; [by rewrite swapped_len|].
    intros x Hx. rewrite swapped_len in Hx.
    rewrite swapped_znth by lia.
    pose proof (Hqx (pos q (Z.of_nat m)) ltac:(lia)) as Hp.
    pose proof (Hqx (Z.of_nat m) ltac:(lia)) as Hqm.
    rewrite HLfix in Hqm by lia.
    destruct (Z.eqb_spec x (pos q (Z.of_nat m))) as [->|Hne].
    { destruct (transp_cases (Z.of_nat m) j L.[pos q (Z.of_nat m)])
        as [(? & ?)|[(? & ? & ?)|(? & ? & ?)]],
        (transp_cases (Z.of_nat m) j (Z.of_nat m))
        as [(? & ?)|[(? & ? & ?)|(? & ? & ?)]]; lia. }
    destruct (Z.eqb_spec x (Z.of_nat m)) as [->|Hne'].
    { rewrite HLfix by lia. done. }
    pose proof (Hqx x ltac:(lia)) as Hx'.
    destruct (transp_cases (Z.of_nat m) j L.[x])
      as [(Hu & ?)|[(? & Hv & He)|(? & ? & ?)]]; [| |lia].
    - rewrite <- (HLfix (Z.of_nat m)) in Hu by lia.
      apply is_perm_inj in Hu; [lia|done|lia|lia].
    - rewrite He in Hx'. rewrite <- Hqj in Hx'.
      apply is_perm_inj in Hx'; [lia|done|lia|lia]. }
  assert (digits L m = (k `div` Z.of_nat (S m)) `mod` Z.of_nat (fact m)) as ->
    by (apply IH; lia).
  rewrite (Hqx (Z.of_nat m)) by lia.
  rewrite HLfix by lia.
  change (fact (S m)) with (S m * fact m)%nat. rewrite Nat2Z.inj_mul.
  pose proof (lt_O_fact m).
  rewrite (Z.rem_mul_r k (Z.of_nat (S m)) (Z.of_nat (fact m))) by lia.
  destruct (transp_cases (Z.of_nat m) j (Z.of_nat m))
    as [(? & ->)|[(? & ? & ?)|(? & ? & ?)]]; [|lia..].
  subst j. done.
Qed.

Lemma swaps_digits (m : nat) :
  ∀ q, settled m q → swaps (range 0 (len q)) (digits q m) m = q.
Proof.
  induction m as [|m IH]; intros q Hs.
  { destruct Hs as (Hq & _ & Hfix). simpl. apply list_eq_znth.
    - rewrite len_range. unfold len. lia.
    - intros x Hx. rewrite len_range in Hx.
      rewrite znth_range by lia. rewrite Hfix; simpl; lia. }
  destruct (settled_pos m q Hs) as (_ & Hj & Hqj & Hv).
  pose proof (settled_step m q Hs) as Hs'.
  pose proof (IH _ Hs') as Hrec. rewrite swapped_len in Hrec.
  destruct Hs as (Hq & Hm & Hfix).
  rewrite swaps_succ by done. cbn [digits].
  set (D := digits (swapped q (Z.of_nat m) (pos q (Z.of_nat m))) m) in *.
  assert ((q.[Z.of_nat m] + Z.of_nat (S m) * D) `mod` Z.of_nat (S m)
          = q.[Z.of_nat m]) as ->.
  { rewrite Z.mul_comm, Z_mod_plus_full. apply Z.mod_small. lia. }
  assert ((q.[Z.of_nat m] + Z.of_nat (S m) * D) `div` Z.of_nat (S m) = D)
    as ->.
  { rewrite Z.mul_comm, Z.div_add by lia. rewrite Z.div_small; lia. }
  rewrite Hrec. apply list_eq_znth.
  { change map with (@fmap list _). by rewrite len_map, swapped_len. }
  intros x Hx. change map with (@fmap list _) in Hx.
  rewrite len_map, swapped_len in Hx.
  rewrite znth_map by (by rewrite swapped_len).
  rewrite swapped_znth by lia.
  destruct (Z.eqb_spec x (pos q (Z.of_nat m))) as [->|Hne].
  { destruct (transp_cases (Z.of_nat m) q.[Z.of_nat m] q.[Z.of_nat m])
      as [(? & ?)|[(? & ? & ?)|(? & ? & ?)]]; lia. }
  destruct (Z.eqb_spec x (Z.of_nat m)) as [->|Hne'].
  { rewrite Hqj.
    destruct (transp_cases (Z.of_nat m) q.[Z.of_nat m] (Z.of_nat m))
      as [(? & ?)|[(? & ? & ?)|(? & ? & ?)]]; lia. }
  destruct (transp_cases (Z.of_nat m) q.[Z.of_nat m] q.[x])
    as [(Hu & ?)|[(? & Hv' & ?)|(? & ? & ?)]]; [| |done].
  - rewrite <- Hqj in Hu. apply is_perm_inj in Hu; [lia|done|lia|lia].
  - apply is_perm_inj in Hv'; [lia|done|lia|lia].
Qed.

(** X24. [ind_to_perm(k, n)] returns, for every integer [k] (inside
    [0 .. n!-1] or not), a permutation of length [n]. *)
Theorem ind_to_perm_is_perm (k n : Z) :
  0 ≤ n → ∃ p, ind_to_perm k n = Ok p ∧ is_perm p ∧ len p = n.
Proof.
  intros Hn. exists (swaps (range 0 n) k (Z.to_nat n)).
  split; [by apply ind_to_perm_swaps|].
  destruct (swaps_settled n (Z.to_nat n) k ltac:(lia)) as (Hp & _ & _).
  split; [done|]. rewrite swaps_len; rewrite len_range; lia.
Qed.

Lemma ind_to_perm_is_perm_witness :
  ∃ p, ind_to_perm 100 4 = Ok p ∧ is_perm p ∧ len p = 4.
Proof. apply (ind_to_perm_is_perm 100 4). lia. Defined.

(** X25. [perm_to_ind] undoes [ind_to_perm]:
    [ind_to_perm(k, n).perm_to_ind()] is [k % n!], so it is [k] for
    [0 <= k < n!]. *)
Theorem perm_to_ind_of_ind_to_perm (k n : Z) :
  0 ≤ n →
  ∃ p, ind_to_perm k n = Ok p
       ∧ perm_to_ind p = Ok (k `mod` Z.of_nat (fact (Z.to_nat n)))
       ∧ (0 ≤ k < Z.of_nat (fact (Z.to_nat n)) → perm_to_ind p = Ok k).
Proof.
  intros Hn. exists (swaps (range 0 n) k (Z.to_nat n)).
  split; [by apply ind_to_perm_swaps|].
  destruct (swaps_settled n (Z.to_nat n) k ltac:(lia)) as (Hp & _ & _).
  assert (length (swaps (range 0 n) k (Z.to_nat n)) = Z.to_nat n) as Hlen.
  { pose proof (swaps_len (Z.to_nat n) (range 0 n) k) as H.
    rewrite len_range in H. unfold len in H. lia. }
  assert (perm_to_ind (swaps (range 0 n) k (Z.to_nat n))
          = Ok (k `mod` Z.of_nat (fact (Z.to_nat n)))) as Hrt.
  { rewrite perm_to_ind_digits by done. rewrite Hlen.
    by rewrite digits_swaps by lia. }
  split; [done|]. intros Hk. rewrite Hrt. f_equal. by apply Z.mod_small.
Qed.

Lemma perm_to_ind_of_ind_to_perm_witness :
  ∃ p, ind_to_perm 12 8 = Ok p
       ∧ perm_to_ind p = Ok (12 `mod` Z.of_nat (fact (Z.to_nat 8)))
       ∧ (0 ≤ 12 < Z.of_nat (fact (Z.to_nat 8)) → perm_to_ind p = Ok 12).
Proof. apply (perm_to_ind_of_ind_to_perm 12 8). lia. Defined.

(** X26. [ind_to_perm] undoes [perm_to_ind]: for a permutation [p],
    [p.perm_to_ind()] is a number in [0 .. len(p)!-1] and
    [ind_to_perm(p.perm_to_ind(), len(p))] is [p]. *)
Theorem ind_to_perm_of_perm_to_ind (p : list Z) :
  is_perm p →
  ∃ k, perm_to_ind p = Ok k
       ∧ 0 ≤ k < Z.of_nat (fact (length p))
       ∧ ind_to_perm k (len p) = Ok p.
Proof.
  intros Hp. exists (digits p (length p)).
  pose proof (settled_all p Hp) as Hs.
  split; [by apply perm_to_ind_digits|].
  split; [by apply digits_bound|].
  rewrite ind_to_perm_swaps by (unfold len; lia).
  f_equal. unfold len at 2. rewrite Nat2Z.id. by apply swaps_digits.
Qed.

Lemma ind_to_perm_of_perm_to_ind_witness :
  ∃ k, perm_to_ind [3;0;4;1;2] = Ok k
       ∧ 0 ≤ k < Z.of_nat (fact (length [3;0;4;1;2]))
       ∧ ind_to_perm k (len [3;0;4;1;2]) = Ok [3;0;4;1;2].
Proof.
  apply (ind_to_perm_of_perm_to_ind [3;0;4;1;2]).
  apply is_permb_spec. vm_compute. reflexivity.
Defined.

(** ** Standardizing, and the copies of a pattern *)

Lemma remove_dups_length_le (L : list Z) :
  (length (remove_dups L) ≤ length L)%nat.
Proof.
  induction L as [|x L IH]; simpl; [done|].
  destruct (decide_rel _ x L); simpl; lia.
Qed.

Lemma remove_dups_length_NoDup (L : list Z) :
  length (remove_dups L) = length L → NoDup L.
Proof.
  induction L as [|x L IH]; simpl; [constructor|].
  pose proof (remove_dups_length_le L).
  destruct (decide_rel _ x L) as [|Hx]; simpl; [lia|].
  intros Hlen. constructor; [done|]. apply IH. lia.
Qed.

(** The ranks of the entries are in the order of the entries. *)
Lemma rank_order (L : list Z) (x y : Z) :
  x ∈ L → y ∈ L → (rank x L < rank y L ↔ x < y).
Proof.
  intros Hx Hy. split.
  - intros Hlt. destruct (decide (x < y)) as [|Hge]; [done|].
    pose proof (rank_mono y x L ltac:(lia)). lia.
  - intros Hlt. by apply rank_lt.
Qed.

(** X27. [standardize(L)] raises [AssertionError] exactly when [L] has a
    repeated entry; otherwise it returns a permutation of the length of
    [L] whose entries are in the same relative order as those of [L]. *)
Theorem standardize_spec (L : list Z) :
  match standardize L with
  | Ok p =>
    NoDup L ∧ is_perm p ∧ len p = len L
    ∧ ∀ a b, 0 ≤ a < len L → 0 ≤ b < len L → (p.[a] < p.[b] ↔ L.[a] < L.[b])
  | Raise e => e = AssertionError ∧ ¬ NoDup L
  | NoFuel => False
  end.
Proof.
  destruct (decide (NoDup L)) as [Hnd|Hnd].
  - rewrite standardize_NoDup by done. split_and!.
    + done.
    + by apply ranks_is_perm.
    + change map with (@fmap list _). apply len_map.
    + intros a b Ha Hb. rewrite !znth_map by done.
      apply rank_order; apply elem_of_znth; eauto.
  - unfold standardize. rewrite bool_decide_eq_false_2; [done|].
    intros Hlen. by apply Hnd, remove_dups_length_NoDup.
Qed.

(** *** Subsequences *)

(** A strictly increasing list of positions, all in [lo .. hi-1]. *)
Fixpoint climbing (lo hi : Z) (s : list Z) : Prop :=
  match s with
  | [] => True
  | i :: s' => lo ≤ i < hi ∧ climbing (i + 1) hi s'
  end.

Lemma filterM_Ok {A} (f : A → result bool) (g : A → bool) (l : list A) :
  (∀ x, x ∈ l → f x = Ok (g x)) →
  filterM f l = Ok (filter (λ x, g x = true) l).
Proof.
  induction l as [|x l IH]; intros H; [done|].
  cbn [filterM]. rewrite (H x) by left. cbn [mbind result_bind].
  rewrite IH by (intros y Hy; apply H; by right). cbn [mbind result_bind].
  rewrite filter_cons. destruct (g x); by case_decide.
Qed.

Lemma elem_of_combinations {A} (l : list A) :
  ∀ (r : nat) (c : list A),
    c ∈ combinations l r ↔ c `sublist_of` l ∧ length c = r.
Proof.
  induction l as [|x l IH]; intros r c.
  - destruct r; simpl.
    + rewrite list_elem_of_singleton, sublist_nil_r.
      split; [by intros ->|by intros [-> _]].
    + rewrite elem_of_nil, sublist_nil_r. split; [done|]. by intros [-> ?].
  - destruct r as [|r]; simpl.
    + rewrite list_elem_of_singleton. split.
      * intros ->. split; [apply sublist_nil_l|done].
      * intros [_ Hlen]. by destruct c.
    + rewrite elem_of_app, list_elem_of_fmap, sublist_cons_r.
      setoid_rewrite IH. split.
      * intros [(c' & -> & Hs & Hl)|[Hs Hl]].
        -- split; [right; eauto|simpl; lia].
        -- split; [by left|done].
      * intros [[Hs|(c' & -> & Hs)] Hl].
        -- by right.
        -- left. exists c'. simpl in Hl. split; [done|]. split; [done|lia].
Qed.

Lemma znth_cons (x : Z) (l : list Z) (a : Z) :
  0 ≤ a → (x :: l).[a + 1] = l.[a].
Proof.
  intros Ha. unfold znth.
  by replace (Z.to_nat (a + 1)) with (S (Z.to_nat a)) by lia.
Qed.

Lemma climbing_weaken (lo lo' hi : Z) (s : list Z) :
  lo' ≤ lo → climbing lo hi s → climbing lo' hi s.
Proof. destruct s; simpl; [done|]. intros ? [? ?]. split; [lia|done]. Qed.

Lemma climbing_pointwise (s : list Z) :
  ∀ lo hi,
    climbing lo hi s
    ↔ (∀ a, 0 ≤ a < len s → lo ≤ s.[a] < hi)
      ∧ (∀ a b, 0 ≤ a < b → b < len s → s.[a] < s.[b]).
Proof.
  induction s as [|i s IH]; intros lo hi.
  - split; [intros _|done]. split; intros; unfold len in *; simpl in *; lia.
  - assert (len (i :: s) = len s + 1) as Hlen by (unfold len; simpl; lia).
    assert ((i :: s).[0] = i) as H0 by done.
    cbn [climbing]. rewrite IH, Hlen. split.
    + intros (Hi & Hb & Hinc). split.
      * intros a Ha. destruct (decide (a = 0)) as [->|Hne]; [by rewrite H0|].
        specialize (Hb (a - 1) ltac:(lia)).
        rewrite <- (znth_cons i s (a - 1)) in Hb by lia.
        replace (a - 1 + 1) with a in Hb by lia. lia.
      * intros a b Hab Hb'.
        pose proof (Hb (b - 1) ltac:(lia)) as Hbb.
        rewrite <- (znth_cons i s (b - 1)) in Hbb by lia.
        replace (b - 1 + 1) with b in Hbb by lia.
        destruct (decide (a = 0)) as [->|Hne]; [rewrite H0; lia|].
        pose proof (Hinc (a - 1) (b - 1) ltac:(lia) ltac:(lia)) as Hab'.
        rewrite <- (znth_cons i s (a - 1)), <- (znth_cons i s (b - 1))
          in Hab' by lia.
        replace (a - 1 + 1) with a in Hab' by lia.
        by replace (b - 1 + 1) with b in Hab' by lia.
    + intros (Hb & Hinc). split; [|split].
      * rewrite <- H0. apply (Hb 0). unfold len. lia.
      * intros a Ha. rewrite <- (znth_cons i s a) by lia.
        specialize (Hb (a + 1) ltac:(lia)).
        specialize (Hinc 0 (a + 1) ltac:(lia) ltac:(lia)).
        rewrite H0 in Hinc. lia.
      * intros a b Hab Hb'.
        rewrite <- (znth_cons i s a), <- (znth_cons i s b) by lia.
        apply Hinc; lia.
Qed.

(** The subsequences of a list are its entries at increasing positions. *)
Lemma sublist_climbing_from (B2 : list Z) :
  ∀ (B1 c : list Z),
    c `sublist_of` B2
    ↔ ∃ s, climbing (len B1) (len (B1 ++ B2)) s
           ∧ c = map (λ i, (B1 ++ B2).[i]) s.
Proof.
  induction B2 as [|x B2 IH]; intros B1 c.
  - rewrite sublist_nil_r, app_nil_r. split.
    + intros ->. by exists [].
    + intros (s & Hs & ->). destruct s as [|i s]; [done|]. simpl in Hs. lia.
  - rewrite sublist_cons_r.
    assert ((B1 ++ [x]) ++ B2 = B1 ++ x :: B2) as Happ by (by rewrite <- app_assoc).
    assert (len (B1 ++ [x]) = len B1 + 1) as Hl1 by (by rewrite len_app).
    assert (len (B1 ++ x :: B2) = len B1 + 1 + len B2) as Hl.
    { rewrite len_app. unfold len. simpl. lia. }
    assert ((B1 ++ x :: B2).[len B1] = x) as Hx.
    { apply znth_lookup; [unfold len; lia|].
      unfold len. rewrite Nat2Z.id. by apply list_lookup_middle. }
    pose proof (IH (B1 ++ [x])) as IH'. rewrite Happ, Hl1 in IH'.
    split.
    + intros [Hs|(c' & -> & Hs)].
      * apply IH' in Hs as (s & Hs & ->). exists s. split; [|done].
        apply (climbing_weaken (len B1 + 1)); [lia|done].
      * apply IH' in Hs as (s & Hs & ->). exists (len B1 :: s). split.
        -- simpl. split; [unfold len in *; lia|done].
        -- simpl. by rewrite Hx.
    + intros (s & Hs & ->). destruct s as [|i s].
      { left. apply sublist_nil_l. }
      simpl in Hs. destruct Hs as [Hi Hs].
      destruct (decide (i = len B1)) as [->|Hne].
      * right. exists (map (λ i, (B1 ++ x :: B2).[i]) s). simpl. rewrite Hx.
        split; [done|]. apply IH'. by exists s.
      * left. apply IH'. exists (i :: s). split; [|done].
        simpl. split; [lia|done].
Qed.

Lemma sublist_climbing (B c : list Z) :
  c `sublist_of` B
  ↔ ∃ s, climbing 0 (len B) s ∧ c = map (λ i, B.[i]) s.
Proof. apply (sublist_climbing_from B []). Qed.

(** *** Order isomorphism *)

Lemma filter_len_pointwise (P Q : Z → Prop)
    `{∀ x, Decision (P x)} `{∀ x, Decision (Q x)} (l : list Z) :
  ∀ k : list Z,
    len l = len k → (∀ b, 0 ≤ b < len l → (P l.[b] ↔ Q k.[b])) →
    len (filter P l) = len (filter Q k).
Proof.
  induction l as [|x l IH]; intros [|y k] Hlen Hpq;
    try (unfold len in Hlen; simpl in Hlen; lia); [done|].
  assert (len (x :: l) = len l + 1) as Hl by (unfold len; simpl; lia).
  assert (len (y :: k) = len k + 1) as Hk by (unfold len; simpl; lia).
  assert (0 ≤ len l) as Hnn by (unfold len; lia).
  rewrite Hl in Hpq. rewrite Hl, Hk in Hlen.
  rewrite !filter_cons.
  pose proof (Hpq 0 ltac:(lia)) as Hxy.
  change ((x :: l).[0]) with x in Hxy. change ((y :: k).[0]) with y in Hxy.
  assert (len (filter P l) = len (filter Q k)) as Hrec.
  { apply IH; [lia|].
    intros b Hb. rewrite <- (znth_cons x l b), <- (znth_cons y k b) by lia.
    apply Hpq. lia. }
  destruct (decide (P x)), (decide (Q y)); [|tauto|tauto|done].
  unfold len in *. simpl. lia.
Qed.

(** The standardization of [c] is [A] exactly when [c] is in the relative
    order of [A]. *)
Lemma standardize_order_iso (c A : list Z) :
  NoDup c → is_perm A → len c = len A →
  (map (λ x, rank x c) c = A
   ↔ ∀ a b, 0 ≤ a < len A → 0 ≤ b < len A → (A.[a] < A.[b] ↔ c.[a] < c.[b])).
Proof.
  intros Hc HA Hlen. split.
  - intros HcA a b Ha Hb. rewrite <- HcA. rewrite !znth_map by lia.
    apply rank_order; apply elem_of_znth; [exists a|exists b]; split; (lia || done).
  - intros Hiso. apply list_eq_znth.
    { change map with (@fmap list _). by rewrite len_map. }
    intros a Ha. change map with (@fmap list _) in Ha. rewrite len_map in Ha.
    rewrite znth_map by done.
    assert (A.[a] ∈ A) as HaA by (apply elem_of_znth; exists a; split; (lia || done)).
    rewrite <- (rank_perm A A.[a] HA HaA). unfold rank.
    apply filter_len_pointwise; [done|].
    intros b Hb. symmetry. apply Hiso; lia.
Qed.

(** *** [copies] and [contiguous_copies] *)

Lemma same_pattern_NoDup (c A : list Z) :
  NoDup c →
  same_pattern c A = Ok (bool_decide (map (λ x, rank x c) c = A)).
Proof. intros Hc. unfold same_pattern. by rewrite standardize_NoDup. Qed.

Lemma standardize_eq_ranks (c A : list Z) :
  NoDup c → (standardize c = Ok A ↔ map (λ x, rank x c) c = A).
Proof.
  intros Hc. rewrite standardize_NoDup by done.
  split; [by intros [= ->]|by intros ->].
Qed.

(** The entries of [P] at an occurrence of [A], and the occurrences as
    subsequences. *)
Lemma occurrence_sublist (A P : list Z) :
  NoDup P → is_perm A →
  contains A P
  ↔ ∃ c, c `sublist_of` P ∧ map (λ x, rank x c) c = A.
Proof.
  intros HP HA. split.
  - intros (s & Hlen & Hb & Hinc & Hiso).
    exists (map (λ i, P.[i]) s).
    assert (map (λ i, P.[i]) s `sublist_of` P) as Hsub.
    { apply sublist_climbing. exists s. split; [|done].
      apply climbing_pointwise. rewrite Hlen. split; [done|].
      intros a b Hab Hb'. by apply Hinc. }
    split; [done|].
    apply standardize_order_iso.
    + by apply (sublist_NoDup _ P).
    + done.
    + change map with (@fmap list _). by rewrite len_map.
    + intros a b Ha Hb'. rewrite !znth_map by lia. by apply Hiso.
  - intros (c & Hsub & HcA).
    pose proof (sublist_NoDup _ _ HP Hsub) as Hc.
    apply sublist_climbing in Hsub as (s & Hs & ->).
    apply climbing_pointwise in Hs as [Hb Hinc].
    assert (len s = len A) as Hlen.
    { rewrite <- HcA. change map with (@fmap list _). by rewrite !len_map. }
    assert (len (map (λ i, P.[i]) s) = len A) as Hlc.
    { rewrite <- Hlen. change map with (@fmap list _). by rewrite len_map. }
    pose proof (proj1 (standardize_order_iso _ A Hc HA Hlc) HcA) as Hiso.
    exists s. split; [done|]. rewrite <- Hlen. split; [done|].
    split; [intros a b Hab Hb'; by apply Hinc|].
    intros a b Ha Hb'. etransitivity; [apply Hiso; lia|].
    by rewrite !znth_map by lia.
Qed.

(** X28. For a sequence [P] of distinct entries and a permutation [A],
    [P.copies(A)] returns, without raising, exactly the subsequences of
    [P] that standardize to [A]; it returns a nonempty list exactly when
    [A.involved_in(P)] answers [True]. *)
Theorem copies_spec (P A : list Z) :
  NoDup P → is_perm A →
  ∃ cs b,
    copies P A = Ok cs
    ∧ (∀ c, c ∈ cs ↔ c `sublist_of` P ∧ standardize c = Ok A)
    ∧ involved_in A P 0 = Ok b
    ∧ (b = true ↔ cs ≠ []).
Proof.
  intros HP HA.
  set (g := λ c : list Z, bool_decide (map (λ x, rank x c) c = A)).
  exists (filter (λ c, g c = true) (combinations P (length A))).
  destruct (involved_in_contains A P HA) as (b & Hb & Hiff). exists b.
  assert (∀ c, c ∈ filter (λ c, g c = true) (combinations P (length A))
               ↔ c `sublist_of` P ∧ standardize c = Ok A) as Hmem.
  { intros c. rewrite list_elem_of_filter, elem_of_combinations. subst g.
    cbv beta. rewrite bool_decide_eq_true. split.
    - intros (HcA & Hsub & _). split; [done|].
      apply standardize_eq_ranks; [|done]. by apply (sublist_NoDup _ P).
    - intros (Hsub & Hstd). pose proof (standardize_length _ _ Hstd) as Hl.
      apply standardize_eq_ranks in Hstd; [|by apply (sublist_NoDup _ P)].
      done. }
  split_and!; [|done|done|].
  - unfold copies. apply filterM_Ok. intros c Hc.
    apply elem_of_combinations in Hc as [Hsub _].
    apply same_pattern_NoDup. by apply (sublist_NoDup _ P).
  - rewrite Hiff, (occurrence_sublist A P HP HA). split.
    + intros (c & Hsub & HcA) Hnil.
      assert (c ∈ filter (λ c, g c = true) (combinations P (length A))) as Hin.
      { apply Hmem. split; [done|].
        apply standardize_eq_ranks; [|done]. by apply (sublist_NoDup _ P). }
      rewrite Hnil in Hin. by apply elem_of_nil in Hin.
    + intros Hne.
      destruct (filter (λ c, g c = true) (combinations P (length A)))
        as [|c cs] eqn:Hcs; [done|].
      assert (c ∈ c :: cs) as Hin by left.
      apply Hmem in Hin as [Hsub Hstd]. exists c. split; [done|].
      apply standardize_eq_ranks; [|done]. by apply (sublist_NoDup _ P).
Qed.

Lemma copies_spec_witness :
  ∃ cs b,
    copies [4;3;1;0;2] [1;0;2] = Ok cs
    ∧ (∀ c, c ∈ cs ↔ c `sublist_of` [4;3;1;0;2] ∧ standardize c = Ok [1;0;2])
    ∧ involved_in [1;0;2] [4;3;1;0;2] 0 = Ok b
    ∧ (b = true ↔ cs ≠ []).
Proof.
  apply (copies_spec [4;3;1;0;2] [1;0;2]).
  - refine (proj1 (is_permb_spec _ _)). vm_compute. reflexivity.
  - apply is_permb_spec. vm_compute. reflexivity.
Defined.

(** X29. For a sequence [P] of distinct entries, [P.contiguous_copies(A)]
    returns, without raising, the positions [i] with [i + len(A) < len(P)]
    whose window [P[i:i+len(A)]] standardizes to [A]: the window that ends
    with the last entry of [P] is not looked at, so
    [P.contiguous_copies(P)] is empty. *)
Theorem contiguous_copies_spec (P A : list Z) :
  NoDup P →
  (∃ L, contiguous_copies P A = Ok L
        ∧ ∀ i, i ∈ L
               ↔ 0 ≤ i ∧ i + len A < len P
                 ∧ standardize (slice P i (i + len A)) = Ok A)
  ∧ contiguous_copies P P = Ok [].
Proof.
  intros HP. split.
  - set (g := λ i : Z,
          bool_decide (map (λ x, rank x (slice P i (i + len A)))
                           (slice P i (i + len A)) = A)).
    exists (filter (λ i, g i = true) (range 0 (len P - len A))). split.
    + unfold contiguous_copies. cbv zeta. apply filterM_Ok. intros i _.
      apply same_pattern_NoDup. by apply NoDup_slice.
    + intros i. rewrite list_elem_of_filter, elem_of_range. subst g.
      cbv beta. rewrite bool_decide_eq_true.
      rewrite (standardize_eq_ranks _ A) by (by apply NoDup_slice).
      split; [intros (? & ? & ?)|intros (? & ? & ?)]; split_and!; (done || lia).
  - unfold contiguous_copies. cbv zeta. by rewrite Z.sub_diag.
Qed.

Lemma contiguous_copies_spec_witness :
  (∃ L, contiguous_copies [2;0;1;3;5;4] [1;0] = Ok L
        ∧ ∀ i, i ∈ L
               ↔ 0 ≤ i ∧ i + len [1;0] < len [2;0;1;3;5;4]
                 ∧ standardize (slice [2;0;1;3;5;4] i (i + len [1;0]))
                   = Ok [1;0])
  ∧ contiguous_copies [2;0;1;3;5;4] [2;0;1;3;5;4] = Ok [].
Proof.
  apply (contiguous_copies_spec [2;0;1;3;5;4] [1;0]).
  refine (proj1 (is_permb_spec _ _)). vm_compute. reflexivity.
Defined.
